(** * A stack processor toolchain: ISA, tick-accurate machine, code generator

    Shallow embedding of [isa.py], [core/io.py], [core/datapath.py],
    [core/cpu.py], [core/runner.py] and [translator/codegen.py].

    Python integers are unbounded, so every integer is a [Z] and each mask
    ([& 0xFFFF_FFFF], [& 0x00FF_FFFF], ...) is written where the source
    writes it.  A Python exception is a [Raise] result. *)

From Stdlib Require Import ZArith Lia Bool.
From Stdlib.Strings Require Import Byte.
From stdpp Require Import gmap strings list pretty.

Local Open Scope Z_scope.
#[local] Set Warnings "-register-all".

(** ** Exceptions *)

Inductive PyError : Type :=
| ValueError
| IndexError
| AttributeError
| TypeError
| AssertionError (msg : string)
| NotImplementedError.

Inductive result (A : Type) : Type :=
| Ok (a : A)
| Raise (e : PyError).
Arguments Ok {A} a.
Arguments Raise {A} e.

Definition rbind {A B : Type} (m : result A) (k : A -> result B) : result B :=
  match m with
  | Ok a => k a
  | Raise e => Raise e
  end.

Notation "'let*' x ':=' m 'in' k" := (rbind m (fun x => k))
  (at level 10, x name, m at level 100, k at level 200).

(** ** isa.py *)

Module Isa.

Inductive Opcode : Type :=
| NOP | PUSHI | LOAD | STORE | DUP | DROP | SWAP
| ADD | SUB | MUL | DIV
| LE
| JMP | JZ | CALL | RET | IRET | EI | DI
| IN | OUT
| HALT.

(** [int(opcode)]: the value of the [IntEnum] member. *)
Definition opcode_int (o : Opcode) : Z :=
  match o with
  | NOP => 0x00 | PUSHI => 0x01 | LOAD => 0x02 | STORE => 0x03
  | DUP => 0x04 | DROP => 0x05 | SWAP => 0x06
  | ADD => 0x10 | SUB => 0x11 | MUL => 0x12 | DIV => 0x13
  | LE => 0x41
  | JMP => 0x20 | JZ => 0x21 | CALL => 0x22 | RET => 0x23
  | IRET => 0x24 | EI => 0x25 | DI => 0x26
  | IN => 0x30 | OUT => 0x31
  | HALT => 0xFF
  end.

(** The members of the enumeration, in declaration order. *)
Definition opcodes : list Opcode :=
  [NOP; PUSHI; LOAD; STORE; DUP; DROP; SWAP; ADD; SUB; MUL; DIV; LE;
   JMP; JZ; CALL; RET; IRET; EI; DI; IN; OUT; HALT].

Definition opcode_eqb (a b : Opcode) : bool := opcode_int a =? opcode_int b.

(** [Opcode(v)]: lookup of a member by value; [ValueError] when no member
    has that value. *)
Definition Opcode_of_int (v : Z) : result Opcode :=
  match find (fun o => opcode_int o =? v) opcodes with
  | Some o => Ok o
  | None => Raise ValueError
  end.

Record Instr : Type := mkInstr { opcode : Opcode; arg : Z }.

(** An element handed to [bytearray.extend]; every call site masks it
    with [& 0xFF] first. *)
Definition byte_of_int (z : Z) : byte :=
  match Byte.of_N (Z.to_N z) with
  | Some b => b
  | None => x00
  end.

Definition int_of_byte (b : byte) : Z := Z.of_N (Byte.to_N b).

Definition encode_word (ins : Instr) : Z :=
  Z.lor (Z.shiftl (Z.land (opcode_int (opcode ins)) 0xFF) 24)
        (Z.land (arg ins) 0x00FFFFFF).

Fixpoint encode (instrs : list Instr) : list byte :=
  match instrs with
  | [] => []
  | ins :: rest =>
      let word := encode_word ins in
      byte_of_int (Z.land word 0xFF)
        :: byte_of_int (Z.land (Z.shiftr word 8) 0xFF)
        :: byte_of_int (Z.land (Z.shiftr word 16) 0xFF)
        :: byte_of_int (Z.land (Z.shiftr word 24) 0xFF)
        :: encode rest
  end.

Definition decode_word (b0 b1 b2 b3 : byte) : Z :=
  Z.lor (Z.lor (Z.lor (int_of_byte b0) (Z.shiftl (int_of_byte b1) 8))
               (Z.shiftl (int_of_byte b2) 16))
        (Z.shiftl (int_of_byte b3) 24).

Definition decode_instr (word : Z) : result Instr :=
  let* opcode := Opcode_of_int (Z.land (Z.shiftr word 24) 0xFF) in
  let arg := Z.land word 0x00FFFFFF in
  let arg :=
    if opcode_eqb opcode PUSHI && negb (Z.land arg 0x00800000 =? 0)
    then arg - Z.shiftl 1 24
    else arg in
  Ok (mkInstr opcode arg).

(** The loop [for i in range(0, len(blob), 4)] with its [break] when
    fewer than four bytes remain: one word is taken off the front of the
    blob per iteration. *)
Fixpoint decode (blob : list byte) : result (list Instr) :=
  match blob with
  | b0 :: b1 :: b2 :: b3 :: rest =>
      let* ins := decode_instr (decode_word b0 b1 b2 b3) in
      let* code := decode rest in
      Ok (ins :: code)
  | _ => Ok []
  end.

Definition DEFAULT_NUM_VECTORS : Z := 8.

End Isa.

(** ** Python list indexing

    [l[i]] with a negative [i] counts from the end; out of range raises
    [IndexError]. *)

Definition py_index {A : Type} (l : list A) (i : Z) : result A :=
  let n := Z.of_nat (length l) in
  let j := if i <? 0 then i + n else i in
  if (j <? 0) || (n <=? j) then Raise IndexError
  else match l !! Z.to_nat j with
       | Some x => Ok x
       | None => Raise IndexError
       end.

(** [l[i] = x], same index rule. *)
Definition py_setitem {A : Type} (l : list A) (i : Z) (x : A) : result (list A) :=
  let n := Z.of_nat (length l) in
  let j := if i <? 0 then i + n else i in
  if (j <? 0) || (n <=? j) then Raise IndexError
  else Ok (<[Z.to_nat j := x]> l).

(** ** core/io.py *)

Module Io.

Record IOEvent : Type := mkIOEvent { tick : Z; port : Z; value : Z }.

Record IOController : Type := mkIOController {
  _in_queues : gmap Z (list Z);
  _out_queues : gmap Z (list Z);
  _schedule : gmap Z (list IOEvent);
  _pending_irq : option Z
}.

(** [d.setdefault(k, []).append(x)] *)
Definition setdefault_append {A : Type} (d : gmap Z (list A)) (k : Z) (x : A)
  : gmap Z (list A) :=
  <[k := default [] (d !! k) ++ [x]]> d.

(** [IOController(schedule=...)] *)
Definition init (schedule : list IOEvent) : IOController :=
  mkIOController ∅ ∅
    (fold_left (fun m ev => setdefault_append m (tick ev) ev) schedule ∅)
    None.

Definition on_tick_event (io : IOController) (ev : IOEvent) : IOController :=
  mkIOController
    (setdefault_append (_in_queues io) (port ev) (value ev))
    (_out_queues io)
    (_schedule io)
    (match _pending_irq io with
     | None => Some (port ev)
     | Some p => Some p
     end).

Definition on_tick (io : IOController) (t : Z) : IOController :=
  fold_left on_tick_event (default [] (_schedule io !! t)) io.

Definition irq_pending (io : IOController) : option Z := _pending_irq io.

Definition ack_irq (io : IOController) : IOController :=
  mkIOController (_in_queues io) (_out_queues io) (_schedule io) None.

(** [q.pop(0)] removes the head of the list stored in the dictionary. *)
Definition read_port (io : IOController) (port : Z) : Z * IOController :=
  match _in_queues io !! port with
  | Some (v :: q) =>
      (v, mkIOController (<[port := q]> (_in_queues io)) (_out_queues io)
                         (_schedule io) (_pending_irq io))
  | _ => (0, io)
  end.

Definition write_port (io : IOController) (port value : Z) : IOController :=
  mkIOController (_in_queues io)
                 (setdefault_append (_out_queues io) port value)
                 (_schedule io) (_pending_irq io).

Definition out_dump (io : IOController) : gmap Z (list Z) := _out_queues io.

End Io.

(** ** core/datapath.py

    The data stack is kept with its top first: the head of [stack] is the
    Python [stack[-1]], so [append] is a cons and [pop] takes the head.

    [DataPath.io] and [CPU.io] are one and the same controller object; the
    embedding keeps the single copy in the CPU state and hands it to the
    two datapath operations that use it. *)

Module Datapath.
Import Isa.

Definition MASK32 : Z := 0xFFFFFFFF.

Inductive MemAccess : Type := acc_r | acc_w.

Record DataPath : Type := mkDataPath {
  mem : list Z;
  stack : list Z;
  t : Z;
  s : Z;
  ar : Z;
  io_reg : Z;
  zero : bool;
  sign : bool;
  _last_mem_read : Z;
  _last_mem_write : Z;
  _last_alu : Z;
  _mem_access : option MemAccess
}.

(** [DataPath(data_words, io)] *)
Definition init (data_words : Z) : DataPath :=
  mkDataPath (replicate (Z.to_nat (Z.max 1 data_words)) 0) [] 0 0 0 0
             true false 0 0 0 None.

Definition tick_begin (d : DataPath) : DataPath :=
  mkDataPath (mem d) (stack d) (t d) (s d) (ar d) (io_reg d) (zero d) (sign d)
             (_last_mem_read d) (_last_mem_write d) (_last_alu d) None.

Definition with_stack (d : DataPath) (st : list Z) : DataPath :=
  mkDataPath (mem d) st (t d) (s d) (ar d) (io_reg d) (zero d) (sign d)
             (_last_mem_read d) (_last_mem_write d) (_last_alu d) (_mem_access d).

Definition _refresh_tz (d : DataPath) : DataPath :=
  let t' := match stack d with
            | x :: _ => Z.land x MASK32
            | [] => 0
            end in
  let s' := match stack d with
            | _ :: y :: _ => Z.land y MASK32
            | _ => 0
            end in
  mkDataPath (mem d) (stack d) t' s' (ar d) (io_reg d)
             (Z.land t' MASK32 =? 0)
             (negb (Z.land t' 0x80000000 =? 0))
             (_last_mem_read d) (_last_mem_write d) (_last_alu d) (_mem_access d).

Definition data_push (d : DataPath) (value : Z) : DataPath :=
  _refresh_tz (with_stack d (Z.land value MASK32 :: stack d)).

Definition data_pop (d : DataPath) : Z * DataPath :=
  match stack d with
  | v :: rest => (v, _refresh_tz (with_stack d rest))
  | [] => (0, _refresh_tz d)
  end.

Definition latch_t_push (d : DataPath) (source : string) (value : option Z)
  : result DataPath :=
  if String.eqb source "lit" then
    match value with
    | Some v => Ok (data_push d v)
    | None => Raise (AssertionError "")
    end
  else if String.eqb source "mem" then Ok (data_push d (_last_mem_read d))
  else if String.eqb source "alu" then Ok (data_push d (_last_alu d))
  else if String.eqb source "io" then Ok (data_push d (io_reg d))
  else Raise (AssertionError "unknown latch_t_push source").

Definition latch_t_pop (d : DataPath) : DataPath := _refresh_tz d.

Definition with_ar (d : DataPath) (a : Z) : DataPath :=
  mkDataPath (mem d) (stack d) (t d) (s d) a (io_reg d) (zero d) (sign d)
             (_last_mem_read d) (_last_mem_write d) (_last_alu d) (_mem_access d).

Definition latch_ar_from_t (d : DataPath) : DataPath :=
  with_ar d (Z.land (t d) MASK32).

Definition latch_ar_from_lit (d : DataPath) (addr : Z) : DataPath :=
  with_ar d (Z.land addr MASK32).

(** [if idx >= len(mem): mem.extend([0] * (idx - len(mem) + 1))] *)
Definition extend_mem (m : list Z) (idx : Z) : list Z :=
  if Z.of_nat (length m) <=? idx
  then m ++ replicate (Z.to_nat (idx - Z.of_nat (length m) + 1)) 0
  else m.

Definition dm_read (d : DataPath) : result DataPath :=
  match _mem_access d with
  | Some _ => Raise (AssertionError "dm conflict")
  | None =>
      let idx := ar d in
      let m := extend_mem (mem d) idx in
      let* v := py_index m idx in
      Ok (mkDataPath m (stack d) (t d) (s d) (ar d) (io_reg d) (zero d) (sign d)
                     (Z.land v MASK32) (_last_mem_write d) (_last_alu d)
                     (Some acc_r))
  end.

Definition dm_write (d : DataPath) (value : Z) : result DataPath :=
  match _mem_access d with
  | Some _ => Raise (AssertionError "dm conflict")
  | None =>
      let idx := ar d in
      let m := extend_mem (mem d) idx in
      let w := Z.land value MASK32 in
      let* m' := py_setitem m idx w in
      Ok (mkDataPath m' (stack d) (t d) (s d) (ar d) (io_reg d) (zero d) (sign d)
                     (_last_mem_read d) w (_last_alu d) (Some acc_w))
  end.

Definition with_io_reg (d : DataPath) (v : Z) : DataPath :=
  mkDataPath (mem d) (stack d) (t d) (s d) (ar d) v (zero d) (sign d)
             (_last_mem_read d) (_last_mem_write d) (_last_alu d) (_mem_access d).

Definition latch_io_read (d : DataPath) (io : Io.IOController) (port : Z)
  : DataPath * Io.IOController :=
  let '(v, io') := Io.read_port io port in
  (with_io_reg d (Z.land v MASK32), io').

Definition latch_io_write_prepare (d : DataPath) (value : Z) : DataPath :=
  with_io_reg d (Z.land value MASK32).

Definition io_write_commit (d : DataPath) (io : Io.IOController) (port : Z)
  : Io.IOController :=
  Io.write_port io port (io_reg d).

Definition alu_result (op : Opcode) (a b : Z) : result Z :=
  match op with
  | ADD => Ok (Z.land (a + b) MASK32)
  | SUB => Ok (Z.land (a - b) MASK32)
  | MUL => Ok (Z.land (a * b) MASK32)
  | DIV => Ok (if b =? 0 then 0 else Z.land (a / b) MASK32)
  | LE => Ok (if a <=? b then 1 else 0)
  | _ => Raise (AssertionError "unsupported alu op")
  end.

Definition alu_compute (d : DataPath) (op : Opcode) : result DataPath :=
  let a := Z.land (s d) MASK32 in
  let b := Z.land (t d) MASK32 in
  let* r := alu_result op a b in
  Ok (mkDataPath (mem d) (stack d) (t d) (s d) (ar d) (io_reg d)
                 (Z.land r MASK32 =? 0)
                 (negb (Z.land r 0x80000000 =? 0))
                 (_last_mem_read d) (_last_mem_write d) r (_mem_access d)).

End Datapath.

(** ** core/cpu.py

    The return stack [rs] is kept with its top first, like the data stack. *)

Module Cpu.
Import Isa.

Inductive Phase : Type := FETCH_IR | LATCH_PC | EXEC.

Record CPU : Type := mkCPU {
  imem : list Instr;
  dp : Datapath.DataPath;
  rs : list Z;
  pc : Z;
  ir : option Instr;
  tick : Z;
  tick_limit : Z;
  num_vectors : Z;
  io : Io.IOController;
  int_enabled : bool;
  in_isr : bool;
  _phase : Phase;
  _step : Z;
  _halted : bool;
  last_pc : Z;
  last_ir : option Instr;
  _tmp_addr : Z;
  _tmp_val : Z;
  _tmp_alu : Z
}.

(** [CPU(instr_mem, data_words, io, tick_limit=...)] *)
Definition init (instr_mem : list Instr) (data_words : Z)
           (io : Io.IOController) (tick_limit : Z) : CPU :=
  mkCPU instr_mem (Datapath.init data_words) [] 0 None 0 tick_limit
        DEFAULT_NUM_VECTORS io true false FETCH_IR 0 false 0 None 0 0 0.

Definition set_dp (c : CPU) (v : Datapath.DataPath) : CPU :=
  mkCPU (imem c) v (rs c) (pc c) (ir c) (tick c) (tick_limit c) (num_vectors c)
        (io c) (int_enabled c) (in_isr c) (_phase c) (_step c) (_halted c)
        (last_pc c) (last_ir c) (_tmp_addr c) (_tmp_val c) (_tmp_alu c).

Definition set_rs (c : CPU) (v : list Z) : CPU :=
  mkCPU (imem c) (dp c) v (pc c) (ir c) (tick c) (tick_limit c) (num_vectors c)
        (io c) (int_enabled c) (in_isr c) (_phase c) (_step c) (_halted c)
        (last_pc c) (last_ir c) (_tmp_addr c) (_tmp_val c) (_tmp_alu c).

Definition set_pc (c : CPU) (v : Z) : CPU :=
  mkCPU (imem c) (dp c) (rs c) v (ir c) (tick c) (tick_limit c) (num_vectors c)
        (io c) (int_enabled c) (in_isr c) (_phase c) (_step c) (_halted c)
        (last_pc c) (last_ir c) (_tmp_addr c) (_tmp_val c) (_tmp_alu c).

Definition set_tick (c : CPU) (v : Z) : CPU :=
  mkCPU (imem c) (dp c) (rs c) (pc c) (ir c) v (tick_limit c) (num_vectors c)
        (io c) (int_enabled c) (in_isr c) (_phase c) (_step c) (_halted c)
        (last_pc c) (last_ir c) (_tmp_addr c) (_tmp_val c) (_tmp_alu c).

Definition set_io (c : CPU) (v : Io.IOController) : CPU :=
  mkCPU (imem c) (dp c) (rs c) (pc c) (ir c) (tick c) (tick_limit c) (num_vectors c)
        v (int_enabled c) (in_isr c) (_phase c) (_step c) (_halted c)
        (last_pc c) (last_ir c) (_tmp_addr c) (_tmp_val c) (_tmp_alu c).

Definition set_int_enabled (c : CPU) (v : bool) : CPU :=
  mkCPU (imem c) (dp c) (rs c) (pc c) (ir c) (tick c) (tick_limit c) (num_vectors c)
        (io c) v (in_isr c) (_phase c) (_step c) (_halted c)
        (last_pc c) (last_ir c) (_tmp_addr c) (_tmp_val c) (_tmp_alu c).

Definition set_in_isr (c : CPU) (v : bool) : CPU :=
  mkCPU (imem c) (dp c) (rs c) (pc c) (ir c) (tick c) (tick_limit c) (num_vectors c)
        (io c) (int_enabled c) v (_phase c) (_step c) (_halted c)
        (last_pc c) (last_ir c) (_tmp_addr c) (_tmp_val c) (_tmp_alu c).

Definition set_phase (c : CPU) (v : Phase) : CPU :=
  mkCPU (imem c) (dp c) (rs c) (pc c) (ir c) (tick c) (tick_limit c) (num_vectors c)
        (io c) (int_enabled c) (in_isr c) v (_step c) (_halted c)
        (last_pc c) (last_ir c) (_tmp_addr c) (_tmp_val c) (_tmp_alu c).

Definition set_step (c : CPU) (v : Z) : CPU :=
  mkCPU (imem c) (dp c) (rs c) (pc c) (ir c) (tick c) (tick_limit c) (num_vectors c)
        (io c) (int_enabled c) (in_isr c) (_phase c) v (_halted c)
        (last_pc c) (last_ir c) (_tmp_addr c) (_tmp_val c) (_tmp_alu c).

Definition set_halted (c : CPU) (v : bool) : CPU :=
  mkCPU (imem c) (dp c) (rs c) (pc c) (ir c) (tick c) (tick_limit c) (num_vectors c)
        (io c) (int_enabled c) (in_isr c) (_phase c) (_step c) v
        (last_pc c) (last_ir c) (_tmp_addr c) (_tmp_val c) (_tmp_alu c).

(** [self.last_pc = self.pc; self.ir = i; self.last_ir = self.ir] *)
Definition latch_ir (c : CPU) (i : Instr) : CPU :=
  mkCPU (imem c) (dp c) (rs c) (pc c) (Some i) (tick c) (tick_limit c)
        (num_vectors c) (io c) (int_enabled c) (in_isr c) (_phase c) (_step c)
        (_halted c) (pc c) (Some i) (_tmp_addr c) (_tmp_val c) (_tmp_alu c).

Definition set_tmp_addr (c : CPU) (v : Z) : CPU :=
  mkCPU (imem c) (dp c) (rs c) (pc c) (ir c) (tick c) (tick_limit c) (num_vectors c)
        (io c) (int_enabled c) (in_isr c) (_phase c) (_step c) (_halted c)
        (last_pc c) (last_ir c) v (_tmp_val c) (_tmp_alu c).

Definition set_tmp_val (c : CPU) (v : Z) : CPU :=
  mkCPU (imem c) (dp c) (rs c) (pc c) (ir c) (tick c) (tick_limit c) (num_vectors c)
        (io c) (int_enabled c) (in_isr c) (_phase c) (_step c) (_halted c)
        (last_pc c) (last_ir c) (_tmp_addr c) v (_tmp_alu c).

Definition set_tmp_alu (c : CPU) (v : Z) : CPU :=
  mkCPU (imem c) (dp c) (rs c) (pc c) (ir c) (tick c) (tick_limit c) (num_vectors c)
        (io c) (int_enabled c) (in_isr c) (_phase c) (_step c) (_halted c)
        (last_pc c) (last_ir c) (_tmp_addr c) (_tmp_val c) v.

Definition tick_inc (c : CPU) : CPU := set_tick c (tick c + 1).

Definition maybe_raise_irq (c : CPU) : bool * CPU :=
  if negb (int_enabled c) || in_isr c then (false, c)
  else match Io.irq_pending (io c) with
       | None => (false, c)
       | Some irq =>
           let c := set_rs c (pc c :: rs c) in
           let c := set_pc c irq in
           let c := set_in_isr c true in
           let c := set_io c (Io.ack_irq (io c)) in
           (true, c)
       end.

Definition _finish_instruction (c : CPU) : CPU :=
  tick_inc (set_step (set_phase c FETCH_IR) 0).

(** [self._step = n; self.tick_inc()] *)
Definition next_step (c : CPU) (n : Z) : CPU := tick_inc (set_step c n).

Definition unhandled : result CPU :=
  Raise (AssertionError "unknown or unhandled opcode").

Definition is_alu (op : Opcode) : bool :=
  match op with
  | ADD | SUB | MUL | DIV | LE => true
  | _ => false
  end.

(** [pc <- rs.pop() if rs else pc] *)
Definition pop_return (c : CPU) : CPU :=
  match rs c with
  | ra :: rest => set_pc (set_rs c rest) ra
  | [] => set_pc c (pc c)
  end.

(** The EXEC branch of [step_tick]: the chain of [if op == ... and
    self._step == ...] tests, by opcode; a step that no test accepts
    falls through to the final [raise]. *)
Definition exec (c : CPU) : result CPU :=
  match ir c with
  | None => Raise AttributeError
  | Some i =>
      let op := opcode i in
      let arg := arg i in
      let step := _step c in
      match op with
      | NOP =>
          if step =? 0 then Ok (_finish_instruction c) else unhandled
      | PUSHI =>
          if step =? 0 then
            let* d := Datapath.latch_t_push (dp c) "lit" (Some arg) in
            Ok (_finish_instruction (set_dp c d))
          else unhandled
      | DUP =>
          if step =? 0 then
            Ok (_finish_instruction
                  (set_dp c (Datapath.data_push (dp c) (Datapath.t (dp c)))))
          else unhandled
      | DROP =>
          if step =? 0 then
            Ok (_finish_instruction (set_dp c (snd (Datapath.data_pop (dp c)))))
          else unhandled
      | SWAP =>
          if step =? 0 then
            let '(a, d) := Datapath.data_pop (dp c) in
            let '(b, d) := Datapath.data_pop d in
            let d := Datapath.data_push d a in
            let d := Datapath.data_push d b in
            Ok (_finish_instruction (set_dp c d))
          else unhandled
      | ADD | SUB | MUL | DIV | LE =>
          if step =? 0 then
            let* d := Datapath.alu_compute (dp c) op in
            let c := set_dp c d in
            let c := set_tmp_alu c (Datapath._last_alu d) in
            Ok (next_step c 1)
          else if step =? 1 then
            Ok (next_step (set_dp c (snd (Datapath.data_pop (dp c)))) 2)
          else if step =? 2 then
            let d := snd (Datapath.data_pop (dp c)) in
            let* d := Datapath.latch_t_push d "alu" (Some (_tmp_alu c)) in
            Ok (_finish_instruction (set_dp c d))
          else unhandled
      | LOAD =>
          if step =? 0 then
            Ok (next_step (set_dp c (Datapath.latch_ar_from_t (dp c))) 1)
          else if step =? 1 then
            let* d := Datapath.dm_read (dp c) in
            Ok (next_step (set_dp c d) 2)
          else if step =? 2 then
            let d := snd (Datapath.data_pop (dp c)) in
            let* d := Datapath.latch_t_push d "mem" None in
            Ok (_finish_instruction (set_dp c d))
          else unhandled
      | STORE =>
          if step =? 0 then
            let '(a, d) := Datapath.data_pop (dp c) in
            let c := set_tmp_addr (set_dp c d) a in
            let c := set_dp c (Datapath.latch_ar_from_lit (dp c) (_tmp_addr c)) in
            Ok (next_step c 1)
          else if step =? 1 then
            let '(v, d) := Datapath.data_pop (dp c) in
            Ok (next_step (set_tmp_val (set_dp c d) v) 2)
          else if step =? 2 then
            let* d := Datapath.dm_write (dp c) (_tmp_val c) in
            Ok (_finish_instruction (set_dp c d))
          else unhandled
      | JMP =>
          if step =? 0 then Ok (_finish_instruction (set_pc c arg))
          else unhandled
      | JZ =>
          if step =? 0 then
            let c := if Datapath.zero (dp c) then set_pc c arg else c in
            let c := set_dp c (snd (Datapath.data_pop (dp c))) in
            Ok (_finish_instruction c)
          else unhandled
      | CALL =>
          if step =? 0 then
            let c := set_rs c (pc c :: rs c) in
            Ok (_finish_instruction (set_pc c arg))
          else unhandled
      | RET =>
          if step =? 0 then Ok (_finish_instruction (pop_return c))
          else unhandled
      | IRET =>
          if step =? 0 then
            Ok (_finish_instruction (set_in_isr (pop_return c) false))
          else unhandled
      | EI =>
          if step =? 0 then Ok (_finish_instruction (set_int_enabled c true))
          else unhandled
      | DI =>
          if step =? 0 then Ok (_finish_instruction (set_int_enabled c false))
          else unhandled
      | IN =>
          if step =? 0 then
            let '(d, io') := Datapath.latch_io_read (dp c) (io c) arg in
            Ok (next_step (set_io (set_dp c d) io') 1)
          else if step =? 1 then
            let* d := Datapath.latch_t_push (dp c) "io" None in
            Ok (_finish_instruction (set_dp c d))
          else unhandled
      | OUT =>
          if step =? 0 then
            let '(v, d) := Datapath.data_pop (dp c) in
            let d := Datapath.latch_io_write_prepare d v in
            Ok (next_step (set_dp c d) 1)
          else if step =? 1 then
            let io' := Datapath.io_write_commit (dp c) (io c) arg in
            Ok (_finish_instruction (set_io c io'))
          else unhandled
      | HALT =>
          if step =? 0 then Ok (tick_inc (set_halted c true))
          else unhandled
      end
  end.

(** The FETCH_IR branch when no interrupt was taken. *)
Definition fetch (c : CPU) : result CPU :=
  let* i := py_index (imem c) (pc c) in
  Ok (tick_inc (set_phase (latch_ir c i) LATCH_PC)).

Definition latch_pc (c : CPU) : CPU :=
  tick_inc (set_step (set_phase (set_pc c (pc c + 1)) EXEC) 0).

(** [tick_begin] and [on_tick], the first two calls of a tick. *)
Definition begin_tick (c : CPU) : CPU :=
  let c := set_dp c (Datapath.tick_begin (dp c)) in
  set_io c (Io.on_tick (io c) (tick c)).

Definition step_tick (c : CPU) : result CPU :=
  if _halted c then Ok c
  else
    let c := begin_tick c in
    match _phase c with
    | FETCH_IR =>
        let '(raised, c') := maybe_raise_irq c in
        if raised then Ok (tick_inc c') else fetch c'
    | LATCH_PC => Ok (latch_pc c)
    | EXEC => exec c
    end.

End Cpu.

(** ** core/runner.py *)

Module Runner.
Import Isa.

Definition phase_name (p : Cpu.Phase) : string :=
  match p with
  | Cpu.FETCH_IR => "FETCH_IR"
  | Cpu.LATCH_PC => "LATCH_PC"
  | Cpu.EXEC => "EXEC"
  end.

Definition newline : string := String (Ascii.ascii_of_nat 10) EmptyString.

(** Modelled from the spec: the class [ControlUnit] of the missing module
    [core/control_unit.py], which [run_machine] instantiates.  The spec
    names one control unit, the CPU, built on the datapath of
    [core/datapath.py]; it is taken to be the class [CPU] of
    [core/cpu.py]. *)
Definition ControlUnit (code : list Instr) (data_words : Z)
           (io : Io.IOController) (tick_limit : Z) : Cpu.CPU :=
  Cpu.init code data_words io tick_limit.

(** Modelled from the spec: the attribute [z] of the control unit's
    datapath, which the trace line reads as [cpu.dp.z].  The module of
    [ControlUnit] is missing and the datapath of [core/datapath.py] has no
    attribute of that name; the spec says that the [S] field of a trace
    line shows it and does not say what it holds.  [dp_z cpu] stands for
    the text that [{cpu.dp.z}] renders in the machine state [cpu], and
    every definition that can emit a trace line takes it as an argument.
    The other fields of the f-string are read off the CPU and its
    datapath. *)
Definition trace_line (dp_z : Cpu.CPU -> string) (cpu : Cpu.CPU) : string :=
  let d := Cpu.dp cpu in
  "t=" +:+ pretty (Cpu.tick cpu)
  +:+ " pc=" +:+ pretty (Cpu.pc cpu)
  +:+ " phase=" +:+ phase_name (Cpu._phase cpu)
  +:+ " T=" +:+ pretty (Datapath.t d)
  +:+ " S=" +:+ dp_z cpu
  +:+ " AR=" +:+ pretty (Datapath.ar d)
  +:+ " zero=" +:+ pretty (if Datapath.zero d then 1 else 0)
  +:+ " sign=" +:+ pretty (if Datapath.sign d then 1 else 0)
  +:+ " in_isr=" +:+ pretty (if Cpu.in_isr cpu then 1 else 0)
  +:+ newline.

(** The [while cpu.tick < cpu.tick_limit and not cpu._halted] loop; [out]
    collects the trace lines written so far.  Every iteration advances
    [tick] by one, so [fuel] iterations are enough when
    [tick_limit - tick <= fuel]. *)
Fixpoint run_loop (dp_z : Cpu.CPU -> string) (fuel : nat) (trace : bool)
         (cpu : Cpu.CPU) (out : list string)
  : result (Cpu.CPU * list string) :=
  match fuel with
  | O => Ok (cpu, out)
  | S fuel' =>
      if (Cpu.tick cpu <? Cpu.tick_limit cpu) && negb (Cpu._halted cpu) then
        let out := if trace then out ++ [trace_line dp_z cpu] else out in
        let* cpu := Cpu.step_tick cpu in
        run_loop dp_z fuel' trace cpu out
      else Ok (cpu, out)
  end.

(** [run_machine], given the bytes of the binary file; returns the output
    queues, the trace lines and the final machine. *)
Definition run_machine (dp_z : Cpu.CPU -> string)
           (blob : list byte) (input_schedule : list Io.IOEvent)
           (data_words tick_limit : Z) (trace : bool)
  : result (gmap Z (list Z) * list string * Cpu.CPU) :=
  let* code := decode blob in
  let io := Io.init input_schedule in
  let cpu := ControlUnit code data_words io tick_limit in
  let* r := run_loop dp_z (Z.to_nat tick_limit) trace cpu [] in
  Ok (Io.out_dump (Cpu.io (fst r)), snd r, fst r).

(** What an untraced run is given for [dp_z]: it is never read. *)
Definition no_trace : Cpu.CPU -> string := fun _ => EmptyString.

End Runner.

(** ** translator/parser.py: the AST consumed by the code generator

    [Call] is one Python class used both as an expression and as a
    statement; as a statement it is [CallStmt] here.  Text is a Rocq
    [string], so a character is one byte and [ord] is its code. *)

Module Ast.

Inductive Expr : Type :=
| IntLit (value : Z)
| Var (name : string)
| BinOp (op : string) (a b : Expr)
| Call (name : string) (args : list Expr).

Inductive Stmt : Type :=
| VarDecl (vtype name : string)
| Assign (name : string) (expr : Expr)
| While (cond : Expr) (body : list Stmt)
| PrintInt (expr : Expr)
| PrintStr (text : string)
| PrintChar (expr : Expr)
| Break
| If (cond : Expr) (then_body : list Stmt) (else_body : option (list Stmt))
| CallStmt (name : string) (args : list Expr).

Record Func : Type := mkFunc { fname : string; fbody : list Stmt }.

Record Program : Type := mkProgram { functions : list Func }.

End Ast.

(** ** translator/codegen.py

    [code] is in Python order (index = instruction offset).  [break_stack]
    has the innermost loop first: its head is the Python [break_stack[-1]]. *)

Module Codegen.
Import Isa Ast.

Record Codegen : Type := mkCodegen {
  code : list Instr;
  labels : gmap string Z;
  vars : gmap string Z;
  data_next : Z;
  break_stack : list (list Z);
  var_types : gmap string string;
  array_bases : gmap string Z;
  string_bases : gmap string Z
}.

(** [Codegen()] *)
Definition init : Codegen := mkCodegen [] ∅ ∅ 0 [] ∅ ∅ ∅.

Definition set_code (cg : Codegen) (v : list Instr) : Codegen :=
  mkCodegen v (labels cg) (vars cg) (data_next cg) (break_stack cg)
            (var_types cg) (array_bases cg) (string_bases cg).

Definition set_labels (cg : Codegen) (v : gmap string Z) : Codegen :=
  mkCodegen (code cg) v (vars cg) (data_next cg) (break_stack cg)
            (var_types cg) (array_bases cg) (string_bases cg).

Definition set_vars (cg : Codegen) (v : gmap string Z) : Codegen :=
  mkCodegen (code cg) (labels cg) v (data_next cg) (break_stack cg)
            (var_types cg) (array_bases cg) (string_bases cg).

Definition set_data_next (cg : Codegen) (v : Z) : Codegen :=
  mkCodegen (code cg) (labels cg) (vars cg) v (break_stack cg)
            (var_types cg) (array_bases cg) (string_bases cg).

Definition set_break_stack (cg : Codegen) (v : list (list Z)) : Codegen :=
  mkCodegen (code cg) (labels cg) (vars cg) (data_next cg) v
            (var_types cg) (array_bases cg) (string_bases cg).

Definition set_var_types (cg : Codegen) (v : gmap string string) : Codegen :=
  mkCodegen (code cg) (labels cg) (vars cg) (data_next cg) (break_stack cg)
            v (array_bases cg) (string_bases cg).

Definition set_array_bases (cg : Codegen) (v : gmap string Z) : Codegen :=
  mkCodegen (code cg) (labels cg) (vars cg) (data_next cg) (break_stack cg)
            (var_types cg) v (string_bases cg).

Definition set_string_bases (cg : Codegen) (v : gmap string Z) : Codegen :=
  mkCodegen (code cg) (labels cg) (vars cg) (data_next cg) (break_stack cg)
            (var_types cg) (array_bases cg) v.

(** [len(self.code)] *)
Definition here (cg : Codegen) : Z := Z.of_nat (length (code cg)).

Definition emit (cg : Codegen) (opcode : Opcode) (arg : Z) : Codegen :=
  set_code cg (code cg ++ [mkInstr opcode arg]).

(** A run of consecutive [emit] calls. *)
Definition emits (cg : Codegen) (l : list Instr) : Codegen :=
  fold_left (fun cg i => emit cg (opcode i) (arg i)) l cg.

(** [self.code[pos].arg = v] *)
Definition patch (cg : Codegen) (pos v : Z) : result Codegen :=
  let* i := py_index (code cg) pos in
  let* c := py_setitem (code cg) pos (mkInstr (opcode i) v) in
  Ok (set_code cg c).

Definition alloc_var (cg : Codegen) (name : string) : Z * Codegen :=
  match vars cg !! name with
  | Some a => (a, cg)
  | None =>
      let addr := data_next cg in
      let cg := set_vars cg (<[name := addr]> (vars cg)) in
      let vtype := var_types cg !! name in
      let cg :=
        match vtype with
        | Some ty => if String.eqb ty "long"
                     then set_data_next cg (data_next cg + 2)
                     else set_data_next cg (data_next cg + 1)
        | None => set_data_next cg (data_next cg + 1)
        end in
      (addr, cg)
  end.

Definition alloc_buffer (cg : Codegen) (words : Z) : Z * Codegen :=
  (data_next cg, set_data_next cg (data_next cg + words)).

Definition ord (ch : Ascii.ascii) : Z := Z.of_N (Ascii.N_of_ascii ch).

(** The [for i, ch in enumerate(text)] loop of [_ensure_cstr_literal]. *)
Fixpoint emit_chars (cg : Codegen) (base i : Z) (text : list Ascii.ascii) : Codegen :=
  match text with
  | [] => cg
  | ch :: rest =>
      let cg := emits cg [mkInstr PUSHI (ord ch); mkInstr PUSHI (base + i);
                          mkInstr STORE 0] in
      emit_chars cg base (i + 1) rest
  end.

Definition _ensure_cstr_literal (cg : Codegen) (text : string) : Z * Codegen :=
  match string_bases cg !! text with
  | Some a => (a, cg)
  | None =>
      let len := Z.of_nat (String.length text) in
      let '(base, cg) := alloc_buffer cg (len + 1) in
      let cg := emit_chars cg base 0 (String.list_ascii_of_string text) in
      let cg := emits cg [mkInstr PUSHI 0; mkInstr PUSHI (base + len);
                          mkInstr STORE 0] in
      let var_name := "__strlit_" +:+ pretty (size (string_bases cg)) in
      let '(var_addr, cg) := alloc_var cg var_name in
      let cg := emits cg [mkInstr PUSHI base; mkInstr PUSHI var_addr;
                          mkInstr STORE 0] in
      let cg := set_string_bases cg (<[text := var_addr]> (string_bases cg)) in
      (var_addr, cg)
  end.

Definition ensure_array_initialized (cg : Codegen) (name : string) : Codegen :=
  match array_bases cg !! name with
  | Some _ => cg
  | None =>
      let '(base, cg) := alloc_buffer cg 128 in
      let cg := set_array_bases cg (<[name := base]> (array_bases cg)) in
      let '(var_addr, cg) := alloc_var cg name in
      emits cg [mkInstr PUSHI base; mkInstr PUSHI var_addr; mkInstr STORE 0]
  end.

Definition _emit_print_cstr (cg : Codegen) (addr : Z) : result Codegen :=
  let '(ptr, cg) := alloc_var cg "__ptr__" in
  let cg := emits cg [mkInstr PUSHI addr; mkInstr LOAD 0;
                      mkInstr PUSHI ptr; mkInstr STORE 0] in
  let start := here cg in
  let cg := emits cg [mkInstr PUSHI ptr; mkInstr LOAD 0; mkInstr LOAD 0;
                      mkInstr DUP 0] in
  let jz := here cg in
  let cg := emits cg [mkInstr JZ 0;
                      mkInstr OUT 1;
                      mkInstr PUSHI ptr; mkInstr LOAD 0; mkInstr PUSHI 1;
                      mkInstr ADD 0; mkInstr PUSHI ptr; mkInstr STORE 0;
                      mkInstr JMP start] in
  let end_ := here cg in
  patch cg jz end_.

(** The [readInt] runtime of [gen_expr]. *)
Definition gen_readInt (cg : Codegen) : result Codegen :=
  let '(tmp, cg) := alloc_var cg "__tmp__" in
  let '(ch, cg) := alloc_var cg "__ch__" in
  let cg := emits cg [mkInstr PUSHI 0; mkInstr PUSHI tmp; mkInstr STORE 0] in
  let loop := here cg in
  let cg := emits cg [mkInstr IN 1; mkInstr PUSHI ch; mkInstr STORE 0;
                      mkInstr PUSHI ch; mkInstr LOAD 0; mkInstr PUSHI 10;
                      mkInstr SUB 0] in
  let jz := here cg in
  let cg := emits cg [mkInstr JZ 0;
                      mkInstr PUSHI tmp; mkInstr LOAD 0; mkInstr PUSHI 10;
                      mkInstr MUL 0;
                      mkInstr PUSHI ch; mkInstr LOAD 0; mkInstr PUSHI 48;
                      mkInstr SUB 0;
                      mkInstr ADD 0;
                      mkInstr PUSHI tmp; mkInstr STORE 0;
                      mkInstr JMP loop] in
  let end_ := here cg in
  let* cg := patch cg jz end_ in
  Ok (emits cg [mkInstr PUSHI tmp; mkInstr LOAD 0]).

Fixpoint gen_expr (e : Expr) (cg : Codegen) {struct e} : result Codegen :=
  match e with
  | IntLit value => Ok (emit cg PUSHI (Z.land value 0x00FFFFFF))
  | Var name =>
      let '(addr, cg) := alloc_var cg name in
      Ok (emits cg [mkInstr PUSHI addr; mkInstr LOAD 0])
  | Call name args =>
      if String.eqb name "readInt" then gen_readInt cg
      else if String.eqb name "readChar" then Ok (emit cg IN 1)
      else if String.eqb name "get" then
        match args with
        | [Var arr; idx] =>
            let cg := ensure_array_initialized cg arr in
            let '(base_addr, cg) := alloc_var cg arr in
            let cg := emits cg [mkInstr PUSHI base_addr; mkInstr LOAD 0] in
            let* cg := gen_expr idx cg in
            Ok (emits cg [mkInstr ADD 0; mkInstr LOAD 0])
        | _ => Raise NotImplementedError
        end
      else Raise NotImplementedError
  | BinOp op a b =>
      if String.eqb op "*" then
        let* cg := gen_expr a cg in
        let* cg := gen_expr b cg in
        Ok (emit cg MUL 0)
      else if String.eqb op "+" then
        let* cg := gen_expr a cg in
        let* cg := gen_expr b cg in
        Ok (emit cg ADD 0)
      else if String.eqb op "-" then
        let* cg := gen_expr a cg in
        let* cg := gen_expr b cg in
        Ok (emit cg SUB 0)
      else if String.eqb op "<=" then
        let* cg := gen_expr a cg in
        let* cg := gen_expr b cg in
        Ok (emit cg LE 0)
      else if String.eqb op "==" then
        let* cg := gen_expr a cg in
        let* cg := gen_expr b cg in
        let cg := emit cg SUB 0 in
        let l_true := here cg in
        let cg := emits cg [mkInstr JZ 0; mkInstr PUSHI 0] in
        let l_end := here cg in
        let cg := emit cg JMP 0 in
        let* cg := patch cg l_true (here cg) in
        let cg := emit cg PUSHI 1 in
        patch cg l_end (here cg)
      else Raise NotImplementedError
  end.

(** [self.break_stack[-1].append(pos)] *)
Definition register_break (cg : Codegen) (pos : Z) : result Codegen :=
  match break_stack cg with
  | top :: rest => Ok (set_break_stack cg ((top ++ [pos]) :: rest))
  | [] => Raise IndexError
  end.

(** [for pos in l: self.code[pos].arg = end] *)
Fixpoint patch_all (cg : Codegen) (l : list Z) (end_ : Z) : result Codegen :=
  match l with
  | [] => Ok cg
  | pos :: rest =>
      let* cg := patch cg pos end_ in
      patch_all cg rest end_
  end.

(** The [readString] special case of an assignment. *)
Definition gen_readString (cg : Codegen) (name : string) : result Codegen :=
  let '(base, cg) := alloc_var cg name in
  let '(ptr, cg) := alloc_var cg "__ptr__" in
  let cg := emits cg [mkInstr PUSHI base; mkInstr LOAD 0;
                      mkInstr PUSHI ptr; mkInstr STORE 0] in
  let rs := here cg in
  let cg := emits cg [mkInstr IN 1; mkInstr DUP 0; mkInstr PUSHI 10;
                      mkInstr SUB 0] in
  let jz_end := here cg in
  let cg := emits cg [mkInstr JZ 0;
                      mkInstr PUSHI ptr; mkInstr LOAD 0; mkInstr STORE 0;
                      mkInstr PUSHI ptr; mkInstr LOAD 0; mkInstr PUSHI 1;
                      mkInstr ADD 0; mkInstr PUSHI ptr; mkInstr STORE 0;
                      mkInstr JMP rs] in
  let end_ := here cg in
  let* cg := patch cg jz_end end_ in
  Ok (emits cg [mkInstr PUSHI 0; mkInstr PUSHI ptr; mkInstr LOAD 0;
                mkInstr STORE 0]).

(** The local function [gen_load_long] of the long addition. *)
Definition gen_load_long (cg : Codegen) (var : string) : Codegen :=
  let '(addr, cg) := alloc_var cg var in
  emits cg [mkInstr PUSHI addr; mkInstr LOAD 0;
            mkInstr PUSHI (addr + 1); mkInstr LOAD 0].

(** [a = b + c] for a [long] left-hand side; [base] is the address of the
    left-hand side, [va] and [vb] the names of the two operands. *)
Definition gen_long_add (cg : Codegen) (base : Z) (va vb : string)
  : result Codegen :=
  let base_hi := base + 1 in
  let cg := gen_load_long cg va in
  let cg := gen_load_long cg vb in
  let '(tmp_lo, cg) := alloc_var cg "__tmp_lo__" in
  let '(tmp_hi, cg) := alloc_var cg "__tmp_hi__" in
  let cg := emits cg [mkInstr PUSHI tmp_hi; mkInstr SWAP 0] in
  let '(a1, cg) := alloc_var cg va in
  let cg := emits cg [mkInstr PUSHI a1; mkInstr LOAD 0] in
  let '(b1, cg) := alloc_var cg vb in
  let cg := emits cg [mkInstr PUSHI b1; mkInstr LOAD 0; mkInstr ADD 0;
                      mkInstr PUSHI tmp_lo; mkInstr STORE 0] in
  let '(a2, cg) := alloc_var cg va in
  let cg := emits cg [mkInstr PUSHI a2; mkInstr LOAD 0; mkInstr PUSHI 1;
                      mkInstr SUB 0;
                      mkInstr PUSHI tmp_lo; mkInstr LOAD 0;
                      mkInstr LE 0] in
  let '(a3, cg) := alloc_var cg va in
  let cg := emits cg [mkInstr PUSHI (a3 + 1); mkInstr LOAD 0] in
  let '(b3, cg) := alloc_var cg vb in
  let cg := emits cg [mkInstr PUSHI (b3 + 1); mkInstr LOAD 0; mkInstr ADD 0;
                      mkInstr PUSHI tmp_hi; mkInstr STORE 0] in
  let jz := here cg in
  let cg := emits cg [mkInstr JZ 0;
                      mkInstr PUSHI tmp_hi; mkInstr LOAD 0; mkInstr PUSHI 1;
                      mkInstr ADD 0; mkInstr PUSHI tmp_hi; mkInstr STORE 0] in
  let endc := here cg in
  let cg := emit cg JMP 0 in
  let* cg := patch cg jz (here cg) in
  let* cg := patch cg endc (here cg) in
  Ok (emits cg [mkInstr PUSHI tmp_lo; mkInstr LOAD 0; mkInstr PUSHI base;
                mkInstr STORE 0;
                mkInstr PUSHI tmp_hi; mkInstr LOAD 0; mkInstr PUSHI base_hi;
                mkInstr STORE 0]).

(** The [Assign] case of [gen_stmt]. *)
Definition gen_assign (cg : Codegen) (name : string) (expr : Expr)
  : result Codegen :=
  let is_call (n : string) :=
    match expr with
    | Call f _ => String.eqb f n
    | _ => false
    end in
  if is_call "readString" then gen_readString cg name
  else if bool_decide (var_types cg !! name = Some "long") then
    let '(base, cg) := alloc_var cg name in
    let base_hi := base + 1 in
    if is_call "readLong" then
      Ok (emits cg [mkInstr IN 3; mkInstr PUSHI base; mkInstr STORE 0;
                    mkInstr IN 3; mkInstr PUSHI base_hi; mkInstr STORE 0])
    else
      match expr with
      | BinOp "+" a b =>
          match a, b with
          | Var va, Var vb => gen_long_add cg base va vb
          | _, _ => Raise (AssertionError "")
          end
      | _ =>
          let* cg := gen_expr expr cg in
          Ok (emits cg [mkInstr PUSHI base; mkInstr STORE 0;
                        mkInstr PUSHI 0; mkInstr PUSHI base_hi;
                        mkInstr STORE 0])
      end
  else
    let* cg := gen_expr expr cg in
    let '(addr, cg) := alloc_var cg name in
    Ok (emits cg [mkInstr PUSHI addr; mkInstr STORE 0]).

(** The [Call] statement case of [gen_stmt]. *)
Definition gen_call_stmt (cg : Codegen) (name : string) (args : list Expr)
  : result Codegen :=
  match args with
  | [] =>
      if String.eqb name "ei" then Ok (emit cg EI 0)
      else if String.eqb name "di" then Ok (emit cg DI 0)
      else if String.eqb name "readChar" then Ok (emit cg IN 1)
      else Raise NotImplementedError
  | [e] =>
      if String.eqb name "printChar" then
        let* cg := gen_expr e cg in
        Ok (emit cg OUT 1)
      else if String.eqb name "printLong" then
        match e with
        | Var v =>
            let '(base, cg) := alloc_var cg v in
            Ok (emits cg [mkInstr PUSHI base; mkInstr LOAD 0; mkInstr OUT 3;
                          mkInstr PUSHI (base + 1); mkInstr LOAD 0;
                          mkInstr OUT 3])
        | _ => Raise NotImplementedError
        end
      else Raise NotImplementedError
  | [Var arr; idx; value] =>
      if String.eqb name "set" then
        let cg := ensure_array_initialized cg arr in
        let '(base_addr, cg) := alloc_var cg arr in
        let* cg := gen_expr value cg in
        let cg := emits cg [mkInstr PUSHI base_addr; mkInstr LOAD 0] in
        let* cg := gen_expr idx cg in
        Ok (emits cg [mkInstr ADD 0; mkInstr STORE 0])
      else Raise NotImplementedError
  | _ => Raise NotImplementedError
  end.

Definition gen_var_decl (cg : Codegen) (vtype name : string) : Codegen :=
  let '(_, cg) := alloc_var cg name in
  let cg := set_var_types cg (<[name := vtype]> (var_types cg)) in
  if String.eqb vtype "string" then
    let '(base, cg) := alloc_buffer cg 64 in
    let '(var_addr, cg) := alloc_var cg name in
    emits cg [mkInstr PUSHI base; mkInstr PUSHI var_addr; mkInstr STORE 0]
  else cg.

(** The body loop of a [while]: a [break] that is a direct child of the
    loop is emitted in place, any other statement goes to [gen_stmt]. *)
Definition while_body (gen_stmt : Stmt -> Codegen -> result Codegen)
  : list Stmt -> Codegen -> result Codegen :=
  fix body_loop (l : list Stmt) (cg : Codegen) : result Codegen :=
    match l with
    | [] => Ok cg
    | st :: l' =>
        let* cg :=
          match st with
          | Break =>
              let br_pos := here cg in
              let cg := emit cg JMP 0 in
              register_break cg br_pos
          | _ => gen_stmt st cg
          end in
        body_loop l' cg
    end.

(** [for st in stmts: self.gen_stmt(st)] *)
Definition stmts_with (gen_stmt : Stmt -> Codegen -> result Codegen)
  : list Stmt -> Codegen -> result Codegen :=
  fix stmts (l : list Stmt) (cg : Codegen) : result Codegen :=
    match l with
    | [] => Ok cg
    | st :: l' =>
        let* cg := gen_stmt st cg in
        stmts l' cg
    end.

Fixpoint gen_stmt (s : Stmt) (cg : Codegen) {struct s} : result Codegen :=
  match s with
  | Break =>
      match break_stack cg with
      | [] => Raise NotImplementedError
      | _ =>
          let pos := here cg in
          let cg := emit cg JMP 0 in
          register_break cg pos
      end
  | VarDecl vtype name => Ok (gen_var_decl cg vtype name)
  | Assign name expr => gen_assign cg name expr
  | While cond body =>
      let start := here cg in
      let* cg := gen_expr cond cg in
      let jz_pos := here cg in
      let cg := emit cg JZ 0 in
      let cg := set_break_stack cg ([] :: break_stack cg) in
      let* cg := while_body gen_stmt body cg in
      let cg := emit cg JMP start in
      let end_ := here cg in
      let* cg := patch cg jz_pos end_ in
      match break_stack cg with
      | top :: rest => patch_all (set_break_stack cg rest) top end_
      | [] => Raise IndexError
      end
  | If cond then_body else_body =>
      let* cg := gen_expr cond cg in
      let jz_pos := here cg in
      let cg := emit cg JZ 0 in
      let* cg := stmts_with gen_stmt then_body cg in
      match else_body with
      | Some eb =>
          let jmp_end := here cg in
          let cg := emit cg JMP 0 in
          let* cg := patch cg jz_pos (here cg) in
          let* cg := stmts_with gen_stmt eb cg in
          patch cg jmp_end (here cg)
      | None => patch cg jz_pos (here cg)
      end
  | CallStmt name args => gen_call_stmt cg name args
  | PrintInt expr =>
      let* cg := gen_expr expr cg in
      Ok (emits cg [mkInstr OUT 2; mkInstr PUSHI 10; mkInstr OUT 1])
  | PrintStr text =>
      let '(var_addr, cg) := _ensure_cstr_literal cg text in
      _emit_print_cstr cg var_addr
  | PrintChar expr =>
      let is_string_var :=
        match expr with
        | Var v => bool_decide (var_types cg !! v = Some "string")
        | _ => false
        end in
      if is_string_var then
        match expr with
        | Var v =>
            let '(addr, cg) := alloc_var cg v in
            _emit_print_cstr cg addr
        | _ => Raise NotImplementedError
        end
      else
        let* cg := gen_expr expr cg in
        Ok (emit cg OUT 1)
  end.

(** [for st in f.body: self.gen_stmt(st)] *)
Definition gen_stmts (l : list Stmt) (cg : Codegen) : result Codegen :=
  stmts_with gen_stmt l cg.

Definition is_digit (ch : Ascii.ascii) : bool :=
  (48 <=? ord ch) && (ord ch <=? 57).

(** [int(s)] for a string of decimal digits. *)
Definition int_of_digits (s : list Ascii.ascii) : Z :=
  fold_left (fun acc ch => 10 * acc + (ord ch - 48)) s 0.

Definition _is_irq_func (name : string) : option Z :=
  let rest := String.list_ascii_of_string
                (String.substring 3 (String.length name - 3) name) in
  if String.prefix "irq" name && negb (bool_decide (rest = []))
     && forallb is_digit rest
  then Some (int_of_digits rest)
  else None.

Definition gen_func (f : Func) (cg : Codegen) : result Codegen :=
  let cg := set_labels cg (<[fname f := here cg]> (labels cg)) in
  let* cg := gen_stmts (fbody f) cg in
  let irq_n := _is_irq_func (fname f) in
  if String.eqb (fname f) "main" then Ok (emit cg HALT 0)
  else match irq_n with
       | Some _ => Ok (emit cg IRET 0)
       | None => Ok (emit cg RET 0)
       end.

Fixpoint gen_funcs (l : list Func) (cg : Codegen) : result Codegen :=
  match l with
  | [] => Ok cg
  | f :: l' =>
      let* cg := gen_func f cg in
      gen_funcs l' cg
  end.

Definition is_jump (op : Opcode) : bool :=
  match op with
  | JMP | JZ | CALL => true
  | _ => false
  end.

(** [if ins.opcode in (JMP, JZ, CALL): ins.arg += start_main] *)
Definition relocate (start_main : Z) (ins : Instr) : Instr :=
  if is_jump (opcode ins) then mkInstr (opcode ins) (arg ins + start_main)
  else ins.

(** The vector for slot [i], [1 <= i]: replaced when [irq<i>] is a label. *)
Definition irq_vector (lbls : gmap string Z) (start_main : Z) (i : nat) : Instr :=
  match lbls !! ("irq" +:+ pretty i) with
  | Some off => mkInstr JMP (start_main + off)
  | None => mkInstr JMP 0
  end.

Definition vector_table (lbls : gmap string Z) (start_main : Z) : list Instr :=
  let n := Z.to_nat DEFAULT_NUM_VECTORS in
  let v0 := match lbls !! "main" with
            | Some off => mkInstr JMP (start_main + off)
            | None => mkInstr JMP 0
            end in
  v0 :: map (irq_vector lbls start_main) (seq 1 (n - 1)).

(** [Codegen().gen(prog)]; the second component is the generator after the
    call, whose [code] has been relocated in place. *)
Definition gen_from (cg : Codegen) (prog : Program) : result (list Instr * Codegen) :=
  let start_main := DEFAULT_NUM_VECTORS in
  let* cg := gen_funcs (functions prog) cg in
  let cg := set_code cg (map (relocate start_main) (code cg)) in
  Ok (vector_table (labels cg) start_main ++ code cg, cg).

Definition gen (prog : Program) : result (list Instr) :=
  let* r := gen_from init prog in
  Ok (fst r).

End Codegen.

(** *** The round-trip form the specification names

    Encoding keeps the low 24 bits of an argument; decoding reads them back
    unsigned, except for [PUSHI] where they are read as a two's complement
    24-bit value. *)

Definition sign_extend24 (a : Z) : Z :=
  if a mod 2 ^ 24 <? 2 ^ 23 then a mod 2 ^ 24 else a mod 2 ^ 24 - 2 ^ 24.

Definition stored_form (ins : Isa.Instr) : Isa.Instr :=
  match Isa.opcode ins with
  | Isa.PUSHI => Isa.mkInstr Isa.PUSHI (sign_extend24 (Isa.arg ins))
  | op => Isa.mkInstr op (Isa.arg ins mod 2 ^ 24)
  end.

(** An instruction whose argument fits its 24-bit slot. *)
Definition arg_fits (ins : Isa.Instr) : Prop :=
  match Isa.opcode ins with
  | Isa.PUSHI => - 2 ^ 23 <= Isa.arg ins < 2 ^ 23
  | _ => 0 <= Isa.arg ins < 2 ^ 24
  end.

(** ** Concrete machines and programs used as instances *)

(** An [IRET] about to execute in an interrupt handler, return stack empty. *)
Definition ret_demo_state : Cpu.CPU :=
  Cpu.mkCPU [Isa.mkInstr Isa.IRET 0] (Datapath.init 1) [] 1
            (Some (Isa.mkInstr Isa.IRET 0)) 2 10 8 (Io.init []) true true
            Cpu.EXEC 0 false 0 (Some (Isa.mkInstr Isa.IRET 0)) 0 0 0.

(** A freshly built machine with one input event scheduled for tick 0 on
    port 3. *)
Definition irq_demo_state : Cpu.CPU :=
  Cpu.init [Isa.mkInstr Isa.JMP 0; Isa.mkInstr Isa.HALT 0] 1
           (Io.init [Io.mkIOEvent 0 3 65]) 10.

(** ** Machine states reached by running, and what holds of them *)

(** [reachable c0 c]: [c] is [c0] after some number of successful ticks. *)
Inductive reachable (c0 : Cpu.CPU) : Cpu.CPU -> Prop :=
| reach_start : reachable c0 c0
| reach_tick (c c' : Cpu.CPU) :
    reachable c0 c -> Cpu.step_tick c = Ok c' -> reachable c0 c'.

(** Every data-stack entry is a 32-bit word. *)
Definition stack_masked (d : Datapath.DataPath) : Prop :=
  Forall (fun x => Z.land x Datapath.MASK32 = x) (Datapath.stack d).

(** The latches [t], [s] and the flags are what [_refresh_tz] computes from
    the stack. *)
Definition fresh (d : Datapath.DataPath) : Prop := Datapath._refresh_tz d = d.

(** Between step 0 and step 1 of an ALU instruction the flags describe the
    ALU result instead of the top of the stack. *)
Definition alu_mid (c : Cpu.CPU) : Prop :=
  Cpu._phase c = Cpu.EXEC /\ Cpu._step c = 1 /\
  exists i, Cpu.ir c = Some i /\ Cpu.is_alu (Isa.opcode i) = true.

Definition tick_invariant (c : Cpu.CPU) : Prop :=
  stack_masked (Cpu.dp c) /\ (fresh (Cpu.dp c) \/ alu_mid c).

(** A [JZ 5] about to execute, two ticks after reset, on an empty stack. *)
Definition jz_demo_start : Cpu.CPU :=
  Cpu.init [Isa.mkInstr Isa.JZ 5] 1 (Io.init []) 10.

Definition jz_demo_state : Cpu.CPU :=
  Cpu.mkCPU [Isa.mkInstr Isa.JZ 5] (Datapath.init 1) [] 1
            (Some (Isa.mkInstr Isa.JZ 5)) 2 10 8 (Io.init []) true false
            Cpu.EXEC 0 false 0 (Some (Isa.mkInstr Isa.JZ 5)) 0 0 0.

(** [long a; int pa; long b; int pb; long c; int pc;
     a = readLong(); b = readLong(); c = a + b; printLong(c);]
    The [int] declared after each [long] keeps the cell after it free. *)
Definition long_add_program : Ast.Program :=
  Ast.mkProgram
    [Ast.mkFunc "main"
       [Ast.VarDecl "long" "a"; Ast.VarDecl "int" "pa";
        Ast.VarDecl "long" "b"; Ast.VarDecl "int" "pb";
        Ast.VarDecl "long" "c"; Ast.VarDecl "int" "pc";
        Ast.Assign "a" (Ast.Call "readLong" []);
        Ast.Assign "b" (Ast.Call "readLong" []);
        Ast.Assign "c" (Ast.BinOp "+" (Ast.Var "a") (Ast.Var "b"));
        Ast.CallStmt "printLong" [Ast.Var "c"]]].

(** The four words of two 64-bit inputs, delivered on port 3 at tick 0. *)
Definition long_add_schedule (a_lo a_hi b_lo b_hi : Z) : list Io.IOEvent :=
  [Io.mkIOEvent 0 3 a_lo; Io.mkIOEvent 0 3 a_hi;
   Io.mkIOEvent 0 3 b_lo; Io.mkIOEvent 0 3 b_hi].

(** Translate [long_add_program], encode it, run the binary on the two
    inputs without tracing; the result is whether the machine halted and
    the words written to port 3 (low word, high word). *)
Definition run_long_add (a_lo a_hi b_lo b_hi : Z) : result (bool * list Z) :=
  let* image := Codegen.gen long_add_program in
  let* r := Runner.run_machine Runner.no_trace (Isa.encode image)
              (long_add_schedule a_lo a_hi b_lo b_hi) 1024 5000 false in
  Ok (Cpu._halted (snd r), default [] (fst (fst r) !! 3)).

(** [long a; int b;] *)
Definition long_decl_stmts : list Ast.Stmt :=
  [Ast.VarDecl "long" "a"; Ast.VarDecl "int" "b"].

(** ** What code generation keeps *)

(** The argument of a jump instruction is at least [lo]. *)
Definition jump_arg_ok (lo : Z) (ins : Isa.Instr) : Prop :=
  Codegen.is_jump (Isa.opcode ins) = true -> lo <= Isa.arg ins.

(** From [cg] to [cg']: the labels are the same, the code did not shrink,
    and jump arguments stay non-negative if they were. *)
Definition keeps (cg cg' : Codegen.Codegen) : Prop :=
  Codegen.labels cg' = Codegen.labels cg /\
  (length (Codegen.code cg) <= length (Codegen.code cg'))%nat /\
  (Forall (jump_arg_ok 0) (Codegen.code cg) ->
   Forall (jump_arg_ok 0) (Codegen.code cg')).

(** Generating code for [s] keeps, whatever the generator state. *)
Definition stmt_keeps (s : Ast.Stmt) : Prop :=
  forall cg cg', Codegen.gen_stmt s cg = Ok cg' -> keeps cg cg'.

(** A program with a handler for port 1, a loop with a [break], a
    conditional and an equality test. *)
Definition vector_demo_program : Ast.Program :=
  Ast.mkProgram
    [Ast.mkFunc "irq1" [Ast.CallStmt "printChar" [Ast.Call "readChar" []]];
     Ast.mkFunc "main"
       [Ast.VarDecl "int" "i";
        Ast.Assign "i" (Ast.IntLit 0);
        Ast.While (Ast.BinOp "<=" (Ast.Var "i") (Ast.IntLit 3))
          [Ast.If (Ast.BinOp "==" (Ast.Var "i") (Ast.IntLit 2))
                  [Ast.Break] None;
           Ast.Assign "i" (Ast.BinOp "+" (Ast.Var "i") (Ast.IntLit 1))];
        Ast.PrintInt (Ast.Var "i")]].

(** Every label is the offset of an instruction of the generated code. *)
Definition labels_in_code (cg : Codegen.Codegen) : Prop :=
  forall name off,
    Codegen.labels cg !! name = Some off ->
    0 <= off < Z.of_nat (length (Codegen.code cg)).

(** The image and the generator state produced for [vector_demo_program]. *)
Definition vector_demo_result : list Isa.Instr * Codegen.Codegen :=
  match Codegen.gen_from Codegen.init vector_demo_program with
  | Ok r => r
  | Raise _ => ([], Codegen.init)
  end.

(** A datapath holding 7 under 0, and the same after a [DIV] at the ALU. *)
Definition alu_demo_dp : Datapath.DataPath :=
  Datapath.data_push (Datapath.data_push (Datapath.init 1) 7) 0.

Definition alu_demo_after : Datapath.DataPath :=
  match Datapath.alu_compute alu_demo_dp Isa.DIV with
  | Ok d => d
  | Raise _ => alu_demo_dp
  end.

(** [n] successive calls of [step_tick], stopping at the first exception. *)
Fixpoint run_ticks (n : nat) (c : Cpu.CPU) : result Cpu.CPU :=
  match n with
  | O => Ok c
  | S n' =>
      let* c' := Cpu.step_tick c in
      run_ticks n' c'
  end.

(** [jz_demo_start] one tick later. *)
Definition jz_demo_after_fetch : Cpu.CPU :=
  match Cpu.step_tick jz_demo_start with
  | Ok c => c
  | Raise _ => jz_demo_start
  end.

(** The untraced run of the one-instruction binary [HALT]. *)
Definition halt_demo_run : gmap Z (list Z) * list string * Cpu.CPU :=
  match Runner.run_machine Runner.no_trace
                           (Isa.encode [Isa.mkInstr Isa.HALT 0]) [] 1 10 false with
  | Ok r => r
  | Raise _ => (∅, [], jz_demo_start)
  end.

(** An [ADD] fetched right after reset, on an empty stack. *)
Definition add_demo_start : Cpu.CPU :=
  Cpu.init [Isa.mkInstr Isa.ADD 0] 1 (Io.init []) 10.

Definition add_demo_state : Cpu.CPU :=
  Cpu.mkCPU [Isa.mkInstr Isa.ADD 0] (Datapath.init 1) [] 1
            (Some (Isa.mkInstr Isa.ADD 0)) 2 10 8 (Io.init []) true false
            Cpu.EXEC 0 false 0 (Some (Isa.mkInstr Isa.ADD 0)) 0 0 0.

(** The machine after [n] ticks (unchanged if a tick raises). *)
Definition after_ticks (n : nat) (c : Cpu.CPU) : Cpu.CPU :=
  match run_ticks n c with
  | Ok c' => c'
  | Raise _ => c
  end.

(** [PUSHI 70000; PUSHI 3; STORE; PUSHI 3; LOAD; OUT 2; IN 1; HALT] from
    reset with an empty schedule and two words of memory, and its states at
    the EXEC tick of [STORE], [LOAD], [OUT] and [IN]. *)
Definition mem_demo_start : Cpu.CPU :=
  Cpu.init [Isa.mkInstr Isa.PUSHI 70000; Isa.mkInstr Isa.PUSHI 3;
            Isa.mkInstr Isa.STORE 0; Isa.mkInstr Isa.PUSHI 3;
            Isa.mkInstr Isa.LOAD 0; Isa.mkInstr Isa.OUT 2;
            Isa.mkInstr Isa.IN 1; Isa.mkInstr Isa.HALT 0]
           2 (Io.init []) 100.

Definition store_demo_state : Cpu.CPU := after_ticks 8 mem_demo_start.

Definition load_demo_state : Cpu.CPU := after_ticks 16 mem_demo_start.

Definition out_demo_state : Cpu.CPU := after_ticks 21 mem_demo_start.

Definition in_demo_state : Cpu.CPU := after_ticks 25 mem_demo_start.


(** ** Allocation of data memory by the code generator *)

(** Every variable has a cell of its own below [data_next]. *)
Definition alloc_ok (cg : Codegen.Codegen) : Prop :=
  0 <= Codegen.data_next cg /\
  (forall n x, Codegen.vars cg !! n = Some x -> 0 <= x < Codegen.data_next cg) /\
  (forall n m x, Codegen.vars cg !! n = Some x ->
                 Codegen.vars cg !! m = Some x -> n = m).

(** From [cg] to [cg']: [data_next] did not go back, every variable kept
    its address, and [alloc_ok] carried over. *)
Definition grows (cg cg' : Codegen.Codegen) : Prop :=
  Codegen.data_next cg <= Codegen.data_next cg' /\
  (forall n x, Codegen.vars cg !! n = Some x -> Codegen.vars cg' !! n = Some x) /\
  (alloc_ok cg -> alloc_ok cg').

Definition stmt_grows (s : Ast.Stmt) : Prop :=
  forall cg cg', Codegen.gen_stmt s cg = Ok cg' -> grows cg cg'.



(** ** Where generated jumps point *)

(** The argument of a jump instruction is at most [hi]. *)
Definition jump_le (hi : Z) (ins : Isa.Instr) : Prop :=
  Codegen.is_jump (Isa.opcode ins) = true -> Isa.arg ins <= hi.

(** No jump of the code generated so far points past its end. *)
Definition jumps_in (cg : Codegen.Codegen) : Prop :=
  Forall (jump_le (Codegen.here cg)) (Codegen.code cg).

(** From [cg] to [cg']: the code did not shrink and [jumps_in] carried
    over. *)
Definition tops (cg cg' : Codegen.Codegen) : Prop :=
  (length (Codegen.code cg) <= length (Codegen.code cg'))%nat /\
  (jumps_in cg -> jumps_in cg').

Definition stmt_tops (s : Ast.Stmt) : Prop :=
  forall cg cg', Codegen.gen_stmt s cg = Ok cg' -> tops cg cg'.



(** [mem_demo_start] after 17 ticks, between steps 0 and 1 of its [LOAD]
    with the address 3 on the stack, and after 23 ticks, when its [OUT]
    has written 70000 to port 2. *)
Definition load_mid_demo_state : Cpu.CPU := after_ticks 17 mem_demo_start.

Definition out_done_demo_state : Cpu.CPU := after_ticks 2 out_demo_state.

(** A generator that already holds [x] at address 0 and [y] at address 1,
    and a program that uses both and adds a scalar, a string variable, a
    string literal and an array. *)
Definition alloc_demo_start : Codegen.Codegen :=
  Codegen.mkCodegen [] ∅ (<["y" := 1]> (<["x" := 0]> ∅)) 2 [] ∅ ∅ ∅.

Definition alloc_demo_program : Ast.Program :=
  Ast.mkProgram
    [Ast.mkFunc "main"
       [Ast.VarDecl "int" "z";
        Ast.VarDecl "string" "s";
        Ast.Assign "x" (Ast.IntLit 5);
        Ast.PrintStr "hi";
        Ast.CallStmt "set" [Ast.Var "arr"; Ast.IntLit 0; Ast.Var "y"];
        Ast.PrintInt (Ast.Var "z")]].

Definition alloc_demo_result : list Isa.Instr * Codegen.Codegen :=
  match Codegen.gen_from alloc_demo_start alloc_demo_program with
  | Ok r => r
  | Raise _ => ([], alloc_demo_start)
  end.


(** * Theorems *)

Section IsaFacts.
Import Isa.

Lemma opcode_int_range (o : Opcode) : 0 <= opcode_int o < 256.
Proof. destruct o; simpl; lia. Qed.

Lemma Opcode_of_int_opcode_int (o : Opcode) : Opcode_of_int (opcode_int o) = Ok o.
Proof. destruct o; reflexivity. Qed.

Lemma int_of_byte_range (b : byte) : 0 <= int_of_byte b < 256.
Proof.
  destruct b; vm_compute; split; congruence.
Qed.

Lemma int_of_byte_of_int (z : Z) : 0 <= z < 256 -> int_of_byte (byte_of_int z) = z.
Proof.
  intros Hz. unfold int_of_byte, byte_of_int.
  destruct (Byte.of_N (Z.to_N z)) as [b|] eqn:E.
  - apply Byte.to_of_N in E. rewrite E. lia.
  - apply Byte.of_N_None_iff in E. lia.
Qed.

Lemma land_255 (x : Z) : Z.land x 0xFF = x mod 2 ^ 8.
Proof. change 0xFF with (Z.ones 8). apply Z.land_ones. lia. Qed.

Lemma land_24 (x : Z) : Z.land x 0x00FFFFFF = x mod 2 ^ 24.
Proof. change 0x00FFFFFF with (Z.ones 24). apply Z.land_ones. lia. Qed.

(** [lor] of a shifted value and a value below the shift is a sum. *)
Lemma lor_shiftl_add (hi lo n : Z) :
  0 <= n -> 0 <= lo < 2 ^ n -> Z.lor (Z.shiftl hi n) lo = hi * 2 ^ n + lo.
Proof.
  intros Hn Hlo. rewrite Z.shiftl_mul_pow2 by lia.
  symmetry. apply Z.add_nocarry_lor.
  apply Z.bits_inj'. intros k Hk. rewrite Z.land_spec, Z.bits_0.
  destruct (Z.ltb_spec k n).
  - rewrite Z.mul_pow2_bits_low by lia. reflexivity.
  - replace (Z.testbit lo k) with false; [apply andb_false_r|].
    symmetry. destruct (Z.eq_dec lo 0) as [->|Hne]; [apply Z.bits_0|].
    apply Z.bits_above_log2; [lia|].
    apply Z.log2_lt_pow2; try lia.
    apply Z.lt_le_trans with (2 ^ n); [lia|].
    apply Z.pow_le_mono_r; lia.
Qed.

Lemma encode_word_sum (ins : Instr) :
  encode_word ins = opcode_int (opcode ins) * 2 ^ 24 + arg ins mod 2 ^ 24.
Proof.
  unfold encode_word. rewrite land_24, land_255.
  pose proof (opcode_int_range (opcode ins)).
  rewrite (Z.mod_small (opcode_int _)) by lia.
  apply lor_shiftl_add; [lia|]. apply Z.mod_pos_bound. lia.
Qed.

Lemma decode_word_of_bytes (w : Z) :
  0 <= w < 2 ^ 32 ->
  decode_word (byte_of_int (Z.land w 0xFF))
              (byte_of_int (Z.land (Z.shiftr w 8) 0xFF))
              (byte_of_int (Z.land (Z.shiftr w 16) 0xFF))
              (byte_of_int (Z.land (Z.shiftr w 24) 0xFF)) = w.
Proof.
  intros Hw. unfold decode_word.
  rewrite !land_255, !Z.shiftr_div_pow2 by lia.
  rewrite !int_of_byte_of_int by (apply Z.mod_pos_bound; lia).
  rewrite (Z.lor_comm (w mod 2 ^ 8)), lor_shiftl_add
    by (try apply Z.mod_pos_bound; lia).
  rewrite (Z.lor_comm _ (Z.shiftl _ 16)), lor_shiftl_add;
    [|lia|Z.div_mod_to_equations; lia].
  rewrite (Z.lor_comm _ (Z.shiftl _ 24)), lor_shiftl_add;
    [|lia|Z.div_mod_to_equations; lia].
  Z.div_mod_to_equations; lia.
Qed.

Lemma land_pow2_bit (a n : Z) :
  0 <= n -> Z.land a (2 ^ n) = if Z.testbit a n then 2 ^ n else 0.
Proof.
  intros Hn. apply Z.bits_inj'. intros k Hk.
  rewrite Z.land_spec, Z.pow2_bits_eqb by lia.
  destruct (Z.eqb_spec n k) as [->|Hne].
  - destruct (Z.testbit a k); simpl.
    + rewrite Z.pow2_bits_eqb, Z.eqb_refl by lia. reflexivity.
    + rewrite Z.bits_0. reflexivity.
  - rewrite andb_false_r. destruct (Z.testbit a n).
    + rewrite Z.pow2_bits_eqb by lia. symmetry. apply Z.eqb_neq. exact Hne.
    + rewrite Z.bits_0. reflexivity.
Qed.

Lemma sign_bit_test (a : Z) :
  0 <= a < 2 ^ 24 -> (Z.land a 0x00800000 =? 0) = (a <? 2 ^ 23).
Proof.
  intros Ha. change 0x00800000 with (2 ^ 23). rewrite land_pow2_bit by lia.
  destruct (Z.testbit a 23) eqn:E.
  - apply Z.testbit_true in E; [|lia].
    transitivity false; [reflexivity|]. symmetry. apply Z.ltb_ge.
    Z.div_mod_to_equations; lia.
  - apply Z.testbit_false in E; [|lia].
    transitivity true; [reflexivity|]. symmetry. apply Z.ltb_lt.
    Z.div_mod_to_equations; lia.
Qed.

Lemma decode_instr_encode_word (ins : Instr) :
  decode_instr (encode_word ins) = Ok (stored_form ins).
Proof.
  unfold decode_instr. rewrite land_255, land_24, Z.shiftr_div_pow2 by lia.
  rewrite encode_word_sum.
  pose proof (opcode_int_range (opcode ins)) as Ho.
  pose proof (Z.mod_pos_bound (arg ins) (2 ^ 24) ltac:(lia)) as Ha.
  set (am := arg ins mod 2 ^ 24) in *.
  replace (((opcode_int (opcode ins) * 2 ^ 24 + am) / 2 ^ 24) mod 2 ^ 8)
    with (opcode_int (opcode ins)) by (Z.div_mod_to_equations; lia).
  replace ((opcode_int (opcode ins) * 2 ^ 24 + am) mod 2 ^ 24)
    with am by (Z.div_mod_to_equations; lia).
  rewrite Opcode_of_int_opcode_int. simpl.
  rewrite sign_bit_test by lia.
  unfold stored_form, sign_extend24. fold am.
  destruct ins as [op a]; simpl in *.
  destruct op; simpl; try reflexivity.
  destruct (am <? 2 ^ 23); reflexivity.
Qed.

Lemma encode_word_range (ins : Instr) : 0 <= encode_word ins < 2 ^ 32.
Proof.
  rewrite encode_word_sum.
  pose proof (opcode_int_range (opcode ins)).
  pose proof (Z.mod_pos_bound (arg ins) (2 ^ 24) ltac:(lia)). lia.
Qed.

Lemma stored_form_fits (ins : Instr) : arg_fits ins -> stored_form ins = ins.
Proof.
  destruct ins as [op a]. unfold arg_fits, stored_form, sign_extend24. simpl.
  intros H. destruct op; try (rewrite Z.mod_small by lia; reflexivity).
  destruct (Z.ltb_spec (a mod 2 ^ 24) (2 ^ 23)); f_equal;
    Z.div_mod_to_equations; lia.
Qed.

End IsaFacts.

(** C3.  Decoding the encoding of any instruction list succeeds and returns
    the list in its stored form: the same opcodes, [PUSHI] immediates
    sign-extended from their 24-bit encoding, every other argument as the
    unsigned 24-bit value.  (By [stored_form_fits] the stored form of an
    instruction whose argument fits its slot is the instruction itself.) *)
Theorem decode_encode_roundtrip (instrs : list Isa.Instr) :
  Isa.decode (Isa.encode instrs) = Ok (map stored_form instrs).
Proof.
  induction instrs as [|ins rest IH]; [reflexivity|].
  cbn [Isa.encode Isa.decode map].
  rewrite decode_word_of_bytes by apply encode_word_range.
  rewrite decode_instr_encode_word. cbn [rbind].
  rewrite IH. reflexivity.
Qed.

Lemma opcodes_count : length Isa.opcodes = 22%nat.
Proof. reflexivity. Qed.

Lemma Opcode_of_int_undefined (v : Z) :
  ~ In v (map Isa.opcode_int Isa.opcodes) -> Isa.Opcode_of_int v = Raise ValueError.
Proof.
  intros H. unfold Isa.Opcode_of_int.
  destruct (find _ Isa.opcodes) as [o|] eqn:E; [|reflexivity].
  apply find_some in E. destruct E as [Hin Heq].
  apply Z.eqb_eq in Heq. subst v. exfalso. apply H. apply in_map. exact Hin.
Qed.

Lemma decode_instr_error (w : Z) (e : PyError) :
  Isa.decode_instr w = Raise e -> e = ValueError.
Proof.
  unfold Isa.decode_instr, Isa.Opcode_of_int.
  destruct (find _ Isa.opcodes); simpl; congruence.
Qed.

Lemma decode_word_top (b0 b1 b2 b3 : byte) :
  Z.land (Z.shiftr (Isa.decode_word b0 b1 b2 b3) 24) 0xFF = Isa.int_of_byte b3.
Proof.
  unfold Isa.decode_word.
  pose proof (int_of_byte_range b0). pose proof (int_of_byte_range b1).
  pose proof (int_of_byte_range b2). pose proof (int_of_byte_range b3).
  rewrite (Z.lor_comm (Isa.int_of_byte b0)), lor_shiftl_add by lia.
  rewrite (Z.lor_comm _ (Z.shiftl _ 16)), lor_shiftl_add by lia.
  rewrite (Z.lor_comm _ (Z.shiftl _ 24)), lor_shiftl_add by lia.
  rewrite land_255, Z.shiftr_div_pow2 by lia.
  Z.div_mod_to_equations; lia.
Qed.

(** C10.  The enumeration has 22 members, and a blob that holds a complete
    4-byte word (word [i], top byte at offset [4 * i + 3]) whose top byte is
    not the value of a member makes [decode] raise [ValueError]: the word is
    neither skipped nor mapped to an instruction. *)
Theorem decode_rejects_undefined_opcode (blob : list byte) (i : nat) (top : byte) :
  blob !! (4 * i + 3)%nat = Some top ->
  ~ In (Isa.int_of_byte top) (map Isa.opcode_int Isa.opcodes) ->
  length Isa.opcodes = 22%nat /\ Isa.decode blob = Raise ValueError.
Proof.
  intros Hlook Hundef. split; [reflexivity|].
  revert blob Hlook. induction i as [|i IH]; intros blob Hlook.
  - destruct blob as [|b0 [|b1 [|b2 [|b3 rest]]]]; try discriminate Hlook.
    simpl in Hlook. injection Hlook as ->.
    cbn [Isa.decode]. unfold Isa.decode_instr at 1.
    rewrite decode_word_top, Opcode_of_int_undefined by exact Hundef.
    reflexivity.
  - replace (4 * S i + 3)%nat with (S (S (S (S (4 * i + 3))))) in Hlook by lia.
    destruct blob as [|b0 [|b1 [|b2 [|b3 rest]]]]; try discriminate Hlook.
    simpl in Hlook. cbn [Isa.decode].
    destruct (Isa.decode_instr (Isa.decode_word b0 b1 b2 b3)) as [ins|e] eqn:E;
      cbn [rbind].
    + rewrite (IH rest Hlook). reflexivity.
    + apply decode_instr_error in E. subst e. reflexivity.
Qed.

Lemma decode_rejects_undefined_opcode_witness :
  length Isa.opcodes = 22%nat /\
  Isa.decode [x00; x00; x00; x07; x01; x00; x00; x01] = Raise ValueError.
Proof.
  apply (decode_rejects_undefined_opcode _ 0%nat x07).
  - reflexivity.
  - vm_compute. intros H. repeat (destruct H as [H|H]; [discriminate H|]). exact H.
Defined.

(** ** The control unit, one tick at a time *)

Section CpuFacts.
Import Isa Cpu.

Lemma begin_tick_fields (c : CPU) :
  _phase (begin_tick c) = _phase c /\ _step (begin_tick c) = _step c /\
  ir (begin_tick c) = ir c /\ pc (begin_tick c) = pc c /\
  rs (begin_tick c) = rs c /\ tick (begin_tick c) = tick c /\
  int_enabled (begin_tick c) = int_enabled c /\
  in_isr (begin_tick c) = in_isr c /\ _halted (begin_tick c) = _halted c /\
  last_pc (begin_tick c) = last_pc c /\ imem (begin_tick c) = imem c.
Proof. repeat split. Qed.

Lemma begin_tick_mem_access (c : CPU) :
  Datapath._mem_access (dp (begin_tick c)) = None.
Proof. reflexivity. Qed.

Lemma begin_tick_stack (c : CPU) :
  Datapath.stack (dp (begin_tick c)) = Datapath.stack (dp c) /\
  Datapath.zero (dp (begin_tick c)) = Datapath.zero (dp c).
Proof. split; reflexivity. Qed.

End CpuFacts.

(** C7.  A [RET] or [IRET] executed on an empty return stack completes
    without an exception, leaves [pc] at the value the LATCH_PC tick gave it
    (one past the instruction) and the machine keeps running; an [IRET]
    clears [in_isr] whatever the return stack holds. *)
Theorem ret_iret_empty_return_stack (c : Cpu.CPU) (i : Isa.Instr) :
  Cpu._halted c = false ->
  Cpu._phase c = Cpu.EXEC ->
  Cpu._step c = 0 ->
  Cpu.ir c = Some i ->
  Isa.opcode i = Isa.RET \/ Isa.opcode i = Isa.IRET ->
  exists c',
    Cpu.step_tick c = Ok c' /\
    (Cpu.rs c = [] ->
       Cpu.pc c' = Cpu.pc c /\ Cpu.rs c' = [] /\ Cpu._halted c' = false /\
       Cpu._phase c' = Cpu.FETCH_IR /\ Cpu.tick c' = Cpu.tick c + 1) /\
    (Isa.opcode i = Isa.IRET -> Cpu.in_isr c' = false) /\
    (Isa.opcode i = Isa.RET -> Cpu.in_isr c' = Cpu.in_isr c).
Proof.
  intros Hh Hp Hs Hir Hop.
  destruct c as [im d r p irr tk tl nv io0 ie ii ph st hl lp li ta tv tal].
  destruct i as [op a]. simpl in *. subst.
  unfold Cpu.step_tick. simpl.
  destruct Hop as [-> | ->]; simpl; eexists; (split; [reflexivity|]);
    (split; [intros ->; simpl; auto|]); split; intros; simpl;
    try discriminate; try reflexivity.
  all: destruct r; reflexivity.
Qed.

(** The LATCH_PC tick before it: [pc] moves one past the fetched
    instruction and the unit enters EXEC at step 0. *)
Lemma latch_pc_tick (c : Cpu.CPU) :
  Cpu._halted c = false ->
  Cpu._phase c = Cpu.LATCH_PC ->
  exists c',
    Cpu.step_tick c = Ok c' /\ Cpu.pc c' = Cpu.pc c + 1 /\
    Cpu._phase c' = Cpu.EXEC /\ Cpu._step c' = 0 /\ Cpu.ir c' = Cpu.ir c /\
    Cpu.rs c' = Cpu.rs c /\ Cpu._halted c' = false.
Proof.
  intros Hh Hp. destruct c; simpl in *; subst.
  unfold Cpu.step_tick; simpl. eexists; repeat split.
Qed.

Lemma ret_iret_empty_return_stack_witness :
  exists c',
    Cpu.step_tick ret_demo_state = Ok c' /\
    (Cpu.rs ret_demo_state = [] ->
       Cpu.pc c' = Cpu.pc ret_demo_state /\ Cpu.rs c' = [] /\
       Cpu._halted c' = false /\ Cpu._phase c' = Cpu.FETCH_IR /\
       Cpu.tick c' = Cpu.tick ret_demo_state + 1) /\
    (Isa.opcode (Isa.mkInstr Isa.IRET 0) = Isa.IRET -> Cpu.in_isr c' = false) /\
    (Isa.opcode (Isa.mkInstr Isa.IRET 0) = Isa.RET ->
       Cpu.in_isr c' = Cpu.in_isr ret_demo_state).
Proof.
  apply (ret_iret_empty_return_stack ret_demo_state (Isa.mkInstr Isa.IRET 0));
    try reflexivity.
  right; reflexivity.
Defined.

(** ** What one tick can do to the interrupt latch and to the memory port *)

Ltac split_result H :=
  repeat (simpl in H;
          match type of H with
          | Raise _ = _ => discriminate H
          | Ok _ = Raise _ => discriminate H
          | context [if ?b then _ else _] => destruct b eqn:?
          | context [match ?x with _ => _ end] => destruct x eqn:?
          end).

Lemma latch_io_read_pending (d : Datapath.DataPath) (io : Io.IOController) (port : Z) :
  Io._pending_irq (snd (Datapath.latch_io_read d io port)) = Io._pending_irq io.
Proof.
  unfold Datapath.latch_io_read, Io.read_port.
  destruct (Io._in_queues io !! port) as [[|v q]|]; reflexivity.
Qed.

Lemma exec_pending_irq (c c' : Cpu.CPU) :
  Cpu.exec c = Ok c' ->
  Io._pending_irq (Cpu.io c') = Io._pending_irq (Cpu.io c).
Proof.
  intros H.
  destruct c as [im d r p irr tk tl nv io0 ie ii ph st hl lp li ta tv tal].
  unfold Cpu.exec, Cpu.unhandled, Cpu.pop_return, Datapath.dm_read,
    Datapath.dm_write, Datapath.io_write_commit, py_index, py_setitem, rbind in H.
  simpl in H. destruct irr as [[op a]|]; [|discriminate H].
  destruct op; split_result H; injection H as <-; try reflexivity.
  match goal with
  | E : Datapath.latch_io_read ?d ?io ?a = _ |- _ =>
      pose proof (latch_io_read_pending d io a) as X; rewrite E in X; exact X
  end.
Qed.

(** C2.  Take a tick of a running machine on which an IRQ for port [p] is
    latched once the tick's events are delivered.  If the unit is in
    FETCH_IR with interrupts enabled and no handler active, the tick
    dispatches: [pc] is pushed on the return stack, [pc] becomes [p],
    [in_isr] is set, the latch is cleared, [tick] advances by one and no
    instruction is fetched ([ir], [last_pc] and the phase are unchanged).
    Conversely the latch is cleared by a tick only in that situation. *)
Theorem irq_acknowledged_only_at_fetch (c : Cpu.CPU) (p : Z) :
  Cpu._halted c = false ->
  Io.irq_pending (Cpu.io (Cpu.begin_tick c)) = Some p ->
  (Cpu._phase c = Cpu.FETCH_IR /\ Cpu.int_enabled c = true /\ Cpu.in_isr c = false ->
   exists c',
     Cpu.step_tick c = Ok c' /\
     Cpu.rs c' = Cpu.pc c :: Cpu.rs c /\ Cpu.pc c' = p /\
     Cpu.in_isr c' = true /\ Io.irq_pending (Cpu.io c') = None /\
     Cpu.tick c' = Cpu.tick c + 1 /\
     Cpu.ir c' = Cpu.ir c /\ Cpu.last_pc c' = Cpu.last_pc c /\
     Cpu._phase c' = Cpu.FETCH_IR) /\
  (forall c',
     Cpu.step_tick c = Ok c' ->
     Io.irq_pending (Cpu.io c') = None ->
     Cpu._phase c = Cpu.FETCH_IR /\ Cpu.int_enabled c = true /\ Cpu.in_isr c = false).
Proof.
  intros Hh Hpend. split.
  - intros (Hph & Hie & Hisr).
    unfold Cpu.step_tick. rewrite Hh.
    replace (Cpu._phase (Cpu.begin_tick c)) with Cpu.FETCH_IR by (symmetry; exact Hph).
    unfold Cpu.maybe_raise_irq.
    replace (Cpu.int_enabled (Cpu.begin_tick c)) with true by (symmetry; exact Hie).
    replace (Cpu.in_isr (Cpu.begin_tick c)) with false by (symmetry; exact Hisr).
    cbn [negb orb]. rewrite Hpend.
    eexists. split; [reflexivity|]. repeat split. exact Hph.
  - intros c' Hstep Hnone.
    unfold Cpu.step_tick in Hstep. rewrite Hh in Hstep.
    destruct (Cpu._phase (Cpu.begin_tick c)) eqn:Hph.
    + change (Cpu._phase c = Cpu.FETCH_IR) in Hph.
      unfold Cpu.maybe_raise_irq in Hstep.
      change (Cpu.int_enabled (Cpu.begin_tick c)) with (Cpu.int_enabled c) in Hstep.
      change (Cpu.in_isr (Cpu.begin_tick c)) with (Cpu.in_isr c) in Hstep.
      destruct (Cpu.int_enabled c), (Cpu.in_isr c); cbn [negb orb] in Hstep;
        try (split; [exact Hph|split; reflexivity]); exfalso.
      all: cbv beta iota zeta in Hstep; unfold Cpu.fetch in Hstep;
        destruct (py_index (Cpu.imem (Cpu.begin_tick c)) (Cpu.pc (Cpu.begin_tick c)));
        cbn [rbind] in Hstep; [|discriminate Hstep];
        injection Hstep as <-;
        change (Io.irq_pending (Cpu.io (Cpu.begin_tick c)) = None) in Hnone;
        congruence.
    + exfalso. injection Hstep as <-.
      change (Io.irq_pending (Cpu.io (Cpu.begin_tick c)) = None) in Hnone.
      congruence.
    + exfalso. apply exec_pending_irq in Hstep.
      unfold Io.irq_pending in *. congruence.
Qed.

Lemma irq_acknowledged_only_at_fetch_witness :
  (Cpu._phase irq_demo_state = Cpu.FETCH_IR /\
   Cpu.int_enabled irq_demo_state = true /\ Cpu.in_isr irq_demo_state = false ->
   exists c',
     Cpu.step_tick irq_demo_state = Ok c' /\
     Cpu.rs c' = Cpu.pc irq_demo_state :: Cpu.rs irq_demo_state /\ Cpu.pc c' = 3 /\
     Cpu.in_isr c' = true /\ Io.irq_pending (Cpu.io c') = None /\
     Cpu.tick c' = Cpu.tick irq_demo_state + 1 /\
     Cpu.ir c' = Cpu.ir irq_demo_state /\ Cpu.last_pc c' = Cpu.last_pc irq_demo_state /\
     Cpu._phase c' = Cpu.FETCH_IR) /\
  (forall c',
     Cpu.step_tick irq_demo_state = Ok c' ->
     Io.irq_pending (Cpu.io c') = None ->
     Cpu._phase irq_demo_state = Cpu.FETCH_IR /\
     Cpu.int_enabled irq_demo_state = true /\ Cpu.in_isr irq_demo_state = false).
Proof.
  apply (irq_acknowledged_only_at_fetch irq_demo_state 3); reflexivity.
Defined.

Lemma py_index_error {A : Type} (l : list A) (i : Z) (e : PyError) :
  py_index l i = Raise e -> e = IndexError.
Proof. unfold py_index. intros H. split_result H; congruence. Qed.

Lemma py_setitem_error {A : Type} (l : list A) (i : Z) (x : A) (e : PyError) :
  py_setitem l i x = Raise e -> e = IndexError.
Proof. unfold py_setitem. intros H. split_result H; congruence. Qed.

Lemma dm_read_error (d : Datapath.DataPath) (e : PyError) :
  Datapath._mem_access d = None -> Datapath.dm_read d = Raise e -> e = IndexError.
Proof.
  intros Hn. unfold Datapath.dm_read. rewrite Hn.
  destruct (py_index _ _) eqn:E; cbn [rbind]; [discriminate|].
  intros [= <-]. eapply py_index_error, E.
Qed.

Lemma dm_write_error (d : Datapath.DataPath) (v : Z) (e : PyError) :
  Datapath._mem_access d = None -> Datapath.dm_write d v = Raise e -> e = IndexError.
Proof.
  intros Hn. unfold Datapath.dm_write. rewrite Hn.
  destruct (py_setitem _ _ _) eqn:E; cbn [rbind]; [discriminate|].
  intros [= <-]. eapply py_setitem_error, E.
Qed.

Lemma exec_no_conflict (c : Cpu.CPU) :
  Datapath._mem_access (Cpu.dp c) = None ->
  Cpu.exec c <> Raise (AssertionError "dm conflict").
Proof.
  intros Hnone H.
  destruct c as [im d r p irr tk tl nv io0 ie ii ph st hl lp li ta tv tal].
  simpl in Hnone.
  unfold Cpu.exec, Cpu.unhandled, rbind in H.
  simpl in H.
  destruct irr as [[op a]|]; [|discriminate H].
  destruct op; split_result H; try discriminate H;
    injection H as ->;
    match goal with
    | E : Datapath.dm_read _ = Raise _ |- _ =>
        apply dm_read_error in E; [discriminate E|exact Hnone]
    | E : Datapath.dm_write _ _ = Raise _ |- _ =>
        apply dm_write_error in E; [discriminate E|exact Hnone]
    end.
Qed.

(** C9.  A tick starts by clearing the per-tick access flag; [dm_read] and
    [dm_write] raise "dm conflict" exactly when the flag is already set and
    set it when they succeed; and no tick, from any machine state, ends in
    that assertion: no micro-step performs a second data-memory access. *)
Theorem one_memory_access_per_tick (c : Cpu.CPU) :
  Datapath._mem_access (Cpu.dp (Cpu.begin_tick c)) = None /\
  (forall d v,
     (Datapath._mem_access d <> None <->
      Datapath.dm_read d = Raise (AssertionError "dm conflict")) /\
     (Datapath._mem_access d <> None <->
      Datapath.dm_write d v = Raise (AssertionError "dm conflict"))) /\
  (forall d d' v,
     (Datapath.dm_read d = Ok d' -> Datapath._mem_access d' = Some Datapath.acc_r) /\
     (Datapath.dm_write d v = Ok d' -> Datapath._mem_access d' = Some Datapath.acc_w)) /\
  Cpu.step_tick c <> Raise (AssertionError "dm conflict").
Proof.
  split; [reflexivity|]. split; [|split].
  - intros d v. unfold Datapath.dm_read, Datapath.dm_write, py_index, py_setitem.
    destruct (Datapath._mem_access d) as [m|]; split; split; intros H;
      try reflexivity; try congruence; try (exfalso; apply H; reflexivity);
      exfalso; split_result H; discriminate H.
  - intros d d' v. unfold Datapath.dm_read, Datapath.dm_write, py_index, py_setitem.
    split; intros H; split_result H; injection H as <-; reflexivity.
  - unfold Cpu.step_tick. destruct (Cpu._halted c); [discriminate|].
    destruct (Cpu._phase (Cpu.begin_tick c)).
    + destruct (Cpu.maybe_raise_irq (Cpu.begin_tick c)) as [[|] c1];
        [discriminate|].
      unfold Cpu.fetch, py_index. intros H. split_result H; discriminate H.
    + discriminate.
    + apply exec_no_conflict. reflexivity.
Qed.

(** ** Flags mirror the top of the stack *)

Section FlagFacts.
Import Datapath.

Lemma land_mask_idem (x : Z) : Z.land (Z.land x MASK32) MASK32 = Z.land x MASK32.
Proof. rewrite <- Z.land_assoc. reflexivity. Qed.

Lemma fresh_refresh (d : DataPath) : fresh (_refresh_tz d).
Proof. reflexivity. Qed.

Lemma data_push_ok (d : DataPath) (v : Z) :
  stack_masked d -> stack_masked (data_push d v) /\ fresh (data_push d v).
Proof.
  intros H. split; [|apply fresh_refresh].
  unfold stack_masked, data_push. simpl. constructor; [apply land_mask_idem|exact H].
Qed.

Lemma data_pop_ok (d : DataPath) :
  stack_masked d -> stack_masked (snd (data_pop d)) /\ fresh (snd (data_pop d)).
Proof.
  intros H. unfold data_pop, stack_masked in *.
  destruct (stack d) as [|v rest] eqn:E; simpl.
  - rewrite E. split; [constructor|apply fresh_refresh].
  - split; [|apply fresh_refresh]. inversion H; assumption.
Qed.

Lemma data_pop_eq_ok (d d' : DataPath) (v : Z) :
  data_pop d = (v, d') -> stack_masked d -> stack_masked d' /\ fresh d'.
Proof.
  intros E H. pose proof (data_pop_ok d H) as X. rewrite E in X. exact X.
Qed.

Lemma latch_t_push_ok (d d' : DataPath) (src : string) (v : option Z) :
  latch_t_push d src v = Ok d' -> stack_masked d -> stack_masked d' /\ fresh d'.
Proof.
  unfold latch_t_push. intros E H.
  repeat match type of E with
         | context [if ?b then _ else _] => destruct b
         | context [match ?x with _ => _ end] => destruct x
         end; try discriminate E; injection E as <-; apply data_push_ok, H.
Qed.

Lemma fresh_fields (d : DataPath) (m : list Z) (a r : Z) (w l : Z) (al : Z)
      (acc : option MemAccess) :
  fresh d ->
  fresh (mkDataPath m (stack d) (t d) (s d) a r (zero d) (sign d) w l al acc).
Proof.
  unfold fresh, _refresh_tz. destruct d; simpl. intros [= Ht Hs Hz Hsg].
  rewrite Ht, Hs. rewrite Ht in Hz, Hsg. rewrite Hz, Hsg. reflexivity.
Qed.

Lemma dm_read_ok (d d' : DataPath) :
  dm_read d = Ok d' -> stack d' = stack d /\ (fresh d -> fresh d').
Proof.
  unfold dm_read. intros E.
  destruct (_mem_access d); [discriminate E|].
  destruct (py_index _ _); cbn [rbind] in E; [|discriminate E].
  injection E as <-. split; [reflexivity|]. apply fresh_fields.
Qed.

Lemma dm_write_ok (d d' : DataPath) (v : Z) :
  dm_write d v = Ok d' -> stack d' = stack d /\ (fresh d -> fresh d').
Proof.
  unfold dm_write. intros E.
  destruct (_mem_access d); [discriminate E|].
  destruct (py_setitem _ _ _); cbn [rbind] in E; [|discriminate E].
  injection E as <-. split; [reflexivity|]. apply fresh_fields.
Qed.

Lemma alu_compute_stack (d d' : DataPath) (op : Isa.Opcode) :
  alu_compute d op = Ok d' -> stack d' = stack d.
Proof.
  unfold alu_compute. destruct (alu_result _ _ _); cbn [rbind]; [|discriminate].
  intros [= <-]. reflexivity.
Qed.

Lemma with_ar_ok (d : DataPath) (a : Z) :
  stack (with_ar d a) = stack d /\ (fresh d -> fresh (with_ar d a)).
Proof. split; [reflexivity|]. apply fresh_fields. Qed.

Lemma with_io_reg_ok (d : DataPath) (v : Z) :
  stack (with_io_reg d v) = stack d /\ (fresh d -> fresh (with_io_reg d v)).
Proof. split; [reflexivity|]. apply fresh_fields. Qed.

Lemma tick_begin_ok (d : DataPath) :
  stack (tick_begin d) = stack d /\ (fresh d -> fresh (tick_begin d)).
Proof. split; [reflexivity|]. apply fresh_fields. Qed.

Lemma latch_io_read_ok (d d' : DataPath) (io io' : Io.IOController) (port : Z) :
  latch_io_read d io port = (d', io') ->
  stack d' = stack d /\ (fresh d -> fresh d').
Proof.
  unfold latch_io_read. destruct (Io.read_port io port) as [v i].
  intros [= <- _]. apply with_io_reg_ok.
Qed.

Lemma masked_of_stack_eq (d d' : DataPath) :
  stack d' = stack d -> stack_masked d -> stack_masked d'.
Proof. unfold stack_masked. intros ->. exact id. Qed.

(** On a fresh datapath with masked entries the zero flag says whether the
    top of the stack (0 when empty) is zero. *)
Lemma fresh_zero (d : DataPath) :
  stack_masked d -> fresh d -> zero d = (hd 0 (stack d) =? 0).
Proof.
  unfold stack_masked, fresh, _refresh_tz. destruct d as [m st]; simpl.
  intros Hm [= _ _ Hz _]. rewrite <- Hz.
  destruct st as [|x rest]; [reflexivity|]. simpl.
  inversion Hm as [|? ? Hx _]; subst. rewrite land_mask_idem, Hx. reflexivity.
Qed.

End FlagFacts.

Section InvariantFacts.
Import Datapath Cpu.

Lemma masked_push (d : DataPath) (v : Z) :
  stack_masked d -> stack_masked (data_push d v).
Proof. intros H. apply data_push_ok, H. Qed.

Lemma masked_pop (d : DataPath) : stack_masked d -> stack_masked (snd (data_pop d)).
Proof. intros H. apply data_pop_ok, H. Qed.

Lemma fresh_push (d : DataPath) (v : Z) : fresh (data_push d v).
Proof. apply fresh_refresh. Qed.

Lemma fresh_pop (d : DataPath) : fresh (snd (data_pop d)).
Proof. unfold data_pop. destruct (stack d); apply fresh_refresh. Qed.

Lemma masked_ar_t (d : DataPath) : stack_masked d -> stack_masked (latch_ar_from_t d).
Proof. exact id. Qed.

Lemma masked_ar_lit (d : DataPath) (a : Z) :
  stack_masked d -> stack_masked (latch_ar_from_lit d a).
Proof. exact id. Qed.

Lemma masked_io_prepare (d : DataPath) (v : Z) :
  stack_masked d -> stack_masked (latch_io_write_prepare d v).
Proof. exact id. Qed.

Lemma fresh_ar_t (d : DataPath) : fresh d -> fresh (latch_ar_from_t d).
Proof. apply with_ar_ok. Qed.

Lemma fresh_ar_lit (d : DataPath) (a : Z) : fresh d -> fresh (latch_ar_from_lit d a).
Proof. apply with_ar_ok. Qed.

Lemma fresh_io_prepare (d : DataPath) (v : Z) :
  fresh d -> fresh (latch_io_write_prepare d v).
Proof. apply with_io_reg_ok. Qed.

Create HintDb dp discriminated.
#[local] Hint Resolve masked_push masked_pop fresh_push fresh_pop masked_ar_t
  masked_ar_lit masked_io_prepare fresh_ar_t fresh_ar_lit fresh_io_prepare
  masked_of_stack_eq : dp.

#[local] Arguments data_pop : simpl never.
#[local] Arguments data_push : simpl never.
#[local] Arguments latch_t_push : simpl never.
#[local] Arguments alu_compute : simpl never.
#[local] Arguments dm_read : simpl never.
#[local] Arguments dm_write : simpl never.
#[local] Arguments latch_io_read : simpl never.
#[local] Arguments latch_ar_from_t : simpl never.
#[local] Arguments latch_ar_from_lit : simpl never.
#[local] Arguments latch_io_write_prepare : simpl never.

Ltac dp_facts :=
  repeat match goal with
         | E : data_pop ?d = (_, _), H : stack_masked ?d |- _ =>
             apply data_pop_eq_ok in E; [destruct E|exact H]
         | E : latch_t_push ?d _ _ = Ok _, H : stack_masked ?d |- _ =>
             apply latch_t_push_ok in E; [destruct E|exact H]
         | E : dm_read ?d = Ok _ |- _ =>
             apply dm_read_ok in E; destruct E
         | E : dm_write ?d _ = Ok _ |- _ =>
             apply dm_write_ok in E; destruct E
         | E : alu_compute ?d _ = Ok _ |- _ =>
             apply alu_compute_stack in E
         | E : latch_io_read ?d _ _ = (_, _) |- _ =>
             apply latch_io_read_ok in E; destruct E
         end.

Lemma exec_invariant (c c' : CPU) :
  tick_invariant c -> _phase c = EXEC -> exec c = Ok c' -> tick_invariant c'.
Proof.
  intros [Hm Hf] Hph H.
  destruct c as [im d r p irr tk tl nv io0 ie ii ph st hl lp li ta tv tal].
  unfold exec, unhandled, pop_return, rbind in H. simpl in H, Hm, Hph. subst ph.
  destruct irr as [[op a]|]; [|discriminate H].
  assert (Hfresh : is_alu op = false -> fresh d).
  { intros Hop. destruct Hf as [Hf|(_ & _ & i & [= <-] & Hi)]; [exact Hf|].
    simpl in Hi. congruence. }
  clear Hf.
  destruct op; try specialize (Hfresh eq_refl);
    split_result H; injection H as <-; dp_facts.
  all: unfold tick_invariant; simpl.
  all: try (split; [eauto 6 with dp|left; eauto 6 with dp]; fail).
  all: try (split; [eauto 6 with dp|right; unfold alu_mid; simpl;
              repeat split; eexists; split; reflexivity]; fail).
Qed.

Lemma begin_tick_invariant (c : CPU) : tick_invariant c -> tick_invariant (begin_tick c).
Proof.
  intros [Hm Hf]. split; [exact Hm|].
  destruct Hf as [Hf|Hf]; [left|right; exact Hf].
  apply (tick_begin_ok (dp c)), Hf.
Qed.

Lemma step_tick_invariant (c c' : CPU) :
  tick_invariant c -> step_tick c = Ok c' -> tick_invariant c'.
Proof.
  intros Hinv H. unfold step_tick in H.
  destruct (_halted c); [injection H as <-; exact Hinv|].
  apply begin_tick_invariant in Hinv.
  destruct (_phase (begin_tick c)) eqn:Hph.
  - destruct Hinv as [Hm [Hf|(Hx & _)]]; [|congruence].
    unfold maybe_raise_irq in H.
    destruct (negb (int_enabled (begin_tick c)) || in_isr (begin_tick c)).
    + unfold fetch in H. destruct (py_index _ _); cbn [rbind] in H; [|discriminate H].
      injection H as <-. split; [exact Hm|left; exact Hf].
    + destruct (Io.irq_pending (io (begin_tick c))).
      * injection H as <-. split; [exact Hm|left; exact Hf].
      * unfold fetch in H. destruct (py_index _ _); cbn [rbind] in H; [|discriminate H].
        injection H as <-. split; [exact Hm|left; exact Hf].
  - destruct Hinv as [Hm [Hf|(Hx & _)]]; [|congruence].
    injection H as <-. split; [exact Hm|left; exact Hf].
  - eapply exec_invariant; eauto.
Qed.

Lemma init_invariant (imem : list Isa.Instr) (data_words : Z) (io : Io.IOController)
      (tick_limit : Z) :
  tick_invariant (Cpu.init imem data_words io tick_limit).
Proof. split; [constructor|left; reflexivity]. Qed.

Lemma reachable_invariant (c0 c : CPU) :
  tick_invariant c0 -> reachable c0 c -> tick_invariant c.
Proof.
  intros H0 Hr. induction Hr as [|c c' _ IH Hstep]; [exact H0|].
  eapply step_tick_invariant; eauto.
Qed.

End InvariantFacts.

(** C4.  In a machine reached from reset, a [JZ a] at its EXEC tick always
    pops the data stack; the value popped is the top of the stack (0 when
    the stack is empty); the zero flag it tests is the zero-ness of that top
    as it stood before the pop, and it alone decides the branch; on an
    empty stack the flag is true, the branch is taken and the pop returns
    0. *)
Theorem jz_pops_and_tests_old_top
        (imem : list Isa.Instr) (data_words tick_limit : Z) (io : Io.IOController)
        (c : Cpu.CPU) (a : Z) :
  reachable (Cpu.init imem data_words io tick_limit) c ->
  Cpu._halted c = false ->
  Cpu._phase c = Cpu.EXEC ->
  Cpu._step c = 0 ->
  Cpu.ir c = Some (Isa.mkInstr Isa.JZ a) ->
  exists c',
    Cpu.step_tick c = Ok c' /\
    Datapath.stack (Cpu.dp c') = tail (Datapath.stack (Cpu.dp c)) /\
    fst (Datapath.data_pop (Cpu.dp (Cpu.begin_tick c)))
      = hd 0 (Datapath.stack (Cpu.dp c)) /\
    Datapath.zero (Cpu.dp c) = (hd 0 (Datapath.stack (Cpu.dp c)) =? 0) /\
    Cpu.pc c' = (if Datapath.zero (Cpu.dp c) then a else Cpu.pc c) /\
    (Datapath.stack (Cpu.dp c) = [] ->
       Datapath.zero (Cpu.dp c) = true /\ Cpu.pc c' = a /\
       fst (Datapath.data_pop (Cpu.dp (Cpu.begin_tick c))) = 0 /\
       Datapath.stack (Cpu.dp c') = []).
Proof.
  intros Hr Hh Hph Hst Hir.
  pose proof (reachable_invariant _ _ (init_invariant _ _ _ _) Hr) as [Hm Hf].
  assert (Hfr : fresh (Cpu.dp c)).
  { destruct Hf as [Hf|(_ & Hs1 & _)]; [exact Hf|]. rewrite Hst in Hs1. discriminate. }
  pose proof (fresh_zero _ Hm Hfr) as Hz.
  destruct c as [im d r p irr tk tl nv io0 ie ii ph st hl lp li ta tv tal].
  simpl in *. subst.
  unfold Cpu.step_tick. simpl.
  eexists. split; [reflexivity|].
  destruct d as [m stk t0 s0 ar0 ior z sg lr lw la ma]. simpl in *.
  destruct stk as [|x rest]; simpl in *.
  - subst z. repeat split.
  - repeat split; try assumption; try discriminate;
      destruct z; reflexivity.
Qed.

Lemma jz_demo_reachable : reachable jz_demo_start jz_demo_state.
Proof.
  eapply reach_tick; [eapply reach_tick; [apply reach_start|]|]; reflexivity.
Qed.

Lemma jz_pops_and_tests_old_top_witness :
  exists c',
    Cpu.step_tick jz_demo_state = Ok c' /\
    Datapath.stack (Cpu.dp c') = tail (Datapath.stack (Cpu.dp jz_demo_state)) /\
    fst (Datapath.data_pop (Cpu.dp (Cpu.begin_tick jz_demo_state)))
      = hd 0 (Datapath.stack (Cpu.dp jz_demo_state)) /\
    Datapath.zero (Cpu.dp jz_demo_state)
      = (hd 0 (Datapath.stack (Cpu.dp jz_demo_state)) =? 0) /\
    Cpu.pc c' = (if Datapath.zero (Cpu.dp jz_demo_state) then 5
                 else Cpu.pc jz_demo_state) /\
    (Datapath.stack (Cpu.dp jz_demo_state) = [] ->
       Datapath.zero (Cpu.dp jz_demo_state) = true /\ Cpu.pc c' = 5 /\
       fst (Datapath.data_pop (Cpu.dp (Cpu.begin_tick jz_demo_state))) = 0 /\
       Datapath.stack (Cpu.dp c') = []).
Proof.
  apply (jz_pops_and_tests_old_top [Isa.mkInstr Isa.JZ 5] 1 10 (Io.init [])
                                   jz_demo_state 5);
    try reflexivity.
  exact jz_demo_reachable.
Defined.

(** ** Allocation of [long] variables *)

(** The first declaration of a name as [long] moves the bump allocator by
    one word only: [alloc_var] runs before the type is recorded. *)
Lemma first_long_decl_one_word (cg : Codegen.Codegen) (name : string) :
  Codegen.vars cg !! name = None ->
  Codegen.var_types cg !! name = None ->
  Codegen.vars (Codegen.gen_var_decl cg "long" name) !! name
    = Some (Codegen.data_next cg) /\
  Codegen.data_next (Codegen.gen_var_decl cg "long" name) = Codegen.data_next cg + 1.
Proof.
  intros Hv Ht. unfold Codegen.gen_var_decl, Codegen.alloc_var.
  rewrite Hv. simpl. rewrite Ht. simpl. split; [apply lookup_insert_eq|reflexivity].
Qed.

(** C6, as the code behaves.  After [long a; int b;] the
    variable [a] is recorded as [long] at address 0 and [b] is at address 1,
    the cell meant for the high word of [a]; two words have
    been allocated in all. *)
Theorem long_decl_overlaps_next_variable :
  exists cg,
    Codegen.gen_stmts long_decl_stmts Codegen.init = Ok cg /\
    Codegen.var_types cg !! "a" = Some "long" /\
    Codegen.vars cg !! "a" = Some 0 /\
    Codegen.vars cg !! "b" = Some (0 + 1) /\
    Codegen.data_next cg = 2.
Proof.
  eexists. split; [vm_compute; reflexivity|].
  repeat split; vm_compute; reflexivity.
Qed.

(** ** 64-bit addition *)

(** [LE] compares the second of stack (first operand pushed) with the top. *)
Lemma alu_le_operands (d d' : Datapath.DataPath) :
  Datapath.alu_compute d Isa.LE = Ok d' ->
  Datapath._last_alu d'
  = if Z.land (Datapath.s d) Datapath.MASK32 <=? Z.land (Datapath.t d) Datapath.MASK32
    then 1 else 0.
Proof. intros [= <-]. reflexivity. Qed.

(** C1, as the code behaves.  The binary generated for
    [c = a + b] on [long] variables, run on the machine:
    1 + 2 yields low word 3 and high word 1 (the high word is incremented
    although the low addition did not wrap), 0xFFFFFFFF + 2 yields low word
    1 and high word 0 (the carry is lost), and (7 * 2^32 + 5) +
    (1 * 2^32 + 0xFFFFFFFC) yields high word 8 instead of 9. *)
Theorem long_add_carry_is_wrong :
  run_long_add 1 0 2 0 = Ok (true, [3; 1]) /\
  run_long_add 0xFFFFFFFF 0 2 0 = Ok (true, [1; 0]) /\
  run_long_add 5 7 0xFFFFFFFC 1 = Ok (true, [1; 8]).
Proof. repeat split; vm_compute; reflexivity. Qed.

(** ** The code generator: labels, code growth and jump arguments *)

Section CodegenFacts.
Import Isa Ast Codegen.

Lemma Expr_nested_ind (P : Expr -> Prop) :
  (forall v, P (IntLit v)) ->
  (forall n, P (Var n)) ->
  (forall op a b, P a -> P b -> P (BinOp op a b)) ->
  (forall name args, Forall P args -> P (Call name args)) ->
  forall e, P e.
Proof.
  intros Hi Hv Hb Hc. fix IH 1. intros [v|n|op a b|name args].
  - apply Hi.
  - apply Hv.
  - apply Hb; apply IH.
  - apply Hc. induction args as [|x rest IHr]; constructor; [apply IH|exact IHr].
Qed.

Lemma Stmt_nested_ind (P : Stmt -> Prop) :
  (forall vt n, P (VarDecl vt n)) ->
  (forall n e, P (Assign n e)) ->
  (forall c body, Forall P body -> P (While c body)) ->
  (forall e, P (PrintInt e)) ->
  (forall t, P (PrintStr t)) ->
  (forall e, P (PrintChar e)) ->
  P Break ->
  (forall c tb eb,
     Forall P tb -> (forall l, eb = Some l -> Forall P l) -> P (If c tb eb)) ->
  (forall n args, P (CallStmt n args)) ->
  forall s, P s.
Proof.
  intros H1 H2 H3 H4 H5 H6 H7 H8 H9. fix IH 1.
  intros [vt n|n e|c body|e|t|e| |c tb eb|n args].
  - apply H1.
  - apply H2.
  - apply H3. induction body as [|x rest IHr]; constructor; [apply IH|exact IHr].
  - apply H4.
  - apply H5.
  - apply H6.
  - exact H7.
  - apply H8.
    + induction tb as [|x rest IHr]; constructor; [apply IH|exact IHr].
    + destruct eb as [l0|]; [|discriminate].
      intros l [= <-].
      induction l0 as [|x rest IHr]; constructor; [apply IH|exact IHr].
  - apply H9.
Qed.

Lemma here_nonneg (cg : Codegen) : 0 <= here cg.
Proof. unfold here. lia. Qed.

Lemma keeps_refl (cg : Codegen) : keeps cg cg.
Proof. repeat split; auto. Qed.

Lemma keeps_trans (a b c : Codegen) : keeps a b -> keeps b c -> keeps a c.
Proof.
  intros (L1 & N1 & J1) (L2 & N2 & J2). repeat split; [congruence|lia|auto].
Qed.

Lemma keeps_emit (a b : Codegen) (op : Opcode) (x : Z) :
  keeps a b -> jump_arg_ok 0 (mkInstr op x) -> keeps a (emit b op x).
Proof.
  intros (L & N & J) Hx. unfold emit. repeat split; simpl.
  - exact L.
  - rewrite length_app. simpl. lia.
  - intros H. apply Forall_app. split; [auto|]. constructor; [exact Hx|constructor].
Qed.

Lemma keeps_emits (a b : Codegen) (l : list Instr) :
  keeps a b -> Forall (jump_arg_ok 0) l -> keeps a (emits b l).
Proof.
  intros K Hl. revert b K. unfold emits.
  induction Hl as [|i l Hi _ IH]; intros b K; simpl; [exact K|].
  apply IH. apply keeps_emit; [exact K|]. destruct i; exact Hi.
Qed.

Lemma keeps_alloc_var (a b c : Codegen) (name : string) (x : Z) :
  alloc_var b name = (x, c) -> keeps a b -> keeps a c.
Proof.
  intros E K. unfold alloc_var in E.
  destruct (vars b !! name); [injection E as _ <-; exact K|].
  destruct (var_types _ !! name) as [ty|]; [destruct (String.eqb ty "long")|];
    injection E as _ <-; exact K.
Qed.

Lemma keeps_alloc_buffer (a b c : Codegen) (words x : Z) :
  alloc_buffer b words = (x, c) -> keeps a b -> keeps a c.
Proof. intros [= _ <-] K. exact K. Qed.

Lemma keeps_set_break_stack (a b : Codegen) (v : list (list Z)) :
  keeps a b -> keeps a (set_break_stack b v).
Proof. exact id. Qed.

Lemma keeps_set_var_types (a b : Codegen) (v : gmap string string) :
  keeps a b -> keeps a (set_var_types b v).
Proof. exact id. Qed.

Lemma keeps_set_array_bases (a b : Codegen) (v : gmap string Z) :
  keeps a b -> keeps a (set_array_bases b v).
Proof. exact id. Qed.

Lemma keeps_set_string_bases (a b : Codegen) (v : gmap string Z) :
  keeps a b -> keeps a (set_string_bases b v).
Proof. exact id. Qed.

Lemma py_setitem_Forall {A : Type} (P : A -> Prop) (l l' : list A) (i : Z) (x : A) :
  py_setitem l i x = Ok l' -> P x -> Forall P l -> Forall P l' /\ length l' = length l.
Proof.
  unfold py_setitem. intros E Hx Hl.
  destruct (_ || _); [discriminate E|]. injection E as <-.
  split; [|apply length_insert].
  apply Forall_insert; assumption.
Qed.

Lemma py_setitem_length {A : Type} (l l' : list A) (i : Z) (x : A) :
  py_setitem l i x = Ok l' -> length l' = length l.
Proof.
  unfold py_setitem. destruct (_ || _); [discriminate|].
  intros [= <-]. apply length_insert.
Qed.

Lemma keeps_patch (a b c : Codegen) (pos v : Z) :
  patch b pos v = Ok c -> 0 <= v -> keeps a b -> keeps a c.
Proof.
  intros E Hv (L & N & J). unfold patch in E.
  destruct (py_index (code b) pos) as [i|]; cbn [rbind] in E; [|discriminate E].
  destruct (py_setitem (code b) pos _) as [l'|] eqn:Es; cbn [rbind] in E;
    [|discriminate E].
  injection E as <-. repeat split; simpl.
  - exact L.
  - rewrite (py_setitem_length _ _ _ _ Es). exact N.
  - intros H. eapply py_setitem_Forall; [exact Es| |auto].
    intros _. exact Hv.
Qed.

Lemma keeps_register_break (a b c : Codegen) (pos : Z) :
  register_break b pos = Ok c -> keeps a b -> keeps a c.
Proof.
  unfold register_break. intros E K.
  destruct (break_stack b); [discriminate E|]. injection E as <-. exact K.
Qed.

Lemma keeps_patch_all (l : list Z) (a b c : Codegen) (v : Z) :
  patch_all b l v = Ok c -> 0 <= v -> keeps a b -> keeps a c.
Proof.
  revert b. induction l as [|pos rest IH]; intros b E Hv K; simpl in E.
  - injection E as <-. exact K.
  - destruct (patch b pos v) as [b'|] eqn:Ep; cbn [rbind] in E; [|discriminate E].
    eapply IH; [exact E|exact Hv|]. eapply keeps_patch; eauto.
Qed.

End CodegenFacts.

Section CodegenKeeps.
Import Isa Ast Codegen.

Ltac cg_split H :=
  repeat (cbv beta iota zeta in H; unfold rbind in H;
          match type of H with
          | Raise _ = Ok _ => discriminate H
          | context [match ?x with _ => _ end] => destruct x eqn:?
          end);
  cbv beta iota zeta in H.

Ltac jump_side :=
  repeat (apply Forall_cons;
          [unfold jump_arg_ok; simpl; intros;
           first [discriminate | apply here_nonneg | lia]|]);
  apply Forall_nil.

Ltac keeps_solve :=
  first
    [ apply keeps_refl
    | assumption
    | apply keeps_emits; [keeps_solve|jump_side]
    | apply keeps_emit;
      [keeps_solve
      |unfold jump_arg_ok; simpl; intros;
       first [discriminate | apply here_nonneg | lia]]
    | apply keeps_set_break_stack; keeps_solve
    | apply keeps_set_var_types; keeps_solve
    | apply keeps_set_array_bases; keeps_solve
    | apply keeps_set_string_bases; keeps_solve
    | match goal with
      | E : alloc_var _ _ = (_, ?c) |- keeps _ ?c =>
          eapply keeps_alloc_var; [exact E|keeps_solve]
      | E : alloc_buffer _ _ = (_, ?c) |- keeps _ ?c =>
          eapply keeps_alloc_buffer; [exact E|keeps_solve]
      | E : patch _ _ _ = Ok ?c |- keeps _ ?c =>
          eapply keeps_patch; [exact E|apply here_nonneg|keeps_solve]
      | E : register_break _ _ = Ok ?c |- keeps _ ?c =>
          eapply keeps_register_break; [exact E|keeps_solve]
      | E : patch_all _ _ _ = Ok ?c |- keeps _ ?c =>
          eapply keeps_patch_all; [exact E|apply here_nonneg|keeps_solve]
      | K : keeps ?b ?c |- keeps _ ?c =>
          apply (fun X => keeps_trans _ _ _ X K); keeps_solve
      end ].

Ltac cg_done H := cg_split H; try (injection H as <-); keeps_solve.

Lemma emit_print_cstr_keeps (cg cg' : Codegen) (addr : Z) :
  _emit_print_cstr cg addr = Ok cg' -> keeps cg cg'.
Proof. unfold _emit_print_cstr. intros H. cg_done H. Qed.

Lemma gen_readInt_keeps (cg cg' : Codegen) : gen_readInt cg = Ok cg' -> keeps cg cg'.
Proof. unfold gen_readInt. intros H. cg_done H. Qed.

Lemma ensure_array_keeps (a b : Codegen) (name : string) :
  keeps a b -> keeps a (ensure_array_initialized b name).
Proof.
  intros K. unfold ensure_array_initialized.
  destruct (array_bases b !! name); [exact K|].
  destruct (alloc_buffer b 128) as [base c1] eqn:E1.
  destruct (alloc_var _ name) as [va c2] eqn:E2. keeps_solve.
Qed.

Lemma emit_chars_keeps (text : list Ascii.ascii) (a b : Codegen) (base i : Z) :
  keeps a b -> keeps a (emit_chars b base i text).
Proof.
  revert b i. induction text as [|ch rest IH]; intros b i K; simpl; [exact K|].
  apply IH. keeps_solve.
Qed.

Lemma ensure_cstr_keeps (a b c : Codegen) (text : string) (x : Z) :
  keeps a b -> _ensure_cstr_literal b text = (x, c) -> keeps a c.
Proof.
  intros K E. unfold _ensure_cstr_literal in E.
  destruct (string_bases b !! text); [injection E as _ <-; exact K|].
  destruct (alloc_buffer b _) as [base c1] eqn:E1.
  destruct (alloc_var _ _) as [va c2] eqn:E2.
  injection E as _ <-.
  assert (keeps a (emit_chars c1 base 0 (String.list_ascii_of_string text)))
    by (apply emit_chars_keeps; keeps_solve).
  keeps_solve.
Qed.

Lemma gen_expr_keeps (e : Expr) :
  forall cg cg', gen_expr e cg = Ok cg' -> keeps cg cg'.
Proof.
  induction e as [v|n|op a b IHa IHb|name args IHargs] using Expr_nested_ind;
    intros cg cg' H; simpl in H.
  - cg_done H.
  - cg_done H.
  - cg_split H; try discriminate H;
      repeat match goal with
             | E : gen_expr a _ = Ok _ |- _ => apply IHa in E
             | E : gen_expr b _ = Ok _ |- _ => apply IHb in E
             end;
      try (injection H as <-); keeps_solve.
  - destruct (String.eqb name "readInt"); [apply gen_readInt_keeps, H|].
    destruct (String.eqb name "readChar"); [cg_done H|].
    destruct (String.eqb name "get"); [|discriminate H].
    destruct args as [|[v|arr|op a b|f l] [|idx [|x rest]]]; try discriminate H.
    inversion IHargs as [|? ? _ Hrest]; subst.
    inversion Hrest as [|? ? Hidx _]; subst.
    pose proof (ensure_array_keeps cg cg arr (keeps_refl cg)) as K0.
    cg_split H; try discriminate H.
    match goal with E : gen_expr idx _ = Ok _ |- _ => apply Hidx in E end.
    injection H as <-. keeps_solve.
Qed.

Ltac expr_facts :=
  repeat match goal with
         | E : gen_expr _ _ = Ok _ |- _ => apply gen_expr_keeps in E
         | E : _emit_print_cstr _ _ = Ok _ |- _ => apply emit_print_cstr_keeps in E
         end.

Lemma gen_readString_keeps (cg cg' : Codegen) (name : string) :
  gen_readString cg name = Ok cg' -> keeps cg cg'.
Proof. unfold gen_readString. intros H. cg_done H. Qed.

Lemma gen_load_long_keeps (a b : Codegen) (var : string) :
  keeps a b -> keeps a (gen_load_long b var).
Proof.
  intros K. unfold gen_load_long.
  destruct (alloc_var b var) as [addr c] eqn:E. keeps_solve.
Qed.

Lemma gen_long_add_keeps (cg cg' : Codegen) (base : Z) (va vb : string) :
  gen_long_add cg base va vb = Ok cg' -> keeps cg cg'.
Proof.
  unfold gen_long_add. intros H.
  pose proof (gen_load_long_keeps cg _ vb
                (gen_load_long_keeps cg cg va (keeps_refl cg))) as K0.
  cg_done H.
Qed.

Lemma gen_assign_keeps (cg cg' : Codegen) (name : string) (expr : Expr) :
  gen_assign cg name expr = Ok cg' -> keeps cg cg'.
Proof.
  unfold gen_assign. intros H.
  cg_split H; try discriminate H;
    repeat match goal with
           | E : gen_readString _ _ = Ok _ |- _ => apply gen_readString_keeps in E
           | E : gen_long_add _ _ _ _ = Ok _ |- _ => apply gen_long_add_keeps in E
           end;
    expr_facts; try (injection H as <-); keeps_solve.
Qed.

Lemma gen_call_stmt_keeps (cg cg' : Codegen) (name : string) (args : list Expr) :
  gen_call_stmt cg name args = Ok cg' -> keeps cg cg'.
Proof.
  unfold gen_call_stmt. intros H.
  destruct args as [|e1 [|e2 [|e3 [|e4 rest]]]].
  - cg_done H.
  - cg_split H; try discriminate H; expr_facts; try (injection H as <-); keeps_solve.
  - destruct e1; discriminate H.
  - destruct e1 as [v|arr|op a b|f l]; try discriminate H.
    destruct (String.eqb name "set"); [|discriminate H].
    pose proof (ensure_array_keeps cg cg arr (keeps_refl cg)) as K0.
    cg_split H; try discriminate H; expr_facts; injection H as <-; keeps_solve.
  - destruct e1; discriminate H.
Qed.

Lemma gen_var_decl_keeps (cg : Codegen) (vtype name : string) :
  keeps cg (gen_var_decl cg vtype name).
Proof.
  unfold gen_var_decl.
  destruct (alloc_var cg name) as [x c1] eqn:E1.
  destruct (String.eqb vtype "string"); [|keeps_solve].
  destruct (alloc_buffer _ 64) as [base c2] eqn:E2.
  destruct (alloc_var c2 name) as [va c3] eqn:E3. keeps_solve.
Qed.

Lemma stmts_with_keeps (l : list Stmt) :
  Forall stmt_keeps l ->
  forall cg cg', stmts_with gen_stmt l cg = Ok cg' -> keeps cg cg'.
Proof.
  induction 1 as [|st rest Hst _ IH]; intros cg cg' H; simpl in H.
  - injection H as <-. apply keeps_refl.
  - destruct (gen_stmt st cg) as [c1|] eqn:E; cbn [rbind] in H; [|discriminate H].
    eapply keeps_trans; [apply Hst, E|apply IH, H].
Qed.

Lemma while_body_keeps (l : list Stmt) :
  Forall stmt_keeps l ->
  forall cg cg', while_body gen_stmt l cg = Ok cg' -> keeps cg cg'.
Proof.
  induction 1 as [|st rest Hst _ IH]; intros cg cg' H; simpl in H.
  - injection H as <-. apply keeps_refl.
  - match type of H with
    | rbind ?m _ = _ => destruct m as [c1|] eqn:E; cbn [rbind] in H; [|discriminate H]
    end.
    eapply keeps_trans; [|apply IH, H].
    destruct st; try (apply Hst, E). keeps_solve.
Qed.

Lemma gen_stmt_keeps (s : Stmt) : stmt_keeps s.
Proof.
  induction s as [vt n|n e|c body IHb|e|txt|e| |c tb eb IHt IHe|n args]
    using Stmt_nested_ind; intros cg cg' H; simpl in H.
  - injection H as <-. apply gen_var_decl_keeps.
  - apply gen_assign_keeps in H. exact H.
  - cg_split H; try discriminate H; expr_facts.
    match goal with
    | E : while_body _ _ _ = Ok _ |- _ => apply (while_body_keeps _ IHb) in E
    end.
    keeps_solve.
  - cg_split H; try discriminate H; expr_facts; injection H as <-; keeps_solve.
  - destruct (_ensure_cstr_literal cg txt) as [va c1] eqn:E1.
    apply emit_print_cstr_keeps in H.
    eapply keeps_trans; [|exact H].
    eapply ensure_cstr_keeps; [apply keeps_refl|exact E1].
  - cg_split H; try discriminate H; expr_facts; try (injection H as <-); keeps_solve.
  - cg_split H; try discriminate H; keeps_solve.
  - destruct eb as [l0|].
    + specialize (IHe l0 eq_refl).
      cg_split H; try discriminate H; expr_facts;
        repeat match goal with
               | E : stmts_with _ tb _ = Ok _ |- _ => apply (stmts_with_keeps _ IHt) in E
               | E : stmts_with _ l0 _ = Ok _ |- _ => apply (stmts_with_keeps _ IHe) in E
               end;
        keeps_solve.
    + cg_split H; try discriminate H; expr_facts;
        repeat match goal with
               | E : stmts_with _ tb _ = Ok _ |- _ => apply (stmts_with_keeps _ IHt) in E
               end;
        keeps_solve.
  - apply gen_call_stmt_keeps in H. exact H.
Qed.

Lemma gen_stmts_keeps (l : list Stmt) (cg cg' : Codegen) :
  gen_stmts l cg = Ok cg' -> keeps cg cg'.
Proof.
  apply stmts_with_keeps. apply Forall_forall. intros s _. apply gen_stmt_keeps.
Qed.

End CodegenKeeps.

Section CodegenLayout.
Import Isa Ast Codegen.

Lemma gen_func_spec (f : Func) (cg cg' : Codegen) :
  gen_func f cg = Ok cg' ->
  labels cg' = <[fname f := here cg]> (labels cg) /\
  (length (code cg) < length (code cg'))%nat /\
  (Forall (jump_arg_ok 0) (code cg) -> Forall (jump_arg_ok 0) (code cg')).
Proof.
  unfold gen_func. intros H.
  destruct (gen_stmts (fbody f) _) as [c1|] eqn:E; cbn [rbind] in H; [|discriminate H].
  apply gen_stmts_keeps in E. destruct E as (L & N & J). simpl in L, N, J.
  assert (X : exists op, cg' = emit c1 op 0 /\ is_jump op = false).
  { destruct (String.eqb (fname f) "main"); [injection H as <-; eexists; split; reflexivity|].
    destruct (_is_irq_func (fname f)); injection H as <-; eexists; split; reflexivity. }
  destruct X as (op & -> & Hop). unfold emit. simpl. repeat split.
  - exact L.
  - rewrite length_app. simpl. lia.
  - intros Hj. apply Forall_app. split; [auto|].
    constructor; [|constructor]. unfold jump_arg_ok. simpl. congruence.
Qed.

Lemma gen_funcs_spec (l : list Func) :
  forall cg cg',
    gen_funcs l cg = Ok cg' ->
    (length (code cg) <= length (code cg'))%nat /\
    (Forall (jump_arg_ok 0) (code cg) -> Forall (jump_arg_ok 0) (code cg')) /\
    (labels_in_code cg -> labels_in_code cg') /\
    (forall f, In f l -> is_Some (labels cg' !! fname f)) /\
    (forall name, is_Some (labels cg !! name) -> is_Some (labels cg' !! name)).
Proof.
  induction l as [|f rest IH]; intros cg cg' H; simpl in H.
  - injection H as <-.
    split; [lia|]. split; [exact id|]. split; [exact id|].
    split; [intros f []|intros name Hs; exact Hs].
  - destruct (gen_func f cg) as [c1|] eqn:E; cbn [rbind] in H; [|discriminate H].
    apply gen_func_spec in E. destruct E as (L & N & J).
    destruct (IH _ _ H) as (N' & J' & LC & Hin & Hmono).
    split; [|split; [|split; [|split]]].
    + lia.
    + auto.
    + intros Hlc. apply LC. intros name off Hl. rewrite L in Hl.
      destruct (decide (fname f = name)) as [Heq|Hne]; [subst name|].
      * rewrite lookup_insert_eq in Hl. injection Hl as <-. unfold here. lia.
      * rewrite lookup_insert_ne in Hl by exact Hne.
        apply Hlc in Hl. lia.
    + intros g [<-|Hg]; [|apply Hin, Hg].
      apply Hmono. rewrite L, lookup_insert_eq. eexists; reflexivity.
    + intros name Hs. apply Hmono. rewrite L.
      destruct (decide (fname f = name)) as [Heq|Hne]; [subst name|].
      * rewrite lookup_insert_eq. eexists; reflexivity.
      * rewrite lookup_insert_ne by exact Hne. exact Hs.
Qed.

Lemma relocate_jump (v : Z) (ins : Instr) :
  is_jump (opcode ins) = true -> relocate v ins = mkInstr (opcode ins) (arg ins + v).
Proof. unfold relocate. intros ->. reflexivity. Qed.


Lemma relocate_opcode (v : Z) (ins : Instr) : opcode (relocate v ins) = opcode ins.
Proof. unfold relocate. destruct (is_jump (opcode ins)); reflexivity. Qed.

Lemma vector_table_length (lbls : gmap string Z) (v : Z) :
  length (vector_table lbls v) = 8%nat.
Proof. reflexivity. Qed.

Lemma vector_table_irq (lbls : gmap string Z) (v : Z) (n : nat) :
  (1 <= n < 8)%nat -> vector_table lbls v !! n = Some (irq_vector lbls v n).
Proof.
  intros Hn.
  destruct n as [|[|[|[|[|[|[|[|n]]]]]]]]; try lia; reflexivity.
Qed.

End CodegenLayout.



(** ** Every tick counts, so the runner's loop is not cut short *)

Lemma exec_tick (c c' : Cpu.CPU) :
  Cpu.exec c = Ok c' ->
  Cpu.tick c' = Cpu.tick c + 1 /\ Cpu.tick_limit c' = Cpu.tick_limit c.
Proof.
  intros H.
  destruct c as [im d r p irr tk tl nv io0 ie ii ph st hl lp li ta tv tal].
  unfold Cpu.exec, Cpu.unhandled, Cpu.pop_return, Datapath.dm_read,
    Datapath.dm_write, Datapath.io_write_commit, py_index, py_setitem, rbind in H.
  simpl in H. destruct irr as [[op a]|]; [|discriminate H].
  destruct op; split_result H; injection H as <-; split; reflexivity.
Qed.

Lemma step_tick_tick (c c' : Cpu.CPU) :
  Cpu._halted c = false ->
  Cpu.step_tick c = Ok c' ->
  Cpu.tick c' = Cpu.tick c + 1 /\ Cpu.tick_limit c' = Cpu.tick_limit c.
Proof.
  intros Hh H. unfold Cpu.step_tick in H. rewrite Hh in H.
  destruct (Cpu._phase (Cpu.begin_tick c)).
  - unfold Cpu.maybe_raise_irq, Cpu.fetch in H.
    destruct (negb _ || _);
      [|destruct (Io.irq_pending _); [injection H as <-; split; reflexivity|]];
      cbv beta iota zeta in H;
      (destruct (py_index _ _); cbn [rbind] in H; [|discriminate H]);
      injection H as <-; split; reflexivity.
  - injection H as <-. split; reflexivity.
  - apply exec_tick in H. exact H.
Qed.

(** With [tick_limit - tick] iterations available the loop stops only
    because its condition fails: the tick limit is reached or the machine
    halted. *)
Lemma run_loop_complete (dp_z : Cpu.CPU -> string) (fuel : nat) :
  forall (trace : bool) (c c' : Cpu.CPU) (out out' : list string),
    Cpu.tick_limit c - Cpu.tick c <= Z.of_nat fuel ->
    Runner.run_loop dp_z fuel trace c out = Ok (c', out') ->
    Cpu.tick_limit c' <= Cpu.tick c' \/ Cpu._halted c' = true.
Proof.
  induction fuel as [|fuel IH]; intros trace c c' out out' Hf H;
    cbn [Runner.run_loop] in H.
  - injection H as <- <-. left. lia.
  - destruct (Z.ltb_spec (Cpu.tick c) (Cpu.tick_limit c)) as [Hlt|Hge];
      [|injection H as <- <-; left; lia].
    destruct (Cpu._halted c) eqn:Hh; cbn [negb andb] in H;
      [injection H as <- <-; right; exact Hh|].
    cbv zeta in H.
    destruct (Cpu.step_tick c) as [c1|] eqn:Es; cbn [rbind] in H; [|discriminate H].
    destruct (step_tick_tick _ _ Hh Es) as [Ht Hl].
    eapply IH; [|exact H]. lia.
Qed.

(** ** The carry test of the long addition, at the ALU *)

(** The emitted order: [a_lo - 1] is pushed first and [lo_sum] second, so
    [LE] answers [(a_lo - 1) <= lo_sum].  Whenever [a_lo] is not zero and
    the low addition does not wrap, that test fires. *)
Lemma emitted_test_fires_without_carry (a_lo b_lo : Z) :
  0 < a_lo -> 0 <= b_lo -> a_lo + b_lo < 2 ^ 32 ->
  exists am1 lo_sum,
    Datapath.alu_result Isa.SUB a_lo 1 = Ok am1 /\
    Datapath.alu_result Isa.ADD a_lo b_lo = Ok lo_sum /\
    Datapath.alu_result Isa.LE am1 lo_sum = Ok 1.
Proof.
  intros Ha Hb Hs. eexists. eexists. split; [reflexivity|]. split; [reflexivity|].
  simpl. change Datapath.MASK32 with (Z.ones 32).
  rewrite !Z.land_ones by lia.
  rewrite !Z.mod_small by lia.
  destruct (Z.leb_spec (a_lo - 1) (a_lo + b_lo)); [reflexivity|lia].
Qed.

(** The order the comments describe, [lo_sum <= (a_lo - 1)], is not a carry
    test at [a_lo = 0] either: [a_lo - 1] wraps to the largest word and the
    test holds for every [b_lo], though [0 + b_lo] never wraps. *)
Lemma described_test_fires_at_zero (b_lo : Z) :
  0 <= b_lo < 2 ^ 32 ->
  exists am1 lo_sum,
    Datapath.alu_result Isa.SUB 0 1 = Ok am1 /\
    Datapath.alu_result Isa.ADD 0 b_lo = Ok lo_sum /\
    Datapath.alu_result Isa.LE lo_sum am1 = Ok 1.
Proof.
  intros Hb. eexists. eexists. split; [reflexivity|]. split; [reflexivity|].
  simpl. change (Z.land (0 - 1) Datapath.MASK32) with 4294967295.
  change Datapath.MASK32 with (Z.ones 32).
  rewrite Z.land_ones by lia. rewrite Z.mod_small by lia.
  destruct (Z.leb_spec (0 + b_lo) 4294967295); [reflexivity|lia].
Qed.

(** * Further properties of the code *)

(** ** The binary format *)

Lemma Opcode_of_int_sound (v : Z) (o : Isa.Opcode) :
  Isa.Opcode_of_int v = Ok o -> Isa.opcode_int o = v.
Proof.
  unfold Isa.Opcode_of_int.
  destruct (find _ Isa.opcodes) as [o'|] eqn:E; [|discriminate].
  intros [= <-]. apply find_some in E. apply Z.eqb_eq, E.
Qed.

Lemma byte_of_int_of_byte (b : byte) : Isa.byte_of_int (Isa.int_of_byte b) = b.
Proof.
  unfold Isa.byte_of_int, Isa.int_of_byte.
  rewrite N2Z.id, Byte.of_to_N. reflexivity.
Qed.

Lemma decode_word_sum (b0 b1 b2 b3 : byte) :
  Isa.decode_word b0 b1 b2 b3
  = Isa.int_of_byte b3 * 2 ^ 24 + Isa.int_of_byte b2 * 2 ^ 16
    + Isa.int_of_byte b1 * 2 ^ 8 + Isa.int_of_byte b0.
Proof.
  unfold Isa.decode_word.
  pose proof (int_of_byte_range b0). pose proof (int_of_byte_range b1).
  pose proof (int_of_byte_range b2). pose proof (int_of_byte_range b3).
  rewrite (Z.lor_comm (Isa.int_of_byte b0)), lor_shiftl_add by lia.
  rewrite (Z.lor_comm _ (Z.shiftl _ 16)), lor_shiftl_add by lia.
  rewrite (Z.lor_comm _ (Z.shiftl _ 24)), lor_shiftl_add by lia.
  lia.
Qed.

(** What [decode_instr] returns for a 32-bit word: the opcode whose value
    is the top byte, and an argument that fits its slot and has the low 24
    bits of the word. *)
Lemma decode_instr_sound (w : Z) (ins : Isa.Instr) :
  0 <= w < 2 ^ 32 ->
  Isa.decode_instr w = Ok ins ->
  Isa.opcode_int (Isa.opcode ins) = w / 2 ^ 24 /\
  Isa.arg ins mod 2 ^ 24 = w mod 2 ^ 24 /\
  arg_fits ins.
Proof.
  intros Hw. unfold Isa.decode_instr.
  rewrite land_255, land_24, Z.shiftr_div_pow2 by lia.
  destruct (Isa.Opcode_of_int _) as [o|] eqn:E; cbn [rbind]; [|discriminate].
  apply Opcode_of_int_sound in E.
  pose proof (Z.mod_pos_bound w (2 ^ 24) ltac:(lia)) as Ha.
  rewrite sign_bit_test by lia.
  intros [= <-]. cbn [Isa.opcode Isa.arg]. split; [|split].
  - rewrite E. apply Z.mod_small. Z.div_mod_to_equations; lia.
  - destruct (Isa.opcode_eqb o Isa.PUSHI && negb (w mod 2 ^ 24 <? 2 ^ 23));
      [|apply Z.mod_mod; lia].
    change (Z.shiftl 1 24) with (2 ^ 24).
    Z.div_mod_to_equations; lia.
  - unfold arg_fits. cbn [Isa.opcode Isa.arg].
    change (Z.shiftl 1 24) with (2 ^ 24).
    destruct o; cbn; try lia.
    destruct (Z.ltb_spec (w mod 2 ^ 24) (2 ^ 23)); cbn; lia.
Qed.

Lemma decode_word_range (b0 b1 b2 b3 : byte) :
  0 <= Isa.decode_word b0 b1 b2 b3 < 2 ^ 32.
Proof.
  rewrite decode_word_sum.
  pose proof (int_of_byte_range b0). pose proof (int_of_byte_range b1).
  pose proof (int_of_byte_range b2). pose proof (int_of_byte_range b3). lia.
Qed.

(** X1.  The binary of a list of instructions has exactly four bytes per
    instruction. *)
Theorem encode_length (instrs : list Isa.Instr) :
  length (Isa.encode instrs) = (4 * length instrs)%nat.
Proof.
  induction instrs as [|ins rest IH]; [reflexivity|].
  cbn [Isa.encode length]. rewrite IH. lia.
Qed.

(** X2.  Fewer than four bytes after the last complete word are ignored by
    [decode]. *)
Theorem decode_ignores_partial_word (n : nat) (blob tail : list byte) :
  length blob = (4 * n)%nat ->
  (length tail < 4)%nat ->
  Isa.decode (blob ++ tail) = Isa.decode blob.
Proof.
  revert blob. induction n as [|n IH]; intros blob Hlen Htail.
  - destruct blob; [|discriminate Hlen]. simpl.
    destruct tail as [|t0 [|t1 [|t2 [|t3 tl]]]]; try reflexivity.
    simpl in Htail. lia.
  - destruct blob as [|b0 [|b1 [|b2 [|b3 rest]]]]; simpl in Hlen; try lia.
    cbn [app Isa.decode].
    rewrite IH by (simpl; lia). reflexivity.
Qed.

Lemma decode_ignores_partial_word_witness :
  Isa.decode ([x01; x00; x00; x01] ++ [xff; xff; xff])
  = Isa.decode [x01; x00; x00; x01].
Proof.
  apply (decode_ignores_partial_word 1 [x01; x00; x00; x01] [xff; xff; xff]).
  - reflexivity.
  - simpl. lia.
Defined.

(** X3.  A blob that decodes gives one instruction per complete 4-byte
    word, each with an argument that fits its slot: a [PUSHI] immediate in
    [-2^23, 2^23), any other argument in [0, 2^24). *)
Theorem decode_shape (blob : list byte) (code : list Isa.Instr) :
  Isa.decode blob = Ok code ->
  length code = (length blob / 4)%nat /\ Forall arg_fits code.
Proof.
  remember (length blob) as n eqn:Hn. revert blob code Hn.
  induction n as [n IH] using lt_wf_ind. intros blob code Hn H.
  destruct blob as [|b0 [|b1 [|b2 [|b3 rest]]]];
    try (injection H as <-; subst n; split; [reflexivity|constructor]).
  cbn [Isa.decode] in H.
  destruct (Isa.decode_instr _) as [ins|] eqn:Ei; cbn [rbind] in H; [|discriminate H].
  destruct (Isa.decode rest) as [tl|] eqn:Er; cbn [rbind] in H; [|discriminate H].
  injection H as <-.
  destruct (IH (length rest) ltac:(subst n; simpl; lia) rest tl eq_refl Er) as [Hl Hf].
  split.
  - subst n. cbn [length]. rewrite Hl.
    change (S (S (S (S (length rest))))) with (1 * 4 + length rest)%nat.
    rewrite Nat.div_add_l by lia. reflexivity.
  - constructor; [|exact Hf].
    eapply decode_instr_sound; [apply decode_word_range|exact Ei].
Qed.

Lemma decode_shape_witness :
  length [Isa.mkInstr Isa.PUSHI (-1); Isa.mkInstr Isa.HALT 0]
  = (length [xff; xff; xff; x01; x00; x00; x00; xff; x07] / 4)%nat /\
  Forall arg_fits [Isa.mkInstr Isa.PUSHI (-1); Isa.mkInstr Isa.HALT 0].
Proof.
  apply (decode_shape [xff; xff; xff; x01; x00; x00; x00; xff; x07]).
  vm_compute. reflexivity.
Defined.

Lemma encode_decode_instr (b0 b1 b2 b3 : byte) (ins : Isa.Instr) :
  Isa.decode_instr (Isa.decode_word b0 b1 b2 b3) = Ok ins ->
  Isa.encode [ins] = [b0; b1; b2; b3].
Proof.
  intros H.
  destruct (decode_instr_sound _ _ (decode_word_range b0 b1 b2 b3) H) as (Ho & Ha & _).
  assert (Hw : Isa.encode_word ins = Isa.decode_word b0 b1 b2 b3).
  { rewrite encode_word_sum, Ho, Ha.
    pose proof (decode_word_range b0 b1 b2 b3). Z.div_mod_to_equations; lia. }
  cbn [Isa.encode]. rewrite Hw, !land_255, !Z.shiftr_div_pow2 by lia.
  rewrite decode_word_sum.
  pose proof (int_of_byte_range b0). pose proof (int_of_byte_range b1).
  pose proof (int_of_byte_range b2). pose proof (int_of_byte_range b3).
  repeat f_equal.
  all: match goal with
       | |- Isa.byte_of_int ?z = ?b =>
           replace z with (Isa.int_of_byte b)
             by (Z.div_mod_to_equations; lia);
           apply byte_of_int_of_byte
       end.
Qed.

(** X4.  Re-encoding what [decode] returned gives back the bytes of the
    complete words of the blob, in order. *)
Theorem encode_decode_roundtrip (blob : list byte) (code : list Isa.Instr) :
  Isa.decode blob = Ok code ->
  Isa.encode code = take (4 * length code) blob.
Proof.
  remember (length blob) as n eqn:Hn. revert blob code Hn.
  induction n as [n IH] using lt_wf_ind. intros blob code Hn H.
  destruct blob as [|b0 [|b1 [|b2 [|b3 rest]]]];
    try (injection H as <-; reflexivity).
  cbn [Isa.decode] in H.
  destruct (Isa.decode_instr _) as [ins|] eqn:Ei; cbn [rbind] in H; [|discriminate H].
  destruct (Isa.decode rest) as [tl|] eqn:Er; cbn [rbind] in H; [|discriminate H].
  injection H as <-.
  pose proof (IH (length rest) ltac:(subst n; simpl; lia) rest tl eq_refl Er) as Hr.
  apply encode_decode_instr in Ei.
  change (Isa.encode (ins :: tl)) with (Isa.encode [ins] ++ Isa.encode tl).
  rewrite Ei, Hr.
  replace (4 * length (ins :: tl))%nat with (S (S (S (S (4 * length tl)))))
    by (simpl; lia).
  reflexivity.
Qed.

Lemma encode_decode_roundtrip_witness :
  Isa.encode [Isa.mkInstr Isa.PUSHI (-1); Isa.mkInstr Isa.HALT 0]
  = take (4 * length [Isa.mkInstr Isa.PUSHI (-1); Isa.mkInstr Isa.HALT 0])
         [xff; xff; xff; x01; x00; x00; x00; xff; x07].
Proof.
  apply (encode_decode_roundtrip [xff; xff; xff; x01; x00; x00; x00; xff; x07]).
  vm_compute. reflexivity.
Defined.

(** ** The I/O controller *)

Lemma setdefault_append_lookup {A : Type} (d : gmap Z (list A)) (k k' : Z) (x : A) :
  default [] (Io.setdefault_append d k x !! k')
  = default [] (d !! k') ++ (if decide (k = k') then [x] else []).
Proof.
  unfold Io.setdefault_append. destruct (decide (k = k')) as [->|Hne].
  - rewrite lookup_insert_eq. reflexivity.
  - rewrite lookup_insert_ne by exact Hne. rewrite app_nil_r. reflexivity.
Qed.

Lemma schedule_fold_lookup (l : list Io.IOEvent) (m : gmap Z (list Io.IOEvent)) (t : Z) :
  default [] (fold_left (fun m ev => Io.setdefault_append m (Io.tick ev) ev) l m !! t)
  = default [] (m !! t) ++ filter (fun ev => Io.tick ev = t) l.
Proof.
  revert m. induction l as [|ev rest IH]; intros m; simpl.
  - rewrite app_nil_r. reflexivity.
  - rewrite IH, setdefault_append_lookup, filter_cons.
    destruct (decide (Io.tick ev = t)); rewrite <- app_assoc; reflexivity.
Qed.

(** X5.  The controller built from a schedule holds, for every tick, the
    events of that tick in schedule order. *)
Theorem schedule_groups_by_tick (schedule : list Io.IOEvent) (t : Z) :
  default [] (Io._schedule (Io.init schedule) !! t)
  = filter (fun ev => Io.tick ev = t) schedule /\
  Io._in_queues (Io.init schedule) = ∅ /\
  Io._out_queues (Io.init schedule) = ∅ /\
  Io.irq_pending (Io.init schedule) = None.
Proof.
  split; [|repeat split].
  unfold Io.init. cbn [Io._schedule]. rewrite schedule_fold_lookup.
  rewrite lookup_empty. reflexivity.
Qed.

Lemma on_tick_events_queues (evs : list Io.IOEvent) (io : Io.IOController) (p : Z) :
  default [] (Io._in_queues (fold_left Io.on_tick_event evs io) !! p)
  = default [] (Io._in_queues io !! p)
    ++ map Io.value (filter (fun ev => Io.port ev = p) evs) /\
  Io._out_queues (fold_left Io.on_tick_event evs io) = Io._out_queues io /\
  Io._schedule (fold_left Io.on_tick_event evs io) = Io._schedule io /\
  Io._pending_irq (fold_left Io.on_tick_event evs io)
  = match Io._pending_irq io with
    | Some q => Some q
    | None => Io.port <$> head evs
    end.
Proof.
  revert io. induction evs as [|ev rest IH]; intros io; simpl.
  - rewrite app_nil_r. repeat split. destruct (Io._pending_irq io); reflexivity.
  - destruct (IH (Io.on_tick_event io ev)) as (Hq & Ho & Hs & Hp).
    split; [|split; [|split]].
    + rewrite Hq. cbn [Io.on_tick_event Io._in_queues].
      rewrite setdefault_append_lookup, filter_cons.
      destruct (decide (Io.port ev = p)); rewrite <- app_assoc; reflexivity.
    + rewrite Ho. reflexivity.
    + rewrite Hs. reflexivity.
    + rewrite Hp. cbn [Io.on_tick_event Io._pending_irq].
      destruct (Io._pending_irq io); reflexivity.
Qed.

(** X6.  [on_tick t] appends to each port's input queue the values of the
    events scheduled for tick [t] on that port, in schedule order, and
    touches neither the output queues nor the schedule. *)
Theorem on_tick_delivers_in_order (io : Io.IOController) (t p : Z) :
  default [] (Io._in_queues (Io.on_tick io t) !! p)
  = default [] (Io._in_queues io !! p)
    ++ map Io.value
         (filter (fun ev => Io.port ev = p) (default [] (Io._schedule io !! t))) /\
  Io._out_queues (Io.on_tick io t) = Io._out_queues io /\
  Io._schedule (Io.on_tick io t) = Io._schedule io.
Proof.
  unfold Io.on_tick.
  destruct (on_tick_events_queues (default [] (Io._schedule io !! t)) io p)
    as (Hq & Ho & Hs & _).
  repeat split; assumption.
Qed.

(** X7.  [on_tick t] never replaces a latched IRQ; with no IRQ latched it
    latches the port of the first event of tick [t], and stays empty when
    the tick has no event. *)
Theorem on_tick_latches_first_event (io : Io.IOController) (t : Z) :
  Io.irq_pending (Io.on_tick io t)
  = match Io.irq_pending io with
    | Some q => Some q
    | None => Io.port <$> head (default [] (Io._schedule io !! t))
    end.
Proof.
  unfold Io.on_tick, Io.irq_pending.
  apply (on_tick_events_queues (default [] (Io._schedule io !! t)) io 0).
Qed.

(** X8.  [read_port] is first-in first-out: it returns the head of the
    port's input queue and leaves its tail, returns 0 when the queue is
    empty or the port was never written, and changes no other queue, no
    output and not the IRQ latch. *)
Theorem read_port_fifo (io : Io.IOController) (p : Z) :
  let q := default [] (Io._in_queues io !! p) in
  let r := Io.read_port io p in
  fst r = hd 0 q /\
  default [] (Io._in_queues (snd r) !! p) = tail q /\
  (forall p', p' <> p -> Io._in_queues (snd r) !! p' = Io._in_queues io !! p') /\
  Io._out_queues (snd r) = Io._out_queues io /\
  Io.irq_pending (snd r) = Io.irq_pending io /\
  Io._schedule (snd r) = Io._schedule io.
Proof.
  cbv zeta. unfold Io.read_port.
  destruct (Io._in_queues io !! p) as [[|v q]|] eqn:E; cbn.
  - rewrite E. repeat split.
  - rewrite lookup_insert_eq. repeat split.
    intros p' Hne. apply lookup_insert_ne. congruence.
  - rewrite E. repeat split.
Qed.

Lemma write_port_fold (vs : list Z) (io : Io.IOController) (p p' : Z) :
  default [] (Io.out_dump (fold_left (fun io v => Io.write_port io p v) vs io) !! p')
  = default [] (Io.out_dump io !! p') ++ (if decide (p = p') then vs else []).
Proof.
  revert io. induction vs as [|v rest IH]; intros io; simpl.
  - destruct (decide (p = p')); rewrite app_nil_r; reflexivity.
  - rewrite IH. unfold Io.out_dump, Io.write_port. cbn [Io._out_queues].
    rewrite setdefault_append_lookup.
    destruct (decide (p = p')); rewrite <- app_assoc; reflexivity.
Qed.

(** X9.  Values written to a port appear at the end of that port's output
    queue in the order written; the queues of the other ports do not
    change. *)
Theorem write_port_appends_in_order (vs : list Z) (io : Io.IOController) (p p' : Z) :
  default [] (Io.out_dump (fold_left (fun io v => Io.write_port io p v) vs io) !! p')
  = if decide (p = p')
    then default [] (Io.out_dump io !! p') ++ vs
    else default [] (Io.out_dump io !! p').
Proof.
  rewrite write_port_fold. destruct (decide (p = p')); [reflexivity|].
  apply app_nil_r.
Qed.

(** ** The datapath *)

Lemma land_mask_mod (x : Z) : Z.land x Datapath.MASK32 = x mod 2 ^ 32.
Proof. change Datapath.MASK32 with (Z.ones 32). apply Z.land_ones. lia. Qed.

Lemma sign_bit_mask (x : Z) :
  0 <= x < 2 ^ 32 -> negb (Z.land x 0x80000000 =? 0) = (2 ^ 31 <=? x).
Proof.
  intros Hx. change 0x80000000 with (2 ^ 31). rewrite land_pow2_bit by lia.
  destruct (Z.testbit x 31) eqn:E.
  - apply Z.testbit_true in E; [|lia].
    transitivity true; [reflexivity|]. symmetry. apply Z.leb_le.
    Z.div_mod_to_equations; lia.
  - apply Z.testbit_false in E; [|lia].
    transitivity false; [reflexivity|]. symmetry. apply Z.leb_gt.
    Z.div_mod_to_equations; lia.
Qed.

(** X10.  Popping right after a push returns the pushed value reduced to 32
    bits and leaves the stack as it was, with the latches and flags
    recomputed from it. *)
Theorem push_pop_roundtrip (d : Datapath.DataPath) (v : Z) :
  Datapath.data_pop (Datapath.data_push d v)
  = (v mod 2 ^ 32, Datapath._refresh_tz d).
Proof.
  rewrite <- land_mask_mod. destruct d; reflexivity.
Qed.

Lemma alu_result_range (op : Isa.Opcode) (a b r : Z) :
  0 <= a -> 0 <= b ->
  Datapath.alu_result op a b = Ok r -> 0 <= r < 2 ^ 32.
Proof.
  intros Ha Hb H.
  destruct op; try discriminate H; injection H as <-;
    rewrite ?land_mask_mod; try (apply Z.mod_pos_bound; lia).
  - destruct (b =? 0); [lia|]. apply Z.mod_pos_bound. lia.
  - destruct (a <=? b); lia.
Qed.

(** X11.  Whatever the datapath holds, an ALU operation leaves a 32-bit
    word in the ALU latch, sets [zero] exactly when that word is 0 and
    [sign] exactly when its bit 31 is set, and does not touch the stack or
    the memory; only the five ALU opcodes are accepted. *)
Theorem alu_compute_word_and_flags (d d' : Datapath.DataPath) (op : Isa.Opcode) :
  Datapath.alu_compute d op = Ok d' ->
  Cpu.is_alu op = true /\
  0 <= Datapath._last_alu d' < 2 ^ 32 /\
  Datapath.zero d' = (Datapath._last_alu d' =? 0) /\
  Datapath.sign d' = (2 ^ 31 <=? Datapath._last_alu d') /\
  Datapath.stack d' = Datapath.stack d /\ Datapath.mem d' = Datapath.mem d.
Proof.
  unfold Datapath.alu_compute. intros H.
  destruct (Datapath.alu_result op _ _) as [r|] eqn:E; cbn [rbind] in H;
    [|discriminate H].
  injection H as <-. cbn.
  assert (Hr : 0 <= r < 2 ^ 32).
  { eapply alu_result_range; [| |exact E]; rewrite land_mask_mod;
      apply Z.mod_pos_bound; lia. }
  split; [destruct op; try discriminate E; reflexivity|].
  split; [exact Hr|]. split; [|split; [|split; reflexivity]].
  - rewrite land_mask_mod, Z.mod_small by lia. reflexivity.
  - apply sign_bit_mask, Hr.
Qed.

Lemma alu_compute_word_and_flags_witness :
  Cpu.is_alu Isa.DIV = true /\
  0 <= Datapath._last_alu alu_demo_after < 2 ^ 32 /\
  Datapath.zero alu_demo_after = (Datapath._last_alu alu_demo_after =? 0) /\
  Datapath.sign alu_demo_after = (2 ^ 31 <=? Datapath._last_alu alu_demo_after) /\
  Datapath.stack alu_demo_after = Datapath.stack alu_demo_dp /\
  Datapath.mem alu_demo_after = Datapath.mem alu_demo_dp.
Proof.
  apply (alu_compute_word_and_flags alu_demo_dp alu_demo_after Isa.DIV).
  reflexivity.
Defined.

(** X12.  Arithmetic wraps and never traps.  With [a] pushed first and
    [b] pushed on top of it, whatever the integers [a] and [b] and the
    datapath, the latch [s] holds [a] and the latch [t] holds [b], each
    modulo 2^32, and [alu_compute] succeeds for each of the five
    operations and latches: for ADD, SUB and MUL the sum, difference and
    product modulo 2^32; for DIV the quotient of the second entry by the
    top, 0 when the top is 0; for LE 1 when the second entry is at most
    the top, both read as unsigned words, and 0 otherwise. *)
Theorem alu_compute_arithmetic (d : Datapath.DataPath) (a b : Z) :
  let d2 := Datapath.data_push (Datapath.data_push d a) b in
  let A := a mod 2 ^ 32 in
  let B := b mod 2 ^ 32 in
  Datapath.s d2 = A /\ Datapath.t d2 = B /\
  (exists d', Datapath.alu_compute d2 Isa.ADD = Ok d' /\
              Datapath._last_alu d' = (a + b) mod 2 ^ 32) /\
  (exists d', Datapath.alu_compute d2 Isa.SUB = Ok d' /\
              Datapath._last_alu d' = (a - b) mod 2 ^ 32) /\
  (exists d', Datapath.alu_compute d2 Isa.MUL = Ok d' /\
              Datapath._last_alu d' = (a * b) mod 2 ^ 32) /\
  (exists d', Datapath.alu_compute d2 Isa.DIV = Ok d' /\
              Datapath._last_alu d' = if B =? 0 then 0 else A / B) /\
  (exists d', Datapath.alu_compute d2 Isa.LE = Ok d' /\
              Datapath._last_alu d' = if A <=? B then 1 else 0).
Proof.
  intros d2 A B.
  assert (HA : 0 <= A < 2 ^ 32) by (apply Z.mod_pos_bound; lia).
  assert (HB : 0 <= B < 2 ^ 32) by (apply Z.mod_pos_bound; lia).
  assert (Hs : Datapath.s d2 = A).
  { unfold d2, Datapath.data_push, Datapath._refresh_tz.
    cbn [Datapath.s Datapath.stack Datapath.with_stack].
    rewrite !land_mask_mod, Z.mod_mod by lia. reflexivity. }
  assert (Ht : Datapath.t d2 = B).
  { unfold d2, Datapath.data_push, Datapath._refresh_tz.
    cbn [Datapath.t Datapath.stack Datapath.with_stack].
    rewrite !land_mask_mod, Z.mod_mod by lia. reflexivity. }
  split; [exact Hs|]. split; [exact Ht|].
  unfold Datapath.alu_compute. rewrite Hs, Ht.
  rewrite !(land_mask_mod A), !(land_mask_mod B).
  rewrite !(Z.mod_small A (2 ^ 32)), !(Z.mod_small B (2 ^ 32)) by assumption.
  cbn [Datapath.alu_result rbind Datapath._last_alu].
  rewrite !land_mask_mod.
  split; [|split; [|split; [|split]]]; eexists; (split; [reflexivity|]);
    cbn [Datapath._last_alu].
  - unfold A, B. symmetry. apply Zplus_mod.
  - unfold A, B. symmetry. apply Zminus_mod.
  - unfold A, B. symmetry. apply Zmult_mod.
  - destruct (Z.eqb_spec B 0); [reflexivity|].
    apply Z.mod_small. split; [apply Z.div_pos; lia|].
    apply Z.le_lt_trans with A; [|lia].
    apply Z.div_le_upper_bound; nia.
  - reflexivity.
Qed.

(** ** The single-port data memory *)

Lemma extend_mem_app (m : list Z) (idx : Z) :
  0 <= idx ->
  Datapath.extend_mem m idx = m ++ replicate (Z.to_nat (idx + 1) - length m) 0.
Proof.
  intros Hi. unfold Datapath.extend_mem.
  destruct (Z.leb_spec (Z.of_nat (length m)) idx).
  - f_equal. f_equal. lia.
  - replace (Z.to_nat (idx + 1) - length m)%nat with 0%nat by lia.
    rewrite app_nil_r. reflexivity.
Qed.

Lemma extend_mem_length (m : list Z) (idx : Z) :
  0 <= idx ->
  length (Datapath.extend_mem m idx) = Nat.max (length m) (Z.to_nat (idx + 1)).
Proof.
  intros Hi. rewrite extend_mem_app by exact Hi.
  rewrite length_app, length_replicate. lia.
Qed.

Lemma py_index_in_range {A : Type} (l : list A) (i : Z) :
  0 <= i < Z.of_nat (length l) ->
  exists x, l !! Z.to_nat i = Some x /\ py_index l i = Ok x.
Proof.
  intros Hi. unfold py_index.
  destruct (Z.ltb_spec i 0); [lia|].
  destruct (Z.ltb_spec i 0); [lia|].
  destruct (Z.leb_spec (Z.of_nat (length l)) i); [lia|]. cbn.
  destruct (l !! Z.to_nat i) as [x|] eqn:E; [eauto|].
  apply lookup_ge_None in E. lia.
Qed.

Lemma py_setitem_in_range {A : Type} (l : list A) (i : Z) (x : A) :
  0 <= i < Z.of_nat (length l) ->
  py_setitem l i x = Ok (<[Z.to_nat i := x]> l).
Proof.
  intros Hi. unfold py_setitem.
  destruct (Z.ltb_spec i 0); [lia|].
  destruct (Z.ltb_spec i 0); [lia|].
  destruct (Z.leb_spec (Z.of_nat (length l)) i); [lia|]. reflexivity.
Qed.

(** X13.  A read at a non-negative address, first access of its tick,
    succeeds: memory grows with zeros up to the address when the address is
    past its end and is otherwise unchanged, the read latch receives the
    cell reduced to 32 bits (0 for a cell that did not exist), and the
    access is recorded. *)
Theorem dm_read_extends_with_zeros (d : Datapath.DataPath) :
  Datapath._mem_access d = None ->
  0 <= Datapath.ar d ->
  exists d',
    Datapath.dm_read d = Ok d' /\
    Datapath.mem d'
    = Datapath.mem d
      ++ replicate (Z.to_nat (Datapath.ar d + 1) - length (Datapath.mem d)) 0 /\
    Datapath._last_mem_read d'
    = default 0 (Datapath.mem d !! Z.to_nat (Datapath.ar d)) mod 2 ^ 32 /\
    Datapath._mem_access d' = Some Datapath.acc_r /\
    Datapath.stack d' = Datapath.stack d.
Proof.
  intros Hn Ha. unfold Datapath.dm_read. rewrite Hn.
  pose proof (extend_mem_length (Datapath.mem d) _ Ha) as Hl.
  destruct (py_index_in_range (Datapath.extend_mem (Datapath.mem d) (Datapath.ar d))
              (Datapath.ar d) ltac:(lia)) as (x & Hx & ->).
  cbn [rbind]. eexists. split; [reflexivity|]. cbn.
  rewrite extend_mem_app in * by exact Ha.
  split; [reflexivity|]. split; [|split; reflexivity].
  rewrite land_mask_mod. f_equal.
  destruct (Datapath.mem d !! Z.to_nat (Datapath.ar d)) as [y|] eqn:E.
  - rewrite lookup_app_l in Hx by (apply lookup_lt_Some in E; exact E).
    cbn. congruence.
  - apply lookup_ge_None in E. rewrite lookup_app_r in Hx by exact E.
    apply lookup_replicate in Hx. cbn. apply Hx.
Qed.

Lemma dm_read_extends_with_zeros_witness :
  exists d',
    Datapath.dm_read (Datapath.latch_ar_from_lit (Datapath.init 2) 4) = Ok d' /\
    Datapath.mem d'
    = Datapath.mem (Datapath.latch_ar_from_lit (Datapath.init 2) 4)
      ++ replicate
           (Z.to_nat (Datapath.ar (Datapath.latch_ar_from_lit (Datapath.init 2) 4) + 1)
            - length (Datapath.mem (Datapath.latch_ar_from_lit (Datapath.init 2) 4))) 0 /\
    Datapath._last_mem_read d'
    = default 0 (Datapath.mem (Datapath.latch_ar_from_lit (Datapath.init 2) 4)
                 !! Z.to_nat (Datapath.ar (Datapath.latch_ar_from_lit (Datapath.init 2) 4)))
      mod 2 ^ 32 /\
    Datapath._mem_access d' = Some Datapath.acc_r /\
    Datapath.stack d' = Datapath.stack (Datapath.latch_ar_from_lit (Datapath.init 2) 4).
Proof.
  apply (dm_read_extends_with_zeros (Datapath.latch_ar_from_lit (Datapath.init 2) 4)).
  - reflexivity.
  - vm_compute. discriminate.
Defined.

(** X14.  A write at a non-negative address, first access of its tick,
    stores the value reduced to 32 bits in that cell, growing memory with
    zeros when needed, and changes no other cell; a read of the same
    address on the next tick returns the stored word. *)
Theorem dm_write_then_read (d : Datapath.DataPath) (v : Z) :
  Datapath._mem_access d = None ->
  0 <= Datapath.ar d ->
  exists d1 d2,
    Datapath.dm_write d v = Ok d1 /\
    Datapath.mem d1
    = <[Z.to_nat (Datapath.ar d) := v mod 2 ^ 32]>
        (Datapath.mem d
         ++ replicate (Z.to_nat (Datapath.ar d + 1) - length (Datapath.mem d)) 0) /\
    Datapath.dm_read (Datapath.tick_begin d1) = Ok d2 /\
    Datapath._last_mem_read d2 = v mod 2 ^ 32 /\
    Datapath.mem d2 = Datapath.mem d1.
Proof.
  intros Hn Ha.
  pose proof (extend_mem_length (Datapath.mem d) _ Ha) as Hl.
  set (m1 := <[Z.to_nat (Datapath.ar d) := v mod 2 ^ 32]>
               (Datapath.mem d
                ++ replicate (Z.to_nat (Datapath.ar d + 1) - length (Datapath.mem d)) 0)).
  assert (Hlen : (Z.to_nat (Datapath.ar d) < length m1)%nat).
  { unfold m1. rewrite length_insert, length_app, length_replicate. lia. }
  destruct (py_index_in_range m1 (Datapath.ar d) ltac:(lia)) as (x & Hx & Hpi).
  assert (Hxv : x = v mod 2 ^ 32).
  { unfold m1 in Hx. rewrite list_lookup_insert_eq in Hx
      by (rewrite length_app, length_replicate; lia).
    congruence. }
  subst x.
  assert (Hw : Datapath.dm_write d v
               = Ok (Datapath.mkDataPath m1 (Datapath.stack d) (Datapath.t d)
                       (Datapath.s d) (Datapath.ar d) (Datapath.io_reg d)
                       (Datapath.zero d) (Datapath.sign d)
                       (Datapath._last_mem_read d) (v mod 2 ^ 32)
                       (Datapath._last_alu d) (Some Datapath.acc_w))).
  { unfold Datapath.dm_write. rewrite Hn.
    rewrite py_setitem_in_range by lia. cbn [rbind].
    rewrite land_mask_mod, extend_mem_app by exact Ha. reflexivity. }
  eexists. eexists. split; [exact Hw|]. split; [reflexivity|].
  unfold Datapath.dm_read.
  cbn [Datapath.tick_begin Datapath._mem_access Datapath.ar Datapath.mem].
  rewrite extend_mem_app by exact Ha.
  replace (Z.to_nat (Datapath.ar d + 1) - length m1)%nat with 0%nat by lia.
  rewrite app_nil_r, Hpi. cbn [rbind].
  split; [reflexivity|]. cbn. split; [|reflexivity].
  rewrite land_mask_mod. apply Z.mod_mod. lia.
Qed.

Lemma dm_write_then_read_witness :
  exists d1 d2,
    Datapath.dm_write (Datapath.latch_ar_from_lit (Datapath.init 2) 4) (-1) = Ok d1 /\
    Datapath.mem d1
    = <[Z.to_nat (Datapath.ar (Datapath.latch_ar_from_lit (Datapath.init 2) 4))
        := (-1) mod 2 ^ 32]>
        (Datapath.mem (Datapath.latch_ar_from_lit (Datapath.init 2) 4)
         ++ replicate
              (Z.to_nat (Datapath.ar (Datapath.latch_ar_from_lit (Datapath.init 2) 4) + 1)
               - length (Datapath.mem (Datapath.latch_ar_from_lit (Datapath.init 2) 4)))
              0) /\
    Datapath.dm_read (Datapath.tick_begin d1) = Ok d2 /\
    Datapath._last_mem_read d2 = (-1) mod 2 ^ 32 /\
    Datapath.mem d2 = Datapath.mem d1.
Proof.
  apply (dm_write_then_read (Datapath.latch_ar_from_lit (Datapath.init 2) 4) (-1)).
  - reflexivity.
  - vm_compute. discriminate.
Defined.

(** ** The control unit over whole runs *)

Lemma exec_program_fixed (c c' : Cpu.CPU) :
  Cpu.exec c = Ok c' ->
  Cpu.imem c' = Cpu.imem c /\ Cpu.num_vectors c' = Cpu.num_vectors c.
Proof.
  intros H.
  destruct c as [im d r p irr tk tl nv io0 ie ii ph st hl lp li ta tv tal].
  unfold Cpu.exec, Cpu.unhandled, Cpu.pop_return, Datapath.dm_read,
    Datapath.dm_write, Datapath.io_write_commit, py_index, py_setitem, rbind in H.
  simpl in H. destruct irr as [[op a]|]; [|discriminate H].
  destruct op; split_result H; injection H as <-; split; reflexivity.
Qed.

(** X15.  A successful tick of a machine that has not halted advances
    [tick] by exactly one and leaves the instruction memory, the tick limit
    and the vector count as they were; a halted machine is left untouched
    by [step_tick]. *)
Theorem tick_counts_and_program_fixed (c c' : Cpu.CPU) :
  Cpu.step_tick c = Ok c' ->
  (Cpu._halted c = true -> c' = c) /\
  (Cpu._halted c = false -> Cpu.tick c' = Cpu.tick c + 1) /\
  Cpu.imem c' = Cpu.imem c /\
  Cpu.tick_limit c' = Cpu.tick_limit c /\
  Cpu.num_vectors c' = Cpu.num_vectors c.
Proof.
  intros H. destruct (Cpu._halted c) eqn:Hh.
  - unfold Cpu.step_tick in H. rewrite Hh in H. injection H as <-.
    repeat split. discriminate.
  - destruct (step_tick_tick _ _ Hh H) as [Ht Hl].
    split; [discriminate|]. split; [intros _; exact Ht|].
    split; [|split; [exact Hl|]]; unfold Cpu.step_tick in H; rewrite Hh in H;
      (destruct (Cpu._phase (Cpu.begin_tick c));
       [unfold Cpu.maybe_raise_irq, Cpu.fetch in H;
        destruct (negb _ || _);
        [|destruct (Io.irq_pending _); [injection H as <-; reflexivity|]];
        cbv beta iota zeta in H;
        (destruct (py_index _ _); cbn [rbind] in H; [|discriminate H]);
        injection H as <-; reflexivity
       |injection H as <-; reflexivity
       |apply exec_program_fixed in H; apply H]).
Qed.

Lemma tick_counts_and_program_fixed_witness :
  (Cpu._halted jz_demo_start = true -> jz_demo_after_fetch = jz_demo_start) /\
  (Cpu._halted jz_demo_start = false ->
   Cpu.tick jz_demo_after_fetch = Cpu.tick jz_demo_start + 1) /\
  Cpu.imem jz_demo_after_fetch = Cpu.imem jz_demo_start /\
  Cpu.tick_limit jz_demo_after_fetch = Cpu.tick_limit jz_demo_start /\
  Cpu.num_vectors jz_demo_after_fetch = Cpu.num_vectors jz_demo_start.
Proof.
  apply (tick_counts_and_program_fixed jz_demo_start jz_demo_after_fetch).
  reflexivity.
Defined.

Lemma run_loop_reachable (dp_z : Cpu.CPU -> string) (fuel : nat) :
  forall (trace : bool) (c0 c c' : Cpu.CPU) (out out' : list string),
    reachable c0 c ->
    Cpu.tick c <= Z.max 0 (Cpu.tick_limit c) ->
    Runner.run_loop dp_z fuel trace c out = Ok (c', out') ->
    reachable c0 c' /\ Cpu.tick c' <= Z.max 0 (Cpu.tick_limit c') /\
    (trace = false -> out' = out).
Proof.
  induction fuel as [|fuel IH]; intros trace c0 c c' out out' Hr Ht H;
    cbn [Runner.run_loop] in H.
  - injection H as <- <-. auto.
  - destruct (Z.ltb_spec (Cpu.tick c) (Cpu.tick_limit c)) as [Hlt|Hge];
      [|injection H as <- <-; auto].
    destruct (Cpu._halted c) eqn:Hh; cbn [negb andb] in H;
      [injection H as <- <-; auto|].
    cbv zeta in H.
    destruct (Cpu.step_tick c) as [c1|] eqn:Es; cbn [rbind] in H; [|discriminate H].
    destruct (step_tick_tick _ _ Hh Es) as [Ht1 Hl1].
    destruct (IH _ c0 _ _ _ _ (reach_tick _ _ _ Hr Es) ltac:(lia) H) as (R & T & O).
    split; [exact R|]. split; [exact T|].
    intros ->. apply O. reflexivity.
Qed.

Lemma run_loop_limit (dp_z : Cpu.CPU -> string) (fuel : nat) :
  forall (trace : bool) (c c' : Cpu.CPU) (out out' : list string),
    Runner.run_loop dp_z fuel trace c out = Ok (c', out') ->
    Cpu.tick_limit c' = Cpu.tick_limit c.
Proof.
  induction fuel as [|fuel IH]; intros trace c c' out out' H;
    cbn [Runner.run_loop] in H.
  - injection H as <- <-. reflexivity.
  - destruct ((Cpu.tick c <? Cpu.tick_limit c) && negb (Cpu._halted c)) eqn:Hc;
      [|injection H as <- <-; reflexivity].
    apply andb_true_iff in Hc. destruct Hc as [_ Hh]. apply negb_true_iff in Hh.
    cbv zeta in H.
    destruct (Cpu.step_tick c) as [c1|] eqn:Es; cbn [rbind] in H; [|discriminate H].
    destruct (step_tick_tick _ _ Hh Es) as [_ Hl1].
    rewrite (IH _ _ _ _ _ H). exact Hl1.
Qed.

(** An untraced run never reads [dp.z]: its result is the same whatever
    is given for it. *)
Lemma run_loop_untraced (dp_z dp_z' : Cpu.CPU -> string) (fuel : nat) :
  forall (c : Cpu.CPU) (out : list string),
    Runner.run_loop dp_z fuel false c out = Runner.run_loop dp_z' fuel false c out.
Proof.
  induction fuel as [|fuel IH]; intros c out; cbn [Runner.run_loop]; [reflexivity|].
  destruct ((Cpu.tick c <? Cpu.tick_limit c) && negb (Cpu._halted c)); [|reflexivity].
  cbv zeta. destruct (Cpu.step_tick c) as [c1|]; cbn [rbind]; [apply IH|reflexivity].
Qed.

Lemma run_machine_untraced (dp_z dp_z' : Cpu.CPU -> string)
      (blob : list byte) (schedule : list Io.IOEvent) (data_words tick_limit : Z) :
  Runner.run_machine dp_z blob schedule data_words tick_limit false
  = Runner.run_machine dp_z' blob schedule data_words tick_limit false.
Proof.
  unfold Runner.run_machine.
  destruct (Isa.decode blob) as [code|]; cbn [rbind]; [|reflexivity].
  rewrite (run_loop_untraced dp_z dp_z'). reflexivity.
Qed.

(** X16.  An untraced run that returns does so with the machine halted or
    with exactly [tick_limit] ticks executed, never more; it returns the
    output queues of that final machine, which is a state reached from
    reset on the decoded program, and no trace line.  This holds whatever
    the control unit's [dp.z] would read. *)
Theorem run_machine_stops_at_limit_or_halt
        (dp_z : Cpu.CPU -> string)
        (blob : list byte) (schedule : list Io.IOEvent) (data_words tick_limit : Z)
        (out : gmap Z (list Z)) (lines : list string) (c : Cpu.CPU) :
  0 <= tick_limit ->
  Runner.run_machine dp_z blob schedule data_words tick_limit false
  = Ok (out, lines, c) ->
  exists code,
    Isa.decode blob = Ok code /\
    reachable (Cpu.init code data_words (Io.init schedule) tick_limit) c /\
    out = Io.out_dump (Cpu.io c) /\
    lines = [] /\
    0 <= Cpu.tick c <= tick_limit /\
    (Cpu.tick c = tick_limit \/ Cpu._halted c = true).
Proof.
  intros Hl H. unfold Runner.run_machine in H.
  destruct (Isa.decode blob) as [code|]; cbn [rbind] in H; [|discriminate H].
  exists code. split; [reflexivity|].
  destruct (Runner.run_loop _ _ _ _ _) as [[c1 o1]|] eqn:E; cbn [rbind] in H;
    [|discriminate H].
  injection H as <- <- <-. cbn [fst snd].
  unfold Runner.ControlUnit in E.
  set (c0 := Cpu.init code data_words (Io.init schedule) tick_limit) in *.
  pose proof (run_loop_limit _ _ _ _ _ _ _ E) as Hlim.
  change (Cpu.tick_limit c0) with tick_limit in Hlim.
  assert (H0 : Cpu.tick c0 <= Z.max 0 (Cpu.tick_limit c0))
    by (change (0 <= Z.max 0 tick_limit); lia).
  destruct (run_loop_reachable _ _ _ _ _ _ _ _ (reach_start c0) H0 E) as (R & T & O).
  assert (H1 : Cpu.tick_limit c0 - Cpu.tick c0 <= Z.of_nat (Z.to_nat tick_limit))
    by (change (tick_limit - 0 <= Z.of_nat (Z.to_nat tick_limit)); lia).
  pose proof (run_loop_complete _ _ _ _ _ _ _ H1 E) as Hend.
  split; [exact R|]. split; [reflexivity|]. split; [apply O; reflexivity|].
  assert (Hge : 0 <= Cpu.tick c1).
  { clear -R. induction R as [|c c' _ IH Hs]; [change (0 <= 0); lia|].
    destruct (Cpu._halted c) eqn:Hh.
    - unfold Cpu.step_tick in Hs. rewrite Hh in Hs. injection Hs as <-. exact IH.
    - destruct (step_tick_tick _ _ Hh Hs). lia. }
  rewrite Hlim in *. split; [lia|]. destruct Hend; [left; lia|right; assumption].
Qed.

Lemma run_machine_stops_at_limit_or_halt_witness :
  exists code,
    Isa.decode (Isa.encode [Isa.mkInstr Isa.HALT 0]) = Ok code /\
    reachable (Cpu.init code 1 (Io.init []) 10) (snd halt_demo_run) /\
    fst (fst halt_demo_run) = Io.out_dump (Cpu.io (snd halt_demo_run)) /\
    snd (fst halt_demo_run) = [] /\
    0 <= Cpu.tick (snd halt_demo_run) <= 10 /\
    (Cpu.tick (snd halt_demo_run) = 10 \/ Cpu._halted (snd halt_demo_run) = true).
Proof.
  apply (run_machine_stops_at_limit_or_halt
           Runner.no_trace (Isa.encode [Isa.mkInstr Isa.HALT 0]) [] 1 10
           (fst (fst halt_demo_run)) (snd (fst halt_demo_run)) (snd halt_demo_run)).
  - lia.
  - vm_compute. reflexivity.
Defined.

Lemma on_tick_delivers_in_order_aux (io : Io.IOController) (t : Z) :
  Io._out_queues (Io.on_tick io t) = Io._out_queues io.
Proof.
  unfold Io.on_tick.
  apply (on_tick_events_queues (default [] (Io._schedule io !! t)) io 0).
Qed.

Lemma read_port_fifo_aux (io : Io.IOController) (p : Z) :
  Io._out_queues (snd (Io.read_port io p)) = Io._out_queues io /\
  Io._pending_irq (snd (Io.read_port io p)) = Io._pending_irq io.
Proof.
  unfold Io.read_port.
  destruct (Io._in_queues io !! p) as [[|v q]|]; split; reflexivity.
Qed.

(** ** Invariants of running machines *)

Lemma reachable_after_tick (c c1 c' : Cpu.CPU) :
  Cpu.step_tick c = Ok c1 -> reachable c1 c' -> reachable c c'.
Proof.
  intros Hs Hr. induction Hr as [|x y _ IH Hxy].
  - eapply reach_tick; [apply reach_start|exact Hs].
  - eapply reach_tick; [exact IH|exact Hxy].
Qed.

Lemma run_ticks_reachable (n : nat) :
  forall c c', run_ticks n c = Ok c' -> reachable c c'.
Proof.
  induction n as [|n IH]; intros c c' H; cbn [run_ticks] in H.
  - injection H as <-. apply reach_start.
  - destruct (Cpu.step_tick c) as [c1|] eqn:Es; cbn [rbind] in H; [|discriminate H].
    eapply reachable_after_tick; [exact Es|apply IH, H].
Qed.

(** X17.  In every machine state reached from reset, each entry of the data
    stack is a 32-bit word, and except between steps 0 and 1 of an ALU
    instruction the latches and flags mirror the stack: [t] is the top and
    [s] the second entry (0 when absent), [zero] says the top is 0 and
    [sign] that its bit 31 is set. *)
Theorem reachable_stack_words_and_flags
        (imem : list Isa.Instr) (data_words tick_limit : Z) (io : Io.IOController)
        (c : Cpu.CPU) :
  reachable (Cpu.init imem data_words io tick_limit) c ->
  Forall (fun x => 0 <= x < 2 ^ 32) (Datapath.stack (Cpu.dp c)) /\
  (~ alu_mid c ->
   let top := hd 0 (Datapath.stack (Cpu.dp c)) in
   Datapath.t (Cpu.dp c) = top /\
   Datapath.s (Cpu.dp c) = hd 0 (tail (Datapath.stack (Cpu.dp c))) /\
   Datapath.zero (Cpu.dp c) = (top =? 0) /\
   Datapath.sign (Cpu.dp c) = (2 ^ 31 <=? top)).
Proof.
  intros Hr.
  destruct (reachable_invariant _ _ (init_invariant _ _ _ _) Hr) as [Hm Hf].
  assert (Hw : Forall (fun x => 0 <= x < 2 ^ 32) (Datapath.stack (Cpu.dp c))).
  { unfold stack_masked in Hm. eapply Forall_impl; [exact Hm|].
    intros x Hx. cbn in Hx. rewrite land_mask_mod in Hx. rewrite <- Hx.
    apply Z.mod_pos_bound. lia. }
  split; [exact Hw|]. intros Hno.
  destruct Hf as [Hf|Hmid]; [|contradiction].
  unfold fresh, Datapath._refresh_tz in Hf. unfold stack_masked in Hm.
  destruct (Cpu.dp c) as [m st t0 s0 ar0 ior z sg lr lw la ma]. cbn in *.
  injection Hf as Ht Hs Hz Hsg. subst t0 s0 z sg.
  destruct st as [|x [|y rest]]; cbn.
  - repeat split.
  - inversion Hm as [|? ? Hx _]; subst. inversion Hw as [|? ? Hxr _]; subst.
    rewrite !Hx. repeat split. apply sign_bit_mask, Hxr.
  - inversion Hm as [|? ? Hx Hm']; subst. inversion Hm' as [|? ? Hy _]; subst.
    inversion Hw as [|? ? Hxr _]; subst.
    rewrite !Hx, Hy. repeat split. apply sign_bit_mask, Hxr.
Qed.

Lemma reachable_stack_words_and_flags_witness :
  Forall (fun x => 0 <= x < 2 ^ 32) (Datapath.stack (Cpu.dp load_mid_demo_state)) /\
  Cpu._phase load_mid_demo_state = Cpu.EXEC /\
  Cpu._step load_mid_demo_state = 1 /\
  Datapath.stack (Cpu.dp load_mid_demo_state) = [3] /\
  let top := hd 0 (Datapath.stack (Cpu.dp load_mid_demo_state)) in
  Datapath.t (Cpu.dp load_mid_demo_state) = top /\
  Datapath.s (Cpu.dp load_mid_demo_state)
  = hd 0 (tail (Datapath.stack (Cpu.dp load_mid_demo_state))) /\
  Datapath.zero (Cpu.dp load_mid_demo_state) = (top =? 0) /\
  Datapath.sign (Cpu.dp load_mid_demo_state) = (2 ^ 31 <=? top).
Proof.
  destruct (reachable_stack_words_and_flags
              (Cpu.imem mem_demo_start) 2 100 (Io.init []) load_mid_demo_state)
    as [Hw Hm].
  - apply (run_ticks_reachable 17). vm_compute. reflexivity.
  - split; [exact Hw|].
    split; [vm_compute; reflexivity|].
    split; [vm_compute; reflexivity|].
    split; [vm_compute; reflexivity|].
    apply Hm. intros (_ & _ & i & Hi & Ha).
    vm_compute in Hi. injection Hi as <-. discriminate Ha.
Defined.

Lemma exec_io_cases (c c' : Cpu.CPU) :
  Cpu.exec c = Ok c' ->
  Cpu.io c' = Cpu.io c \/
  (exists p, Cpu.io c' = snd (Io.read_port (Cpu.io c) p)) \/
  (exists p v, Cpu.io c' = Io.write_port (Cpu.io c) p v).
Proof.
  intros H.
  destruct c as [im d r p irr tk tl nv io0 ie ii ph st hl lp li ta tv tal].
  unfold Cpu.exec, Cpu.unhandled, Cpu.pop_return, Datapath.dm_read,
    Datapath.dm_write, Datapath.io_write_commit, Datapath.latch_io_read,
    py_index, py_setitem, rbind in H.
  cbn [Cpu.ir Cpu.dp Cpu.io Cpu._step] in H.
  destruct irr as [[op a]|]; [|discriminate H].
  cbn [Isa.opcode Isa.arg] in H.
  destruct op.
  all: repeat match type of H with
              | context [if ?b then _ else _] => destruct b eqn:?
              | context [match ?x with _ => _ end] => destruct x eqn:?
              end; try discriminate H; injection H as <-.
  all: try (left; reflexivity).
  all: try (right; right; eexists; eexists; reflexivity).
  match goal with
  | Hq : (let '(_, _) := Io.read_port ?io ?q in _) = _ |- _ =>
      right; left; exists q; simpl;
      destruct (Io.read_port io q); injection Hq as _ <-; reflexivity
  end.
Qed.

Lemma step_tick_output_grows (c c' : Cpu.CPU) (p : Z) :
  Cpu.step_tick c = Ok c' ->
  default [] (Io.out_dump (Cpu.io c) !! p)
    `prefix_of` default [] (Io.out_dump (Cpu.io c') !! p).
Proof.
  intros H. unfold Cpu.step_tick in H.
  destruct (Cpu._halted c); [injection H as <-; reflexivity|].
  assert (Hb : Io.out_dump (Cpu.io (Cpu.begin_tick c)) = Io.out_dump (Cpu.io c)).
  { unfold Cpu.begin_tick, Io.out_dump. cbn [Cpu.io Cpu.set_io Cpu.set_dp Cpu.tick].
    apply (on_tick_delivers_in_order_aux (Cpu.io c) (Cpu.tick c)). }
  rewrite <- Hb.
  destruct (Cpu._phase (Cpu.begin_tick c)).
  - unfold Cpu.maybe_raise_irq, Cpu.fetch in H.
    destruct (negb _ || _);
      [|destruct (Io.irq_pending _); [injection H as <-; reflexivity|]];
      cbv beta iota zeta in H;
      (destruct (py_index _ _); cbn [rbind] in H; [|discriminate H]);
      injection H as <-; reflexivity.
  - injection H as <-. reflexivity.
  - apply exec_io_cases in H. destruct H as [->|[(q & ->)|(q & v & ->)]].
    + reflexivity.
    + unfold Io.out_dump.
      destruct (read_port_fifo_aux (Cpu.io (Cpu.begin_tick c)) q) as [-> _].
      reflexivity.
    + unfold Io.out_dump, Io.write_port. cbn [Io._out_queues].
      rewrite setdefault_append_lookup. apply prefix_app_r. reflexivity.
Qed.

(** X18.  Output is only ever appended: for every port, the output queue
    of a machine state is a prefix of the output queue of any state
    reached from it. *)
Theorem output_only_grows (c c' : Cpu.CPU) (p : Z) :
  reachable c c' ->
  default [] (Io.out_dump (Cpu.io c) !! p)
    `prefix_of` default [] (Io.out_dump (Cpu.io c') !! p).
Proof.
  induction 1 as [|c1 c2 _ IH Hs]; [reflexivity|].
  etransitivity; [exact IH|]. apply step_tick_output_grows, Hs.
Qed.

Lemma output_only_grows_witness :
  default [] (Io.out_dump (Cpu.io out_demo_state) !! 2) = [] /\
  default [] (Io.out_dump (Cpu.io out_done_demo_state) !! 2) = [70000] /\
  default [] (Io.out_dump (Cpu.io out_demo_state) !! 2)
    `prefix_of` default [] (Io.out_dump (Cpu.io out_done_demo_state) !! 2).
Proof.
  split; [vm_compute; reflexivity|]. split; [vm_compute; reflexivity|].
  apply (output_only_grows out_demo_state out_done_demo_state 2).
  apply (run_ticks_reachable 2). vm_compute. reflexivity.
Defined.

(** ** Whole instructions *)

Lemma add_demo_reachable : reachable add_demo_start add_demo_state.
Proof.
  eapply reach_tick; [eapply reach_tick; [apply reach_start|]|]; reflexivity.
Qed.

Lemma land_mask_small (x : Z) : 0 <= x < 2 ^ 32 -> Z.land x Datapath.MASK32 = x.
Proof. intros Hx. rewrite land_mask_mod. apply Z.mod_small, Hx. Qed.

(** The latches of a datapath in a state reached from reset, at step 0. *)
Lemma reachable_latches
      (imem : list Isa.Instr) (data_words tick_limit : Z) (io : Io.IOController)
      (c : Cpu.CPU) :
  reachable (Cpu.init imem data_words io tick_limit) c ->
  Cpu._step c = 0 ->
  Forall (fun x => 0 <= x < 2 ^ 32) (Datapath.stack (Cpu.dp c)) /\
  Datapath.t (Cpu.dp c) = hd 0 (Datapath.stack (Cpu.dp c)) /\
  Datapath.s (Cpu.dp c) = hd 0 (tail (Datapath.stack (Cpu.dp c))).
Proof.
  intros Hr Hs.
  destruct (reachable_invariant _ _ (init_invariant _ _ _ _) Hr) as [Hm Hf].
  assert (Hw : Forall (fun x => 0 <= x < 2 ^ 32) (Datapath.stack (Cpu.dp c))).
  { unfold stack_masked in Hm. eapply Forall_impl; [exact Hm|].
    intros x Hx. cbn in Hx. rewrite land_mask_mod in Hx. rewrite <- Hx.
    apply Z.mod_pos_bound. lia. }
  split; [exact Hw|].
  destruct Hf as [Hf|(_ & Hs1 & _)]; [|congruence].
  unfold fresh, Datapath._refresh_tz in Hf.
  destruct (Cpu.dp c) as [m st t0 s0 ar0 ior z sg lr lw la ma]. cbn in *.
  injection Hf as Ht Hs' _ _. subst t0 s0.
  destruct st as [|x [|y rest]]; cbn; [split; reflexivity| |].
  - inversion Hw as [|? ? Hx _]; subst. rewrite land_mask_small by exact Hx.
    split; reflexivity.
  - inversion Hw as [|? ? Hx Hw']; subst. inversion Hw' as [|? ? Hy _]; subst.
    rewrite !land_mask_small by assumption. split; reflexivity.
Qed.

(** Step 0 of an ALU instruction. *)
Lemma alu_step0 (im : list Isa.Instr) (d : Datapath.DataPath) (r0 : list Z)
      (p : Z) (op : Isa.Opcode) (arg tk tl nv : Z) (io0 : Io.IOController)
      (ie ii : bool) (lp : Z) (li : option Isa.Instr) (ta tv tal r : Z) :
  Cpu.is_alu op = true ->
  Datapath.alu_result op (Z.land (Datapath.s d) Datapath.MASK32)
                      (Z.land (Datapath.t d) Datapath.MASK32) = Ok r ->
  Cpu.step_tick
    (Cpu.mkCPU im d r0 p (Some (Isa.mkInstr op arg)) tk tl nv io0 ie ii
               Cpu.EXEC 0 false lp li ta tv tal)
  = Ok (Cpu.mkCPU im
          (Datapath.mkDataPath (Datapath.mem d) (Datapath.stack d) (Datapath.t d)
             (Datapath.s d) (Datapath.ar d) (Datapath.io_reg d)
             (Z.land r Datapath.MASK32 =? 0)
             (negb (Z.land r 0x80000000 =? 0))
             (Datapath._last_mem_read d) (Datapath._last_mem_write d) r None)
          r0 p (Some (Isa.mkInstr op arg)) (tk + 1) tl nv (Io.on_tick io0 tk)
          ie ii Cpu.EXEC 1 false lp li ta tv r).
Proof.
  intros Hop Hr. unfold Cpu.step_tick, Cpu.exec.
  cbn [Cpu._halted Cpu.begin_tick Cpu._phase Cpu.set_io Cpu.set_dp Cpu.ir
       Cpu.dp Cpu.io Cpu.tick Cpu._step Isa.opcode Isa.arg].
  destruct op; try discriminate Hop;
    change (0 =? 0) with true; cbv iota;
    unfold Datapath.alu_compute;
    cbn [Datapath.tick_begin Datapath.s Datapath.t];
    rewrite Hr; reflexivity.
Qed.

(** Steps 1 and 2 of an ALU instruction. *)
Lemma alu_step1 (im : list Isa.Instr) (d : Datapath.DataPath) (r0 : list Z)
      (p : Z) (op : Isa.Opcode) (arg tk tl nv : Z) (io0 : Io.IOController)
      (ie ii : bool) (lp : Z) (li : option Isa.Instr) (ta tv tal : Z) :
  Cpu.is_alu op = true ->
  Cpu.step_tick
    (Cpu.mkCPU im d r0 p (Some (Isa.mkInstr op arg)) tk tl nv io0 ie ii
               Cpu.EXEC 1 false lp li ta tv tal)
  = Ok (Cpu.mkCPU im (snd (Datapath.data_pop (Datapath.tick_begin d)))
          r0 p (Some (Isa.mkInstr op arg)) (tk + 1) tl nv (Io.on_tick io0 tk)
          ie ii Cpu.EXEC 2 false lp li ta tv tal).
Proof.
  intros Hop. unfold Cpu.step_tick, Cpu.exec.
  cbn [Cpu._halted Cpu.begin_tick Cpu._phase Cpu.set_io Cpu.set_dp Cpu.ir
       Cpu.dp Cpu.io Cpu.tick Cpu._step Isa.opcode Isa.arg].
  destruct op; try discriminate Hop; reflexivity.
Qed.

Lemma alu_step2 (im : list Isa.Instr) (d : Datapath.DataPath) (r0 : list Z)
      (p : Z) (op : Isa.Opcode) (arg tk tl nv : Z) (io0 : Io.IOController)
      (ie ii : bool) (lp : Z) (li : option Isa.Instr) (ta tv tal : Z) :
  Cpu.is_alu op = true ->
  Cpu.step_tick
    (Cpu.mkCPU im d r0 p (Some (Isa.mkInstr op arg)) tk tl nv io0 ie ii
               Cpu.EXEC 2 false lp li ta tv tal)
  = Ok (Cpu.mkCPU im
          (Datapath.data_push (snd (Datapath.data_pop (Datapath.tick_begin d)))
             (Datapath._last_alu (snd (Datapath.data_pop (Datapath.tick_begin d)))))
          r0 p (Some (Isa.mkInstr op arg)) (tk + 1) tl nv (Io.on_tick io0 tk)
          ie ii Cpu.FETCH_IR 0 false lp li ta tv tal).
Proof.
  intros Hop. unfold Cpu.step_tick, Cpu.exec.
  cbn [Cpu._halted Cpu.begin_tick Cpu._phase Cpu.set_io Cpu.set_dp Cpu.ir
       Cpu.dp Cpu.io Cpu.tick Cpu._step Isa.opcode Isa.arg].
  destruct op; try discriminate Hop; reflexivity.
Qed.

Lemma data_pop_fields (d : Datapath.DataPath) :
  Datapath.stack (snd (Datapath.data_pop d)) = tail (Datapath.stack d) /\
  fst (Datapath.data_pop d) = hd 0 (Datapath.stack d) /\
  Datapath.mem (snd (Datapath.data_pop d)) = Datapath.mem d /\
  Datapath._last_alu (snd (Datapath.data_pop d)) = Datapath._last_alu d /\
  Datapath._last_mem_read (snd (Datapath.data_pop d)) = Datapath._last_mem_read d /\
  Datapath.ar (snd (Datapath.data_pop d)) = Datapath.ar d /\
  Datapath.io_reg (snd (Datapath.data_pop d)) = Datapath.io_reg d /\
  Datapath._mem_access (snd (Datapath.data_pop d)) = Datapath._mem_access d.
Proof.
  unfold Datapath.data_pop. destruct (Datapath.stack d) as [|x rest] eqn:E; cbn;
    rewrite ?E; repeat split.
Qed.

(** X19.  An ALU instruction takes three EXEC ticks.  In a machine reached
    from reset it replaces the two top stack entries [a] (second) and [b]
    (top) by the ALU result on [(a, b)]; a missing entry counts as 0 and
    popping it is harmless.  [pc], the return stack and the memory are
    unchanged and the unit is back in FETCH_IR. *)
Theorem alu_instruction_semantics
        (imem : list Isa.Instr) (data_words tick_limit : Z) (io : Io.IOController)
        (c : Cpu.CPU) (op : Isa.Opcode) (arg : Z) :
  reachable (Cpu.init imem data_words io tick_limit) c ->
  Cpu._halted c = false ->
  Cpu._phase c = Cpu.EXEC ->
  Cpu._step c = 0 ->
  Cpu.ir c = Some (Isa.mkInstr op arg) ->
  Cpu.is_alu op = true ->
  exists c3 r,
    run_ticks 3 c = Ok c3 /\
    Datapath.alu_result op (hd 0 (tail (Datapath.stack (Cpu.dp c))))
                        (hd 0 (Datapath.stack (Cpu.dp c))) = Ok r /\
    Datapath.stack (Cpu.dp c3) = r :: tail (tail (Datapath.stack (Cpu.dp c))) /\
    Cpu._phase c3 = Cpu.FETCH_IR /\ Cpu._step c3 = 0 /\
    Cpu.pc c3 = Cpu.pc c /\ Cpu.rs c3 = Cpu.rs c /\
    Cpu.tick c3 = Cpu.tick c + 3 /\
    Datapath.mem (Cpu.dp c3) = Datapath.mem (Cpu.dp c) /\
    Cpu._halted c3 = false.
Proof.
  intros Hr Hh Hph Hst Hir Hop.
  destruct (reachable_latches _ _ _ _ _ Hr Hst) as (Hw & Ht & Hs).
  destruct c as [im d r0 p irr tk tl nv io0 ie ii ph st hl lp li ta tv tal].
  destruct d as [m stk t0 s0 ar0 ior z sg lr lw la ma].
  cbn in Hh, Hph, Hst, Hir, Ht, Hs, Hw. subst hl ph st irr t0 s0.
  set (a := hd 0 (tail stk)). set (b := hd 0 stk).
  assert (Ha : 0 <= a < 2 ^ 32).
  { subst a. destruct stk as [|x [|y rest]]; cbn; try lia.
    inversion Hw as [|? ? _ Hw']; subst. inversion Hw'; subst. assumption. }
  assert (Hb : 0 <= b < 2 ^ 32).
  { subst b. destruct stk as [|x rest]; cbn; try lia. inversion Hw; assumption. }
  destruct (Datapath.alu_result op a b) as [r|] eqn:Er;
    [|destruct op; discriminate].
  assert (Hrr : 0 <= r < 2 ^ 32) by (eapply alu_result_range; [| |exact Er]; lia).
  assert (E1 : Datapath.alu_result op (Z.land a Datapath.MASK32)
                                   (Z.land b Datapath.MASK32) = Ok r)
    by (rewrite !land_mask_small by assumption; exact Er).
  eexists. exists r.
  split; [|split; [exact Er|]].
  - cbn [run_ticks].
    rewrite (alu_step0 im (Datapath.mkDataPath m stk b a ar0 ior z sg lr lw la ma)
               r0 p op arg tk tl nv io0 ie ii lp li ta tv tal r Hop E1).
    cbn [rbind]. rewrite (alu_step1 _ _ _ _ _ _ _ _ _ _ _ _ _ _ _ _ _ Hop).
    cbn [rbind]. rewrite (alu_step2 _ _ _ _ _ _ _ _ _ _ _ _ _ _ _ _ _ Hop).
    cbn [rbind]. reflexivity.
  - cbn [Cpu.dp Cpu._phase Cpu._step Cpu.pc Cpu.rs Cpu.tick Cpu._halted].
    unfold Datapath.data_push.
    cbn [Datapath._refresh_tz Datapath.with_stack Datapath.stack Datapath.mem].
    repeat (progress
              (repeat match goal with
                      | |- context [Datapath.stack (snd (Datapath.data_pop ?d))] =>
                          rewrite (proj1 (data_pop_fields d))
                      | |- context [Datapath.mem (snd (Datapath.data_pop ?d))] =>
                          rewrite (proj1 (proj2 (proj2 (data_pop_fields d))))
                      | |- context [Datapath._last_alu (snd (Datapath.data_pop ?d))] =>
                          rewrite (proj1 (proj2 (proj2 (proj2 (data_pop_fields d)))))
                      end;
               cbn [Datapath.tick_begin Datapath.stack Datapath.mem
                    Datapath._last_alu])).
    rewrite (land_mask_small r) by exact Hrr.
    repeat split; lia.
Qed.

Lemma alu_instruction_semantics_witness :
  exists c3 r,
    run_ticks 3 add_demo_state = Ok c3 /\
    Datapath.alu_result Isa.ADD
      (hd 0 (tail (Datapath.stack (Cpu.dp add_demo_state))))
      (hd 0 (Datapath.stack (Cpu.dp add_demo_state))) = Ok r /\
    Datapath.stack (Cpu.dp c3)
    = r :: tail (tail (Datapath.stack (Cpu.dp add_demo_state))) /\
    Cpu._phase c3 = Cpu.FETCH_IR /\ Cpu._step c3 = 0 /\
    Cpu.pc c3 = Cpu.pc add_demo_state /\ Cpu.rs c3 = Cpu.rs add_demo_state /\
    Cpu.tick c3 = Cpu.tick add_demo_state + 3 /\
    Datapath.mem (Cpu.dp c3) = Datapath.mem (Cpu.dp add_demo_state) /\
    Cpu._halted c3 = false.
Proof.
  apply (alu_instruction_semantics [Isa.mkInstr Isa.ADD 0] 1 10 (Io.init [])
                                   add_demo_state Isa.ADD 0);
    try reflexivity.
  exact add_demo_reachable.
Defined.


Lemma dm_write_value (d : Datapath.DataPath) (v : Z) :
  Datapath._mem_access d = None ->
  0 <= Datapath.ar d ->
  Datapath.dm_write d v
  = Ok (Datapath.mkDataPath
          (<[Z.to_nat (Datapath.ar d) := v mod 2 ^ 32]>
             (Datapath.mem d
              ++ replicate (Z.to_nat (Datapath.ar d + 1) - length (Datapath.mem d)) 0))
          (Datapath.stack d) (Datapath.t d) (Datapath.s d) (Datapath.ar d)
          (Datapath.io_reg d) (Datapath.zero d) (Datapath.sign d)
          (Datapath._last_mem_read d) (v mod 2 ^ 32) (Datapath._last_alu d)
          (Some Datapath.acc_w)).
Proof.
  intros Hn Ha. unfold Datapath.dm_write. rewrite Hn.
  pose proof (extend_mem_length (Datapath.mem d) _ Ha) as Hl.
  rewrite py_setitem_in_range by lia. cbn [rbind].
  rewrite land_mask_mod, extend_mem_app by exact Ha. reflexivity.
Qed.

Lemma dm_read_value (d : Datapath.DataPath) :
  Datapath._mem_access d = None ->
  0 <= Datapath.ar d ->
  Datapath.dm_read d
  = Ok (Datapath.mkDataPath
          (Datapath.mem d
           ++ replicate (Z.to_nat (Datapath.ar d + 1) - length (Datapath.mem d)) 0)
          (Datapath.stack d) (Datapath.t d) (Datapath.s d) (Datapath.ar d)
          (Datapath.io_reg d) (Datapath.zero d) (Datapath.sign d)
          (default 0 (Datapath.mem d !! Z.to_nat (Datapath.ar d)) mod 2 ^ 32)
          (Datapath._last_mem_write d) (Datapath._last_alu d)
          (Some Datapath.acc_r)).
Proof.
  intros Hn Ha. unfold Datapath.dm_read. rewrite Hn.
  pose proof (extend_mem_length (Datapath.mem d) _ Ha) as Hl.
  destruct (py_index_in_range (Datapath.extend_mem (Datapath.mem d) (Datapath.ar d))
              (Datapath.ar d) ltac:(lia)) as (x & Hx & ->).
  cbn [rbind]. rewrite extend_mem_app in * by exact Ha.
  rewrite land_mask_mod. do 2 f_equal. f_equal.
  destruct (Datapath.mem d !! Z.to_nat (Datapath.ar d)) as [y|] eqn:E.
  - rewrite lookup_app_l in Hx by (apply lookup_lt_Some in E; exact E).
    cbn. congruence.
  - apply lookup_ge_None in E. rewrite lookup_app_r in Hx by exact E.
    apply lookup_replicate in Hx. cbn. apply Hx.
Qed.

Lemma store_step0 (im : list Isa.Instr) (d : Datapath.DataPath) (r0 : list Z)
      (p arg tk tl nv : Z) (io0 : Io.IOController)
      (ie ii : bool) (lp : Z) (li : option Isa.Instr) (ta tv tal : Z) :
  Cpu.step_tick
    (Cpu.mkCPU im d r0 p (Some (Isa.mkInstr Isa.STORE arg)) tk tl nv io0 ie ii
               Cpu.EXEC 0 false lp li ta tv tal)
  = Ok (Cpu.mkCPU im
          (Datapath.latch_ar_from_lit
             (snd (Datapath.data_pop (Datapath.tick_begin d)))
             (fst (Datapath.data_pop (Datapath.tick_begin d))))
          r0 p (Some (Isa.mkInstr Isa.STORE arg)) (tk + 1) tl nv (Io.on_tick io0 tk)
          ie ii Cpu.EXEC 1 false lp li
          (fst (Datapath.data_pop (Datapath.tick_begin d))) tv tal).
Proof.
  unfold Cpu.step_tick, Cpu.exec.
  cbn [Cpu._halted Cpu.begin_tick Cpu._phase Cpu.set_io Cpu.set_dp Cpu.ir
       Cpu.dp Cpu.io Cpu.tick Cpu._step Isa.opcode Isa.arg].
  change (0 =? 0) with true. cbv iota.
  destruct (Datapath.data_pop (Datapath.tick_begin d)) as [a d1]. reflexivity.
Qed.

Lemma store_step1 (im : list Isa.Instr) (d : Datapath.DataPath) (r0 : list Z)
      (p arg tk tl nv : Z) (io0 : Io.IOController)
      (ie ii : bool) (lp : Z) (li : option Isa.Instr) (ta tv tal : Z) :
  Cpu.step_tick
    (Cpu.mkCPU im d r0 p (Some (Isa.mkInstr Isa.STORE arg)) tk tl nv io0 ie ii
               Cpu.EXEC 1 false lp li ta tv tal)
  = Ok (Cpu.mkCPU im (snd (Datapath.data_pop (Datapath.tick_begin d)))
          r0 p (Some (Isa.mkInstr Isa.STORE arg)) (tk + 1) tl nv (Io.on_tick io0 tk)
          ie ii Cpu.EXEC 2 false lp li ta
          (fst (Datapath.data_pop (Datapath.tick_begin d))) tal).
Proof.
  unfold Cpu.step_tick, Cpu.exec.
  cbn [Cpu._halted Cpu.begin_tick Cpu._phase Cpu.set_io Cpu.set_dp Cpu.ir
       Cpu.dp Cpu.io Cpu.tick Cpu._step Isa.opcode Isa.arg].
  change (1 =? 0) with false. change (1 =? 1) with true. cbv iota.
  destruct (Datapath.data_pop (Datapath.tick_begin d)) as [a d1]. reflexivity.
Qed.

Lemma store_step2 (im : list Isa.Instr) (d d' : Datapath.DataPath) (r0 : list Z)
      (p arg tk tl nv : Z) (io0 : Io.IOController)
      (ie ii : bool) (lp : Z) (li : option Isa.Instr) (ta tv tal : Z) :
  Datapath.dm_write (Datapath.tick_begin d) tv = Ok d' ->
  Cpu.step_tick
    (Cpu.mkCPU im d r0 p (Some (Isa.mkInstr Isa.STORE arg)) tk tl nv io0 ie ii
               Cpu.EXEC 2 false lp li ta tv tal)
  = Ok (Cpu.mkCPU im d'
          r0 p (Some (Isa.mkInstr Isa.STORE arg)) (tk + 1) tl nv (Io.on_tick io0 tk)
          ie ii Cpu.FETCH_IR 0 false lp li ta tv tal).
Proof.
  intros Hw. unfold Cpu.step_tick, Cpu.exec.
  cbn [Cpu._halted Cpu.begin_tick Cpu._phase Cpu.set_io Cpu.set_dp Cpu.ir
       Cpu.dp Cpu.io Cpu.tick Cpu._step Isa.opcode Isa.arg Cpu._tmp_val].
  change (2 =? 0) with false. change (2 =? 1) with false.
  change (2 =? 2) with true. cbv iota.
  rewrite Hw. reflexivity.
Qed.

(** X20.  A [STORE] takes three EXEC ticks.  In a machine reached from
    reset it pops the address (top of stack) and then the value (second),
    each 0 when missing, and writes the value to the cell at that address,
    growing memory with zeros when the address is past its end; no other
    cell, [pc] or the return stack changes. *)
Theorem store_instruction_semantics
        (imem : list Isa.Instr) (data_words tick_limit : Z) (io : Io.IOController)
        (c : Cpu.CPU) (arg : Z) :
  reachable (Cpu.init imem data_words io tick_limit) c ->
  Cpu._halted c = false ->
  Cpu._phase c = Cpu.EXEC ->
  Cpu._step c = 0 ->
  Cpu.ir c = Some (Isa.mkInstr Isa.STORE arg) ->
  let addr := hd 0 (Datapath.stack (Cpu.dp c)) in
  let value := hd 0 (tail (Datapath.stack (Cpu.dp c))) in
  exists c3,
    run_ticks 3 c = Ok c3 /\
    Datapath.mem (Cpu.dp c3)
    = <[Z.to_nat addr := value]>
        (Datapath.mem (Cpu.dp c)
         ++ replicate (Z.to_nat (addr + 1) - length (Datapath.mem (Cpu.dp c))) 0) /\
    Datapath.stack (Cpu.dp c3) = tail (tail (Datapath.stack (Cpu.dp c))) /\
    Cpu._phase c3 = Cpu.FETCH_IR /\ Cpu._step c3 = 0 /\
    Cpu.pc c3 = Cpu.pc c /\ Cpu.rs c3 = Cpu.rs c /\
    Cpu.tick c3 = Cpu.tick c + 3 /\ Cpu._halted c3 = false.
Proof.
  intros Hr Hh Hph Hst Hir addr value.
  destruct (reachable_latches _ _ _ _ _ Hr Hst) as (Hw & _ & _).
  destruct c as [im d r0 p irr tk tl nv io0 ie ii ph st hl lp li ta tv tal].
  cbn in Hh, Hph, Hst, Hir, Hw, addr, value. subst hl ph st irr.
  assert (Ha : 0 <= addr < 2 ^ 32).
  { subst addr. destruct (Datapath.stack d) as [|x rest]; cbn; try lia.
    inversion Hw; assumption. }
  assert (Hv : 0 <= value < 2 ^ 32).
  { subst value. destruct (Datapath.stack d) as [|x [|y rest]]; cbn; try lia.
    inversion Hw as [|? ? _ Hw']; subst. inversion Hw'; subst. assumption. }
  set (d0 := Datapath.tick_begin d).
  set (d1 := Datapath.latch_ar_from_lit (snd (Datapath.data_pop d0))
                                        (fst (Datapath.data_pop d0))).
  set (d2 := snd (Datapath.data_pop (Datapath.tick_begin d1))).
  assert (Hfst0 : fst (Datapath.data_pop d0) = addr)
    by apply (data_pop_fields d0).
  assert (Hst1 : Datapath.stack d1 = tail (Datapath.stack d))
    by apply (data_pop_fields d0).
  assert (Hfst1 : fst (Datapath.data_pop (Datapath.tick_begin d1)) = value).
  { rewrite (proj1 (proj2 (data_pop_fields _))).
    cbn [Datapath.tick_begin Datapath.stack]. rewrite Hst1. reflexivity. }
  assert (Har : Datapath.ar (Datapath.tick_begin d2) = addr).
  { unfold d2. cbn [Datapath.tick_begin Datapath.ar].
    rewrite (proj1 (proj2 (proj2 (proj2 (proj2 (proj2 (data_pop_fields _))))))).
    unfold d1. cbn [Datapath.tick_begin Datapath.ar Datapath.latch_ar_from_lit
                    Datapath.with_ar].
    rewrite Hfst0. apply land_mask_small, Ha. }
  assert (Hmem : Datapath.mem (Datapath.tick_begin d2) = Datapath.mem d).
  { unfold d2. cbn [Datapath.tick_begin Datapath.mem].
    rewrite (proj1 (proj2 (proj2 (data_pop_fields _)))).
    unfold d1. cbn [Datapath.tick_begin Datapath.mem Datapath.latch_ar_from_lit
                    Datapath.with_ar].
    rewrite (proj1 (proj2 (proj2 (data_pop_fields _)))). reflexivity. }
  assert (Hstk : Datapath.stack (Datapath.tick_begin d2) = tail (tail (Datapath.stack d))).
  { unfold d2. cbn [Datapath.tick_begin Datapath.stack].
    rewrite (proj1 (data_pop_fields _)).
    cbn [Datapath.tick_begin Datapath.stack]. rewrite Hst1. reflexivity. }
  pose proof (dm_write_value (Datapath.tick_begin d2) value eq_refl
                ltac:(rewrite Har; lia)) as Hwr.
  eexists. split.
  - cbn [run_ticks]. rewrite store_step0. cbn [rbind].
    rewrite store_step1. cbn [rbind].
    fold d0. fold d1. rewrite Hfst1.
    rewrite (store_step2 _ _ _ _ _ _ _ _ _ _ _ _ _ _ _ _ _ Hwr).
    cbn [rbind]. reflexivity.
  - cbn [Cpu.dp Cpu._phase Cpu._step Cpu.pc Cpu.rs Cpu.tick Cpu._halted
         Datapath.mem Datapath.stack].
    rewrite Har, Hmem, Hstk, (Z.mod_small value) by exact Hv.
    repeat split; lia.
Qed.

Lemma store_instruction_semantics_witness :
  let addr := hd 0 (Datapath.stack (Cpu.dp store_demo_state)) in
  let value := hd 0 (tail (Datapath.stack (Cpu.dp store_demo_state))) in
  exists c3,
    run_ticks 3 store_demo_state = Ok c3 /\
    Datapath.mem (Cpu.dp c3)
    = <[Z.to_nat addr := value]>
        (Datapath.mem (Cpu.dp store_demo_state)
         ++ replicate (Z.to_nat (addr + 1)
                       - length (Datapath.mem (Cpu.dp store_demo_state))) 0) /\
    Datapath.stack (Cpu.dp c3) = tail (tail (Datapath.stack (Cpu.dp store_demo_state))) /\
    Cpu._phase c3 = Cpu.FETCH_IR /\ Cpu._step c3 = 0 /\
    Cpu.pc c3 = Cpu.pc store_demo_state /\ Cpu.rs c3 = Cpu.rs store_demo_state /\
    Cpu.tick c3 = Cpu.tick store_demo_state + 3 /\ Cpu._halted c3 = false.
Proof.
  apply (store_instruction_semantics (Cpu.imem mem_demo_start) 2 100 (Io.init [])
                                     store_demo_state 0).
  - apply (run_ticks_reachable 8). vm_compute. reflexivity.
  - vm_compute. reflexivity.
  - vm_compute. reflexivity.
  - vm_compute. reflexivity.
  - vm_compute. reflexivity.
Defined.

Lemma load_step0 (im : list Isa.Instr) (d : Datapath.DataPath) (r0 : list Z)
      (p arg tk tl nv : Z) (io0 : Io.IOController)
      (ie ii : bool) (lp : Z) (li : option Isa.Instr) (ta tv tal : Z) :
  Cpu.step_tick
    (Cpu.mkCPU im d r0 p (Some (Isa.mkInstr Isa.LOAD arg)) tk tl nv io0 ie ii
               Cpu.EXEC 0 false lp li ta tv tal)
  = Ok (Cpu.mkCPU im (Datapath.latch_ar_from_t (Datapath.tick_begin d))
          r0 p (Some (Isa.mkInstr Isa.LOAD arg)) (tk + 1) tl nv (Io.on_tick io0 tk)
          ie ii Cpu.EXEC 1 false lp li ta tv tal).
Proof. reflexivity. Qed.

Lemma load_step1 (im : list Isa.Instr) (d d' : Datapath.DataPath) (r0 : list Z)
      (p arg tk tl nv : Z) (io0 : Io.IOController)
      (ie ii : bool) (lp : Z) (li : option Isa.Instr) (ta tv tal : Z) :
  Datapath.dm_read (Datapath.tick_begin d) = Ok d' ->
  Cpu.step_tick
    (Cpu.mkCPU im d r0 p (Some (Isa.mkInstr Isa.LOAD arg)) tk tl nv io0 ie ii
               Cpu.EXEC 1 false lp li ta tv tal)
  = Ok (Cpu.mkCPU im d'
          r0 p (Some (Isa.mkInstr Isa.LOAD arg)) (tk + 1) tl nv (Io.on_tick io0 tk)
          ie ii Cpu.EXEC 2 false lp li ta tv tal).
Proof.
  intros Hrd. unfold Cpu.step_tick, Cpu.exec.
  cbn [Cpu._halted Cpu.begin_tick Cpu._phase Cpu.set_io Cpu.set_dp Cpu.ir
       Cpu.dp Cpu.io Cpu.tick Cpu._step Isa.opcode Isa.arg].
  change (1 =? 0) with false. change (1 =? 1) with true. cbv iota.
  rewrite Hrd. reflexivity.
Qed.

Lemma load_step2 (im : list Isa.Instr) (d : Datapath.DataPath) (r0 : list Z)
      (p arg tk tl nv : Z) (io0 : Io.IOController)
      (ie ii : bool) (lp : Z) (li : option Isa.Instr) (ta tv tal : Z) :
  Cpu.step_tick
    (Cpu.mkCPU im d r0 p (Some (Isa.mkInstr Isa.LOAD arg)) tk tl nv io0 ie ii
               Cpu.EXEC 2 false lp li ta tv tal)
  = Ok (Cpu.mkCPU im
          (Datapath.data_push (snd (Datapath.data_pop (Datapath.tick_begin d)))
             (Datapath._last_mem_read
                (snd (Datapath.data_pop (Datapath.tick_begin d)))))
          r0 p (Some (Isa.mkInstr Isa.LOAD arg)) (tk + 1) tl nv (Io.on_tick io0 tk)
          ie ii Cpu.FETCH_IR 0 false lp li ta tv tal).
Proof. reflexivity. Qed.

(** X21.  A [LOAD] takes three EXEC ticks.  In a machine reached from
    reset it replaces the address on top of the stack (0 when the stack is
    empty) by the word of the cell at that address, which is 0 for a cell
    past the end of memory; memory is only extended with zeros, and [pc]
    and the return stack do not change. *)
Theorem load_instruction_semantics
        (imem : list Isa.Instr) (data_words tick_limit : Z) (io : Io.IOController)
        (c : Cpu.CPU) (arg : Z) :
  reachable (Cpu.init imem data_words io tick_limit) c ->
  Cpu._halted c = false ->
  Cpu._phase c = Cpu.EXEC ->
  Cpu._step c = 0 ->
  Cpu.ir c = Some (Isa.mkInstr Isa.LOAD arg) ->
  let addr := hd 0 (Datapath.stack (Cpu.dp c)) in
  exists c3,
    run_ticks 3 c = Ok c3 /\
    Datapath.stack (Cpu.dp c3)
    = default 0 (Datapath.mem (Cpu.dp c) !! Z.to_nat addr) mod 2 ^ 32
      :: tail (Datapath.stack (Cpu.dp c)) /\
    Datapath.mem (Cpu.dp c3)
    = Datapath.mem (Cpu.dp c)
      ++ replicate (Z.to_nat (addr + 1) - length (Datapath.mem (Cpu.dp c))) 0 /\
    Cpu._phase c3 = Cpu.FETCH_IR /\ Cpu._step c3 = 0 /\
    Cpu.pc c3 = Cpu.pc c /\ Cpu.rs c3 = Cpu.rs c /\
    Cpu.tick c3 = Cpu.tick c + 3 /\ Cpu._halted c3 = false.
Proof.
  intros Hr Hh Hph Hst Hir addr.
  destruct (reachable_latches _ _ _ _ _ Hr Hst) as (Hw & Ht & _).
  destruct c as [im d r0 p irr tk tl nv io0 ie ii ph st hl lp li ta tv tal].
  cbn in Hh, Hph, Hst, Hir, Hw, Ht, addr. subst hl ph st irr.
  assert (Ha : 0 <= addr < 2 ^ 32).
  { subst addr. destruct (Datapath.stack d) as [|x rest]; cbn; try lia.
    inversion Hw; assumption. }
  set (d1 := Datapath.latch_ar_from_t (Datapath.tick_begin d)).
  assert (Har : Datapath.ar (Datapath.tick_begin d1) = addr).
  { unfold d1. cbn. rewrite Ht. apply land_mask_small, Ha. }
  pose proof (dm_read_value (Datapath.tick_begin d1) eq_refl
                ltac:(rewrite Har; lia)) as Hrd.
  eexists. split.
  - cbn [run_ticks]. rewrite load_step0. cbn [rbind]. fold d1.
    rewrite (load_step1 _ _ _ _ _ _ _ _ _ _ _ _ _ _ _ _ _ Hrd). cbn [rbind].
    rewrite load_step2. cbn [rbind]. reflexivity.
  - cbn [Cpu.dp Cpu._phase Cpu._step Cpu.pc Cpu.rs Cpu.tick Cpu._halted].
    unfold Datapath.data_push.
    cbn [Datapath._refresh_tz Datapath.with_stack Datapath.stack Datapath.mem].
    rewrite (proj1 (data_pop_fields _)),
      (proj1 (proj2 (proj2 (data_pop_fields _)))),
      (proj1 (proj2 (proj2 (proj2 (proj2 (data_pop_fields _)))))).
    cbn [Datapath.tick_begin Datapath.stack Datapath.mem Datapath._last_mem_read].
    rewrite Har. unfold d1.
    cbn [Datapath.tick_begin Datapath.stack Datapath.mem Datapath.latch_ar_from_t
         Datapath.with_ar].
    rewrite land_mask_mod, Z.mod_mod by lia.
    repeat split; lia.
Qed.

Lemma load_instruction_semantics_witness :
  let addr := hd 0 (Datapath.stack (Cpu.dp load_demo_state)) in
  exists c3,
    run_ticks 3 load_demo_state = Ok c3 /\
    Datapath.stack (Cpu.dp c3)
    = default 0 (Datapath.mem (Cpu.dp load_demo_state) !! Z.to_nat addr) mod 2 ^ 32
      :: tail (Datapath.stack (Cpu.dp load_demo_state)) /\
    Datapath.mem (Cpu.dp c3)
    = Datapath.mem (Cpu.dp load_demo_state)
      ++ replicate (Z.to_nat (addr + 1)
                    - length (Datapath.mem (Cpu.dp load_demo_state))) 0 /\
    Cpu._phase c3 = Cpu.FETCH_IR /\ Cpu._step c3 = 0 /\
    Cpu.pc c3 = Cpu.pc load_demo_state /\ Cpu.rs c3 = Cpu.rs load_demo_state /\
    Cpu.tick c3 = Cpu.tick load_demo_state + 3 /\ Cpu._halted c3 = false.
Proof.
  apply (load_instruction_semantics (Cpu.imem mem_demo_start) 2 100 (Io.init [])
                                    load_demo_state 0).
  - apply (run_ticks_reachable 16). vm_compute. reflexivity.
  - vm_compute. reflexivity.
  - vm_compute. reflexivity.
  - vm_compute. reflexivity.
  - vm_compute. reflexivity.
Defined.

Lemma out_step0 (im : list Isa.Instr) (d : Datapath.DataPath) (r0 : list Z)
      (p arg tk tl nv : Z) (io0 : Io.IOController)
      (ie ii : bool) (lp : Z) (li : option Isa.Instr) (ta tv tal : Z) :
  Cpu.step_tick
    (Cpu.mkCPU im d r0 p (Some (Isa.mkInstr Isa.OUT arg)) tk tl nv io0 ie ii
               Cpu.EXEC 0 false lp li ta tv tal)
  = Ok (Cpu.mkCPU im
          (Datapath.latch_io_write_prepare
             (snd (Datapath.data_pop (Datapath.tick_begin d)))
             (fst (Datapath.data_pop (Datapath.tick_begin d))))
          r0 p (Some (Isa.mkInstr Isa.OUT arg)) (tk + 1) tl nv (Io.on_tick io0 tk)
          ie ii Cpu.EXEC 1 false lp li ta tv tal).
Proof.
  unfold Cpu.step_tick, Cpu.exec.
  cbn [Cpu._halted Cpu.begin_tick Cpu._phase Cpu.set_io Cpu.set_dp Cpu.ir
       Cpu.dp Cpu.io Cpu.tick Cpu._step Isa.opcode Isa.arg].
  change (0 =? 0) with true. cbv iota.
  destruct (Datapath.data_pop (Datapath.tick_begin d)) as [a d1]. reflexivity.
Qed.

Lemma out_step1 (im : list Isa.Instr) (d : Datapath.DataPath) (r0 : list Z)
      (p arg tk tl nv : Z) (io0 : Io.IOController)
      (ie ii : bool) (lp : Z) (li : option Isa.Instr) (ta tv tal : Z) :
  Cpu.step_tick
    (Cpu.mkCPU im d r0 p (Some (Isa.mkInstr Isa.OUT arg)) tk tl nv io0 ie ii
               Cpu.EXEC 1 false lp li ta tv tal)
  = Ok (Cpu.mkCPU im (Datapath.tick_begin d)
          r0 p (Some (Isa.mkInstr Isa.OUT arg)) (tk + 1) tl nv
          (Io.write_port (Io.on_tick io0 tk) arg (Datapath.io_reg d))
          ie ii Cpu.FETCH_IR 0 false lp li ta tv tal).
Proof. reflexivity. Qed.

(** X22.  An [OUT] takes two EXEC ticks.  In a machine reached from reset
    it pops the top of the stack (0 when the stack is empty) and appends
    it to the output of the port named by the argument; the output of every
    other port, the memory, [pc] and the return stack do not change. *)
Theorem out_instruction_semantics
        (imem : list Isa.Instr) (data_words tick_limit : Z) (io : Io.IOController)
        (c : Cpu.CPU) (port : Z) :
  reachable (Cpu.init imem data_words io tick_limit) c ->
  Cpu._halted c = false ->
  Cpu._phase c = Cpu.EXEC ->
  Cpu._step c = 0 ->
  Cpu.ir c = Some (Isa.mkInstr Isa.OUT port) ->
  exists c2,
    run_ticks 2 c = Ok c2 /\
    Io.out_dump (Cpu.io c2) !! port
    = Some (default [] (Io.out_dump (Cpu.io c) !! port)
            ++ [hd 0 (Datapath.stack (Cpu.dp c))]) /\
    (forall p', p' <> port ->
                Io.out_dump (Cpu.io c2) !! p' = Io.out_dump (Cpu.io c) !! p') /\
    Datapath.stack (Cpu.dp c2) = tail (Datapath.stack (Cpu.dp c)) /\
    Datapath.mem (Cpu.dp c2) = Datapath.mem (Cpu.dp c) /\
    Cpu._phase c2 = Cpu.FETCH_IR /\ Cpu._step c2 = 0 /\
    Cpu.pc c2 = Cpu.pc c /\ Cpu.rs c2 = Cpu.rs c /\
    Cpu.tick c2 = Cpu.tick c + 2 /\ Cpu._halted c2 = false.
Proof.
  intros Hr Hh Hph Hst Hir.
  destruct (reachable_latches _ _ _ _ _ Hr Hst) as (Hw & _ & _).
  destruct c as [im d r0 p irr tk tl nv io0 ie ii ph st hl lp li ta tv tal].
  cbn in Hh, Hph, Hst, Hir, Hw. subst hl ph st irr.
  assert (Hv : 0 <= hd 0 (Datapath.stack d) < 2 ^ 32).
  { destruct (Datapath.stack d) as [|x rest]; cbn; try lia.
    inversion Hw; assumption. }
  eexists. split.
  - cbn [run_ticks]. rewrite out_step0. cbn [rbind].
    rewrite out_step1. cbn [rbind]. reflexivity.
  - cbn [Cpu.dp Cpu.io Cpu._phase Cpu._step Cpu.pc Cpu.rs Cpu.tick Cpu._halted].
    unfold Io.out_dump, Io.write_port, Datapath.latch_io_write_prepare.
    cbn [Io._out_queues Datapath.io_reg Datapath.with_io_reg Datapath.tick_begin
         Datapath.stack Datapath.mem].
    rewrite !on_tick_delivers_in_order_aux.
    rewrite (proj1 (data_pop_fields _)),
      (proj1 (proj2 (data_pop_fields _))),
      (proj1 (proj2 (proj2 (data_pop_fields _)))).
    cbn [Datapath.tick_begin Datapath.stack Datapath.mem].
    rewrite (land_mask_small _ Hv).
    unfold Io.setdefault_append.
    split; [apply lookup_insert_eq|].
    split; [intros p' Hne; apply lookup_insert_ne; congruence|].
    repeat split; lia.
Qed.

Lemma out_instruction_semantics_witness :
  exists c2,
    run_ticks 2 out_demo_state = Ok c2 /\
    Io.out_dump (Cpu.io c2) !! 2
    = Some (default [] (Io.out_dump (Cpu.io out_demo_state) !! 2)
            ++ [hd 0 (Datapath.stack (Cpu.dp out_demo_state))]) /\
    (forall p', p' <> 2 ->
                Io.out_dump (Cpu.io c2) !! p'
                = Io.out_dump (Cpu.io out_demo_state) !! p') /\
    Datapath.stack (Cpu.dp c2) = tail (Datapath.stack (Cpu.dp out_demo_state)) /\
    Datapath.mem (Cpu.dp c2) = Datapath.mem (Cpu.dp out_demo_state) /\
    Cpu._phase c2 = Cpu.FETCH_IR /\ Cpu._step c2 = 0 /\
    Cpu.pc c2 = Cpu.pc out_demo_state /\ Cpu.rs c2 = Cpu.rs out_demo_state /\
    Cpu.tick c2 = Cpu.tick out_demo_state + 2 /\ Cpu._halted c2 = false.
Proof.
  apply (out_instruction_semantics (Cpu.imem mem_demo_start) 2 100 (Io.init [])
                                   out_demo_state 2).
  - apply (run_ticks_reachable 21). vm_compute. reflexivity.
  - vm_compute. reflexivity.
  - vm_compute. reflexivity.
  - vm_compute. reflexivity.
  - vm_compute. reflexivity.
Defined.

Lemma in_step0 (im : list Isa.Instr) (d : Datapath.DataPath) (r0 : list Z)
      (p arg tk tl nv : Z) (io0 : Io.IOController)
      (ie ii : bool) (lp : Z) (li : option Isa.Instr) (ta tv tal : Z) :
  Cpu.step_tick
    (Cpu.mkCPU im d r0 p (Some (Isa.mkInstr Isa.IN arg)) tk tl nv io0 ie ii
               Cpu.EXEC 0 false lp li ta tv tal)
  = Ok (Cpu.mkCPU im
          (Datapath.with_io_reg (Datapath.tick_begin d)
             (Z.land (fst (Io.read_port (Io.on_tick io0 tk) arg)) Datapath.MASK32))
          r0 p (Some (Isa.mkInstr Isa.IN arg)) (tk + 1) tl nv
          (snd (Io.read_port (Io.on_tick io0 tk) arg))
          ie ii Cpu.EXEC 1 false lp li ta tv tal).
Proof.
  unfold Cpu.step_tick, Cpu.exec.
  cbn [Cpu._halted Cpu.begin_tick Cpu._phase Cpu.set_io Cpu.set_dp Cpu.ir
       Cpu.dp Cpu.io Cpu.tick Cpu._step Isa.opcode Isa.arg].
  change (0 =? 0) with true. cbv iota. unfold Datapath.latch_io_read.
  destruct (Io.read_port (Io.on_tick io0 tk) arg) as [v io1]. reflexivity.
Qed.

Lemma in_step1 (im : list Isa.Instr) (d : Datapath.DataPath) (r0 : list Z)
      (p arg tk tl nv : Z) (io0 : Io.IOController)
      (ie ii : bool) (lp : Z) (li : option Isa.Instr) (ta tv tal : Z) :
  Cpu.step_tick
    (Cpu.mkCPU im d r0 p (Some (Isa.mkInstr Isa.IN arg)) tk tl nv io0 ie ii
               Cpu.EXEC 1 false lp li ta tv tal)
  = Ok (Cpu.mkCPU im
          (Datapath.data_push (Datapath.tick_begin d) (Datapath.io_reg d))
          r0 p (Some (Isa.mkInstr Isa.IN arg)) (tk + 1) tl nv (Io.on_tick io0 tk)
          ie ii Cpu.FETCH_IR 0 false lp li ta tv tal).
Proof. reflexivity. Qed.

Lemma read_port_queue (io : Io.IOController) (p : Z) :
  fst (Io.read_port io p) = hd 0 (default [] (Io._in_queues io !! p)) /\
  default [] (Io._in_queues (snd (Io.read_port io p)) !! p)
  = tail (default [] (Io._in_queues io !! p)) /\
  Io._schedule (snd (Io.read_port io p)) = Io._schedule io.
Proof.
  unfold Io.read_port.
  destruct (Io._in_queues io !! p) as [[|v q]|] eqn:E; cbn.
  - rewrite E. repeat split.
  - rewrite lookup_insert_eq. repeat split.
  - rewrite E. repeat split.
Qed.

Lemma on_tick_in_queue (io : Io.IOController) (t p : Z) :
  default [] (Io._in_queues (Io.on_tick io t) !! p)
  = default [] (Io._in_queues io !! p)
    ++ map Io.value
         (filter (fun ev => Io.port ev = p) (default [] (Io._schedule io !! t))) /\
  Io._schedule (Io.on_tick io t) = Io._schedule io.
Proof.
  unfold Io.on_tick.
  destruct (on_tick_events_queues (default [] (Io._schedule io !! t)) io p)
    as (Hq & _ & Hs & _).
  split; assumption.
Qed.

(** X23.  An [IN] takes two EXEC ticks.  It takes the oldest value waiting
    on the port named by the argument, counting the values the schedule
    delivers in the first of the two ticks, and pushes its low 32 bits; with
    nothing waiting it pushes 0.  The values delivered in the second tick
    stay queued behind the rest; the memory, [pc] and the return stack do
    not change. *)
Theorem in_instruction_semantics (c : Cpu.CPU) (port : Z) :
  Cpu._halted c = false ->
  Cpu._phase c = Cpu.EXEC ->
  Cpu._step c = 0 ->
  Cpu.ir c = Some (Isa.mkInstr Isa.IN port) ->
  let arriving t :=
    map Io.value
        (filter (fun ev => Io.port ev = port)
                (default [] (Io._schedule (Cpu.io c) !! t))) in
  let q := default [] (Io._in_queues (Cpu.io c) !! port) ++ arriving (Cpu.tick c) in
  exists c2,
    run_ticks 2 c = Ok c2 /\
    Datapath.stack (Cpu.dp c2) = hd 0 q mod 2 ^ 32 :: Datapath.stack (Cpu.dp c) /\
    default [] (Io._in_queues (Cpu.io c2) !! port)
    = tail q ++ arriving (Cpu.tick c + 1) /\
    Io.out_dump (Cpu.io c2) = Io.out_dump (Cpu.io c) /\
    Datapath.mem (Cpu.dp c2) = Datapath.mem (Cpu.dp c) /\
    Cpu._phase c2 = Cpu.FETCH_IR /\ Cpu._step c2 = 0 /\
    Cpu.pc c2 = Cpu.pc c /\ Cpu.rs c2 = Cpu.rs c /\
    Cpu.tick c2 = Cpu.tick c + 2 /\ Cpu._halted c2 = false.
Proof.
  intros Hh Hph Hst Hir arriving q.
  destruct c as [im d r0 p irr tk tl nv io0 ie ii ph st hl lp li ta tv tal].
  cbn in Hh, Hph, Hst, Hir, arriving, q. subst hl ph st irr.
  destruct (on_tick_in_queue io0 tk port) as (Hq0 & Hs0).
  destruct (read_port_queue (Io.on_tick io0 tk) port) as (Hv & Hq1 & Hs1).
  destruct (on_tick_in_queue (snd (Io.read_port (Io.on_tick io0 tk) port))
                             (tk + 1) port) as (Hq2 & _).
  eexists. split.
  - cbn [run_ticks]. rewrite in_step0. cbn [rbind].
    rewrite in_step1. cbn [rbind]. reflexivity.
  - cbn [Cpu.dp Cpu.io Cpu._phase Cpu._step Cpu.pc Cpu.rs Cpu.tick Cpu._halted].
    unfold Datapath.data_push, Io.out_dump.
    cbn [Datapath._refresh_tz Datapath.with_stack Datapath.stack Datapath.mem
         Datapath.with_io_reg Datapath.io_reg Datapath.tick_begin].
    rewrite Hq2, Hq1, Hs1, Hs0, Hv, Hq0.
    rewrite on_tick_delivers_in_order_aux,
      (proj1 (read_port_fifo_aux _ _)), on_tick_delivers_in_order_aux.
    rewrite !land_mask_mod, Z.mod_mod by lia.
    repeat split; lia.
Qed.

Lemma in_instruction_semantics_witness :
  let arriving t :=
    map Io.value
        (filter (fun ev => Io.port ev = 1)
                (default [] (Io._schedule (Cpu.io in_demo_state) !! t))) in
  let q := default [] (Io._in_queues (Cpu.io in_demo_state) !! 1)
           ++ arriving (Cpu.tick in_demo_state) in
  exists c2,
    run_ticks 2 in_demo_state = Ok c2 /\
    Datapath.stack (Cpu.dp c2)
    = hd 0 q mod 2 ^ 32 :: Datapath.stack (Cpu.dp in_demo_state) /\
    default [] (Io._in_queues (Cpu.io c2) !! 1)
    = tail q ++ arriving (Cpu.tick in_demo_state + 1) /\
    Io.out_dump (Cpu.io c2) = Io.out_dump (Cpu.io in_demo_state) /\
    Datapath.mem (Cpu.dp c2) = Datapath.mem (Cpu.dp in_demo_state) /\
    Cpu._phase c2 = Cpu.FETCH_IR /\ Cpu._step c2 = 0 /\
    Cpu.pc c2 = Cpu.pc in_demo_state /\ Cpu.rs c2 = Cpu.rs in_demo_state /\
    Cpu.tick c2 = Cpu.tick in_demo_state + 2 /\ Cpu._halted c2 = false.
Proof.
  apply (in_instruction_semantics in_demo_state 1); vm_compute; reflexivity.
Defined.

Lemma exec_interrupt_flags (c c' : Cpu.CPU) :
  Cpu.exec c = Ok c' ->
  (Cpu.in_isr c' <> Cpu.in_isr c ->
   Cpu.in_isr c' = false /\ exists a, Cpu.ir c = Some (Isa.mkInstr Isa.IRET a)) /\
  (Cpu.int_enabled c' <> Cpu.int_enabled c ->
   exists a, Cpu.ir c = Some (Isa.mkInstr Isa.EI a) /\ Cpu.int_enabled c' = true
             \/ Cpu.ir c = Some (Isa.mkInstr Isa.DI a) /\ Cpu.int_enabled c' = false).
Proof.
  intros H.
  destruct c as [im d r p irr tk tl nv io0 ie ii ph st hl lp li ta tv tal].
  unfold Cpu.exec, Cpu.unhandled, Cpu.pop_return, Datapath.dm_read,
    Datapath.dm_write, Datapath.io_write_commit, py_index, py_setitem, rbind in H.
  simpl in H. destruct irr as [[op a]|]; [|discriminate H].
  destruct op; split_result H; injection H as <-; cbn;
    (split; intros Hne; try congruence); eauto.
Qed.

(** X24.  The two interrupt flags change only in three ways.  [in_isr]
    is set only by the dispatch of a latched request, in a FETCH_IR tick
    with interrupts enabled, which also loads [pc] with the port number;
    it is cleared only by the EXEC tick of an [IRET].  [int_enabled] is
    changed only by the EXEC tick of an [EI] (set) or a [DI] (cleared):
    entering and leaving a handler leave it as it was. *)
Theorem interrupt_flags_change_only_by (c c' : Cpu.CPU) :
  Cpu.step_tick c = Ok c' ->
  (Cpu.in_isr c' <> Cpu.in_isr c ->
   (Cpu.in_isr c' = true /\ Cpu._phase c = Cpu.FETCH_IR /\
    Cpu.int_enabled c = true /\
    Io.irq_pending (Cpu.io (Cpu.begin_tick c)) = Some (Cpu.pc c'))
   \/ (Cpu.in_isr c' = false /\ Cpu._phase c = Cpu.EXEC /\
       exists a, Cpu.ir c = Some (Isa.mkInstr Isa.IRET a))) /\
  (Cpu.int_enabled c' <> Cpu.int_enabled c ->
   Cpu._phase c = Cpu.EXEC /\
   exists a, Cpu.ir c = Some (Isa.mkInstr Isa.EI a) /\ Cpu.int_enabled c' = true
             \/ Cpu.ir c = Some (Isa.mkInstr Isa.DI a) /\ Cpu.int_enabled c' = false).
Proof.
  intros H. unfold Cpu.step_tick in H.
  destruct (Cpu._halted c) eqn:Hh.
  { injection H as <-. split; intros Hne; congruence. }
  assert (Hb : Cpu._phase (Cpu.begin_tick c) = Cpu._phase c /\
               Cpu.int_enabled (Cpu.begin_tick c) = Cpu.int_enabled c /\
               Cpu.in_isr (Cpu.begin_tick c) = Cpu.in_isr c /\
               Cpu.ir (Cpu.begin_tick c) = Cpu.ir c)
    by (destruct c; repeat split).
  destruct Hb as (Hbp & Hbe & Hbi & Hbr).
  set (b := Cpu.begin_tick c) in *.
  assert (Hfetch : Cpu.fetch b = Ok c' ->
                   Cpu.in_isr c' = Cpu.in_isr b /\
                   Cpu.int_enabled c' = Cpu.int_enabled b).
  { unfold Cpu.fetch. intros H0.
    destruct (py_index _ _); cbn [rbind] in H0; [|discriminate H0].
    injection H0 as <-. split; reflexivity. }
  rewrite <- Hbp, <- Hbe, <- Hbi, <- Hbr.
  destruct (Cpu._phase b) eqn:Hph.
  - unfold Cpu.maybe_raise_irq in H.
    destruct (Cpu.int_enabled b) eqn:He, (Cpu.in_isr b) eqn:Hi; cbn [negb orb] in H;
      try (apply Hfetch in H; split; intros Hne; exfalso; intuition congruence).
    destruct (Io.irq_pending (Cpu.io b)) as [q|] eqn:Hq;
      [|apply Hfetch in H; split; intros Hne; exfalso; intuition congruence].
    injection H as <-. cbn. split; intros Hne; [|congruence].
    left. repeat split; assumption.
  - injection H as <-. unfold Cpu.latch_pc. cbn. split; intros Hne; congruence.
  - destruct (exec_interrupt_flags _ _ H) as [Hi He].
    split; intros Hne.
    + right. destruct (Hi Hne) as [Hf Hir]. repeat split; assumption.
    + split; [reflexivity|]. exact (He Hne).
Qed.

Lemma interrupt_flags_change_only_by_witness :
  (Cpu.in_isr (after_ticks 1 irq_demo_state) <> Cpu.in_isr irq_demo_state ->
   (Cpu.in_isr (after_ticks 1 irq_demo_state) = true /\
    Cpu._phase irq_demo_state = Cpu.FETCH_IR /\
    Cpu.int_enabled irq_demo_state = true /\
    Io.irq_pending (Cpu.io (Cpu.begin_tick irq_demo_state))
    = Some (Cpu.pc (after_ticks 1 irq_demo_state)))
   \/ (Cpu.in_isr (after_ticks 1 irq_demo_state) = false /\
       Cpu._phase irq_demo_state = Cpu.EXEC /\
       exists a, Cpu.ir irq_demo_state = Some (Isa.mkInstr Isa.IRET a))) /\
  (Cpu.int_enabled (after_ticks 1 irq_demo_state) <> Cpu.int_enabled irq_demo_state ->
   Cpu._phase irq_demo_state = Cpu.EXEC /\
   exists a, Cpu.ir irq_demo_state = Some (Isa.mkInstr Isa.EI a)
             /\ Cpu.int_enabled (after_ticks 1 irq_demo_state) = true
             \/ Cpu.ir irq_demo_state = Some (Isa.mkInstr Isa.DI a)
                /\ Cpu.int_enabled (after_ticks 1 irq_demo_state) = false).
Proof.
  apply (interrupt_flags_change_only_by irq_demo_state (after_ticks 1 irq_demo_state)).
  vm_compute. reflexivity.
Defined.

(** ** The allocator through code generation *)

Section CodegenAlloc.
Import Isa Ast Codegen.

Lemma grows_refl (cg : Codegen) : grows cg cg.
Proof. split; [lia|]. split; [intros n x Hx; exact Hx|exact id]. Qed.

Lemma grows_trans (a b c : Codegen) : grows a b -> grows b c -> grows a c.
Proof.
  intros (D1 & V1 & A1) (D2 & V2 & A2).
  split; [lia|]. split; [intros n x Hx; apply V2, V1, Hx|intros Hok; apply A2, A1, Hok].
Qed.

Lemma grows_emit (a b : Codegen) (op : Opcode) (x : Z) :
  grows a b -> grows a (emit b op x).
Proof. exact id. Qed.

Lemma grows_emits (a b : Codegen) (l : list Instr) :
  grows a b -> grows a (emits b l).
Proof.
  revert b. unfold emits. induction l as [|i l IH]; intros b K; simpl; [exact K|].
  apply IH. apply grows_emit. exact K.
Qed.

Lemma alloc_var_grows (b c : Codegen) (name : string) (x : Z) :
  alloc_var b name = (x, c) -> grows b c.
Proof.
  intros E. unfold alloc_var in E.
  destruct (vars b !! name) as [a0|] eqn:Hn; [injection E as _ <-; apply grows_refl|].
  assert (X : exists k, 1 <= k /\
                c = set_data_next (set_vars b (<[name := data_next b]> (vars b)))
                                  (data_next b + k)).
  { cbv zeta in E. cbn [var_types set_vars] in E.
    destruct (var_types b !! name) as [ty|]; [destruct (String.eqb ty "long")|];
      injection E as _ <-; eexists; (split; [|reflexivity]); lia. }
  destruct X as (k & Hk & ->). unfold grows, alloc_ok. cbn [data_next vars set_data_next set_vars].
  split; [lia|]. split.
  - intros n y Hy. rewrite lookup_insert_ne; [exact Hy|]. congruence.
  - intros (D & R & I). split; [lia|]. split.
    + intros n y Hy. destruct (decide (name = n)) as [Heq|Hne].
      * subst n. rewrite lookup_insert_eq in Hy. injection Hy as <-. lia.
      * rewrite lookup_insert_ne in Hy by exact Hne. apply R in Hy. lia.
    + intros n m y Hn' Hm'.
      destruct (decide (name = n)) as [Heq|Hne];
        destruct (decide (name = m)) as [Heq'|Hne']; try congruence.
      * subst n. rewrite lookup_insert_eq in Hn'. injection Hn' as <-.
        rewrite lookup_insert_ne in Hm' by exact Hne'. apply R in Hm'. lia.
      * subst m. rewrite lookup_insert_eq in Hm'. injection Hm' as <-.
        rewrite lookup_insert_ne in Hn' by exact Hne. apply R in Hn'. lia.
      * rewrite lookup_insert_ne in Hn' by exact Hne.
        rewrite lookup_insert_ne in Hm' by exact Hne'. eapply I; eassumption.
Qed.

Lemma grows_alloc_var (a b c : Codegen) (name : string) (x : Z) :
  alloc_var b name = (x, c) -> grows a b -> grows a c.
Proof. intros E K. eapply grows_trans; [exact K|eapply alloc_var_grows, E]. Qed.

Lemma grows_alloc_buffer (a b c : Codegen) (words x : Z) :
  alloc_buffer b words = (x, c) -> 0 <= words -> grows a b -> grows a c.
Proof.
  intros [= _ <-] Hw K. eapply grows_trans; [exact K|].
  unfold grows, alloc_ok. cbn [data_next vars set_data_next].
  split; [lia|]. split; [auto|].
  intros (D & R & I). split; [lia|]. split; [|exact I].
  intros n y Hy. apply R in Hy. lia.
Qed.

Lemma grows_set_break_stack (a b : Codegen) (v : list (list Z)) :
  grows a b -> grows a (set_break_stack b v).
Proof. exact id. Qed.

Lemma grows_set_var_types (a b : Codegen) (v : gmap string string) :
  grows a b -> grows a (set_var_types b v).
Proof. exact id. Qed.

Lemma grows_set_array_bases (a b : Codegen) (v : gmap string Z) :
  grows a b -> grows a (set_array_bases b v).
Proof. exact id. Qed.

Lemma grows_set_string_bases (a b : Codegen) (v : gmap string Z) :
  grows a b -> grows a (set_string_bases b v).
Proof. exact id. Qed.

Lemma grows_set_labels (a b : Codegen) (v : gmap string Z) :
  grows a b -> grows a (set_labels b v).
Proof. exact id. Qed.

Lemma grows_set_code (a b : Codegen) (v : list Instr) :
  grows a b -> grows a (set_code b v).
Proof. exact id. Qed.

Lemma grows_patch (a b c : Codegen) (pos v : Z) :
  patch b pos v = Ok c -> grows a b -> grows a c.
Proof.
  intros E K. unfold patch in E.
  destruct (py_index (code b) pos) as [i|]; cbn [rbind] in E; [|discriminate E].
  destruct (py_setitem (code b) pos _) as [l'|]; cbn [rbind] in E; [|discriminate E].
  injection E as <-. exact K.
Qed.

Lemma grows_register_break (a b c : Codegen) (pos : Z) :
  register_break b pos = Ok c -> grows a b -> grows a c.
Proof.
  unfold register_break. intros E K.
  destruct (break_stack b); [discriminate E|]. injection E as <-. exact K.
Qed.

Lemma grows_patch_all (l : list Z) (a b c : Codegen) (v : Z) :
  patch_all b l v = Ok c -> grows a b -> grows a c.
Proof.
  revert b. induction l as [|pos rest IH]; intros b E K; simpl in E.
  - injection E as <-. exact K.
  - destruct (patch b pos v) as [b'|] eqn:Ep; cbn [rbind] in E; [|discriminate E].
    eapply IH; [exact E|]. eapply grows_patch; eauto.
Qed.

Ltac ga_split H :=
  repeat (cbv beta iota zeta in H; unfold rbind in H;
          match type of H with
          | Raise _ = Ok _ => discriminate H
          | context [match ?x with _ => _ end] => destruct x eqn:?
          end);
  cbv beta iota zeta in H.

Ltac grows_solve :=
  first
    [ apply grows_refl
    | assumption
    | apply grows_emits; grows_solve
    | apply grows_emit; grows_solve
    | apply grows_set_break_stack; grows_solve
    | apply grows_set_var_types; grows_solve
    | apply grows_set_array_bases; grows_solve
    | apply grows_set_string_bases; grows_solve
    | apply grows_set_labels; grows_solve
    | match goal with
      | E : alloc_var _ _ = (_, ?c) |- grows _ ?c =>
          eapply grows_alloc_var; [exact E|grows_solve]
      | E : alloc_buffer _ _ = (_, ?c) |- grows _ ?c =>
          eapply grows_alloc_buffer; [exact E|lia|grows_solve]
      | E : patch _ _ _ = Ok ?c |- grows _ ?c =>
          eapply grows_patch; [exact E|grows_solve]
      | E : register_break _ _ = Ok ?c |- grows _ ?c =>
          eapply grows_register_break; [exact E|grows_solve]
      | E : patch_all _ _ _ = Ok ?c |- grows _ ?c =>
          eapply grows_patch_all; [exact E|grows_solve]
      | K : grows ?b ?c |- grows _ ?c =>
          apply (fun X => grows_trans _ _ _ X K); grows_solve
      end ].

Ltac ga_done H := ga_split H; try (injection H as <-); grows_solve.

Lemma emit_print_cstr_grows (cg cg' : Codegen) (addr : Z) :
  _emit_print_cstr cg addr = Ok cg' -> grows cg cg'.
Proof. unfold _emit_print_cstr. intros H. ga_done H. Qed.

Lemma gen_readInt_grows (cg cg' : Codegen) : gen_readInt cg = Ok cg' -> grows cg cg'.
Proof. unfold gen_readInt. intros H. ga_done H. Qed.

Lemma ensure_array_grows (a b : Codegen) (name : string) :
  grows a b -> grows a (ensure_array_initialized b name).
Proof.
  intros K. unfold ensure_array_initialized.
  destruct (array_bases b !! name); [exact K|].
  destruct (alloc_buffer b 128) as [base c1] eqn:E1.
  destruct (alloc_var _ name) as [va c2] eqn:E2. grows_solve.
Qed.

Lemma emit_chars_grows (text : list Ascii.ascii) (a b : Codegen) (base i : Z) :
  grows a b -> grows a (emit_chars b base i text).
Proof.
  revert b i. induction text as [|ch rest IH]; intros b i K; simpl; [exact K|].
  apply IH. grows_solve.
Qed.

Lemma ensure_cstr_grows (a b c : Codegen) (text : string) (x : Z) :
  grows a b -> _ensure_cstr_literal b text = (x, c) -> grows a c.
Proof.
  intros K E. unfold _ensure_cstr_literal in E.
  destruct (string_bases b !! text); [injection E as _ <-; exact K|].
  destruct (alloc_buffer b _) as [base c1] eqn:E1.
  destruct (alloc_var _ _) as [va c2] eqn:E2.
  injection E as _ <-.
  assert (grows a (emit_chars c1 base 0 (String.list_ascii_of_string text)))
    by (apply emit_chars_grows; grows_solve).
  grows_solve.
Qed.

Lemma gen_expr_grows (e : Expr) :
  forall cg cg', gen_expr e cg = Ok cg' -> grows cg cg'.
Proof.
  induction e as [v|n|op a b IHa IHb|name args IHargs] using Expr_nested_ind;
    intros cg cg' H; simpl in H.
  - ga_done H.
  - ga_done H.
  - ga_split H; try discriminate H;
      repeat match goal with
             | E : gen_expr a _ = Ok _ |- _ => apply IHa in E
             | E : gen_expr b _ = Ok _ |- _ => apply IHb in E
             end;
      try (injection H as <-); grows_solve.
  - destruct (String.eqb name "readInt"); [apply gen_readInt_grows, H|].
    destruct (String.eqb name "readChar"); [ga_done H|].
    destruct (String.eqb name "get"); [|discriminate H].
    destruct args as [|[v|arr|op a b|f l] [|idx [|x rest]]]; try discriminate H.
    inversion IHargs as [|? ? _ Hrest]; subst.
    inversion Hrest as [|? ? Hidx _]; subst.
    pose proof (ensure_array_grows cg cg arr (grows_refl cg)) as K0.
    ga_split H; try discriminate H.
    match goal with E : gen_expr idx _ = Ok _ |- _ => apply Hidx in E end.
    injection H as <-. grows_solve.
Qed.

Ltac expr_grows :=
  repeat match goal with
         | E : gen_expr _ _ = Ok _ |- _ => apply gen_expr_grows in E
         | E : _emit_print_cstr _ _ = Ok _ |- _ => apply emit_print_cstr_grows in E
         end.

Lemma gen_readString_grows (cg cg' : Codegen) (name : string) :
  gen_readString cg name = Ok cg' -> grows cg cg'.
Proof. unfold gen_readString. intros H. ga_done H. Qed.

Lemma gen_load_long_grows (a b : Codegen) (var : string) :
  grows a b -> grows a (gen_load_long b var).
Proof.
  intros K. unfold gen_load_long.
  destruct (alloc_var b var) as [addr c] eqn:E. grows_solve.
Qed.

Lemma gen_long_add_grows (cg cg' : Codegen) (base : Z) (va vb : string) :
  gen_long_add cg base va vb = Ok cg' -> grows cg cg'.
Proof.
  unfold gen_long_add. intros H.
  pose proof (gen_load_long_grows cg _ vb
                (gen_load_long_grows cg cg va (grows_refl cg))) as K0.
  ga_done H.
Qed.

Lemma gen_assign_grows (cg cg' : Codegen) (name : string) (expr : Expr) :
  gen_assign cg name expr = Ok cg' -> grows cg cg'.
Proof.
  unfold gen_assign. intros H.
  ga_split H; try discriminate H;
    repeat match goal with
           | E : gen_readString _ _ = Ok _ |- _ => apply gen_readString_grows in E
           | E : gen_long_add _ _ _ _ = Ok _ |- _ => apply gen_long_add_grows in E
           end;
    expr_grows; try (injection H as <-); grows_solve.
Qed.

Lemma gen_call_stmt_grows (cg cg' : Codegen) (name : string) (args : list Expr) :
  gen_call_stmt cg name args = Ok cg' -> grows cg cg'.
Proof.
  unfold gen_call_stmt. intros H.
  destruct args as [|e1 [|e2 [|e3 [|e4 rest]]]].
  - ga_done H.
  - ga_split H; try discriminate H; expr_grows; try (injection H as <-); grows_solve.
  - destruct e1; discriminate H.
  - destruct e1 as [v|arr|op a b|f l]; try discriminate H.
    destruct (String.eqb name "set"); [|discriminate H].
    pose proof (ensure_array_grows cg cg arr (grows_refl cg)) as K0.
    ga_split H; try discriminate H; expr_grows; injection H as <-; grows_solve.
  - destruct e1; discriminate H.
Qed.

Lemma gen_var_decl_grows (cg : Codegen) (vtype name : string) :
  grows cg (gen_var_decl cg vtype name).
Proof.
  unfold gen_var_decl.
  destruct (alloc_var cg name) as [x c1] eqn:E1.
  destruct (String.eqb vtype "string"); [|grows_solve].
  destruct (alloc_buffer _ 64) as [base c2] eqn:E2.
  destruct (alloc_var c2 name) as [va c3] eqn:E3. grows_solve.
Qed.

Lemma stmts_with_grows (l : list Stmt) :
  Forall stmt_grows l ->
  forall cg cg', stmts_with gen_stmt l cg = Ok cg' -> grows cg cg'.
Proof.
  induction 1 as [|st rest Hst _ IH]; intros cg cg' H; simpl in H.
  - injection H as <-. apply grows_refl.
  - destruct (gen_stmt st cg) as [c1|] eqn:E; cbn [rbind] in H; [|discriminate H].
    eapply grows_trans; [apply Hst, E|apply IH, H].
Qed.

Lemma while_body_grows (l : list Stmt) :
  Forall stmt_grows l ->
  forall cg cg', while_body gen_stmt l cg = Ok cg' -> grows cg cg'.
Proof.
  induction 1 as [|st rest Hst _ IH]; intros cg cg' H; simpl in H.
  - injection H as <-. apply grows_refl.
  - match type of H with
    | rbind ?m _ = _ => destruct m as [c1|] eqn:E; cbn [rbind] in H; [|discriminate H]
    end.
    eapply grows_trans; [|apply IH, H].
    destruct st; try (apply Hst, E). grows_solve.
Qed.

Lemma gen_stmt_grows (s : Stmt) : stmt_grows s.
Proof.
  induction s as [vt n|n e|c body IHb|e|txt|e| |c tb eb IHt IHe|n args]
    using Stmt_nested_ind; intros cg cg' H; simpl in H.
  - injection H as <-. apply gen_var_decl_grows.
  - apply gen_assign_grows in H. exact H.
  - ga_split H; try discriminate H; expr_grows.
    match goal with
    | E : while_body _ _ _ = Ok _ |- _ => apply (while_body_grows _ IHb) in E
    end.
    grows_solve.
  - ga_split H; try discriminate H; expr_grows; injection H as <-; grows_solve.
  - destruct (_ensure_cstr_literal cg txt) as [va c1] eqn:E1.
    apply emit_print_cstr_grows in H.
    eapply grows_trans; [|exact H].
    eapply ensure_cstr_grows; [apply grows_refl|exact E1].
  - ga_split H; try discriminate H; expr_grows; try (injection H as <-); grows_solve.
  - ga_split H; try discriminate H; grows_solve.
  - destruct eb as [l0|].
    + specialize (IHe l0 eq_refl).
      ga_split H; try discriminate H; expr_grows;
        repeat match goal with
               | E : stmts_with _ tb _ = Ok _ |- _ => apply (stmts_with_grows _ IHt) in E
               | E : stmts_with _ l0 _ = Ok _ |- _ => apply (stmts_with_grows _ IHe) in E
               end;
        grows_solve.
    + ga_split H; try discriminate H; expr_grows;
        repeat match goal with
               | E : stmts_with _ tb _ = Ok _ |- _ => apply (stmts_with_grows _ IHt) in E
               end;
        grows_solve.
  - apply gen_call_stmt_grows in H. exact H.
Qed.

Lemma gen_stmts_grows (l : list Stmt) (cg cg' : Codegen) :
  gen_stmts l cg = Ok cg' -> grows cg cg'.
Proof.
  apply stmts_with_grows. apply Forall_forall. intros s _. apply gen_stmt_grows.
Qed.

Lemma gen_func_grows (f : Func) (cg cg' : Codegen) :
  gen_func f cg = Ok cg' -> grows cg cg'.
Proof.
  unfold gen_func. intros H.
  destruct (gen_stmts (fbody f) _) as [c1|] eqn:E; cbn [rbind] in H; [|discriminate H].
  apply gen_stmts_grows in E.
  assert (K : grows cg c1) by exact E.
  destruct (String.eqb (fname f) "main"); [injection H as <-; exact K|].
  destruct (_is_irq_func (fname f)); injection H as <-; exact K.
Qed.

Lemma gen_funcs_grows (l : list Func) :
  forall cg cg', gen_funcs l cg = Ok cg' -> grows cg cg'.
Proof.
  induction l as [|f rest IH]; intros cg cg' H; simpl in H.
  - injection H as <-. apply grows_refl.
  - destruct (gen_func f cg) as [c1|] eqn:E; cbn [rbind] in H; [|discriminate H].
    eapply grows_trans; [exact (gen_func_grows _ _ _ E)|apply IH, H].
Qed.

End CodegenAlloc.

(** X25.  Translating a program never moves or merges variables: starting
    from a generator state in which every variable has a cell of its own
    below [data_next], the state after [gen] is again such a state, every
    variable known before has kept its address, and [data_next] has not
    decreased.  In particular two names never share their (first) cell. *)
Theorem gen_keeps_variables_apart
        (prog : Ast.Program) (cg cg' : Codegen.Codegen) (image : list Isa.Instr) :
  Codegen.gen_from cg prog = Ok (image, cg') ->
  alloc_ok cg ->
  alloc_ok cg' /\
  Codegen.data_next cg <= Codegen.data_next cg' /\
  (forall n x, Codegen.vars cg !! n = Some x -> Codegen.vars cg' !! n = Some x).
Proof.
  unfold Codegen.gen_from. intros H Hok.
  destruct (Codegen.gen_funcs (Ast.functions prog) cg) as [c1|] eqn:E;
    cbn [rbind] in H; [|discriminate H].
  injection H as _ <-.
  destruct (gen_funcs_grows _ _ _ E) as (D & V & A).
  split; [exact (A Hok)|]. split; [exact D|exact V].
Qed.

Lemma gen_keeps_variables_apart_witness :
  alloc_ok (snd alloc_demo_result) /\
  Codegen.data_next alloc_demo_start <= Codegen.data_next (snd alloc_demo_result) /\
  (forall n x, Codegen.vars alloc_demo_start !! n = Some x ->
               Codegen.vars (snd alloc_demo_result) !! n = Some x).
Proof.
  apply (gen_keeps_variables_apart alloc_demo_program alloc_demo_start
                                   (snd alloc_demo_result) (fst alloc_demo_result)).
  - vm_compute. reflexivity.
  - unfold alloc_ok, alloc_demo_start. cbn [Codegen.data_next Codegen.vars].
    split; [lia|]. split.
    + intros n x Hx.
      apply lookup_insert_Some in Hx. destruct Hx as [[_ <-]|[_ Hx]]; [lia|].
      apply lookup_insert_Some in Hx. destruct Hx as [[_ <-]|[_ Hx]]; [lia|].
      rewrite lookup_empty in Hx. discriminate Hx.
    + intros n m x Hn Hm.
      apply lookup_insert_Some in Hn. apply lookup_insert_Some in Hm.
      destruct Hn as [[<- <-]|[_ Hn]]; destruct Hm as [[<- Hm]|[Hny Hm]];
        try reflexivity.
      * apply lookup_insert_Some in Hm. destruct Hm as [[_ Hm]|[_ Hm]];
          [discriminate Hm|rewrite lookup_empty in Hm; discriminate Hm].
      * apply lookup_insert_Some in Hn. destruct Hn as [[_ <-]|[_ Hn]];
          [discriminate Hm|rewrite lookup_empty in Hn; discriminate Hn].
      * apply lookup_insert_Some in Hn. apply lookup_insert_Some in Hm.
        destruct Hn as [[<- <-]|[_ Hn]];
          [|rewrite lookup_empty in Hn; discriminate Hn].
        destruct Hm as [[<- _]|[_ Hm]];
          [reflexivity|rewrite lookup_empty in Hm; discriminate Hm].
Defined.

(** ** Jump targets through code generation *)

Section CodegenJumps.
Import Isa Ast Codegen.

Lemma jump_le_mono (lo hi : Z) (ins : Instr) :
  lo <= hi -> jump_le lo ins -> jump_le hi ins.
Proof. unfold jump_le. intros Hle H Hj. specialize (H Hj). lia. Qed.

Lemma tops_refl (cg : Codegen) : tops cg cg.
Proof. split; [lia|exact id]. Qed.

Lemma tops_trans (a b c : Codegen) : tops a b -> tops b c -> tops a c.
Proof. intros (N1 & J1) (N2 & J2). split; [lia|auto]. Qed.

Lemma tops_length (a b : Codegen) :
  tops a b -> (length (code a) <= length (code b))%nat.
Proof. intros K. exact (proj1 K). Qed.

Lemma tops_emit (a b : Codegen) (op : Opcode) (x : Z) :
  tops a b -> jump_le (here b + 1) (mkInstr op x) -> tops a (emit b op x).
Proof.
  intros (N & J) Hx. unfold tops, emit, jumps_in, here in *.
  cbn [code set_code] in *. rewrite length_app. cbn [length].
  split; [lia|].
  - intros H. specialize (J H).
    apply Forall_app. split.
    + eapply Forall_impl; [exact J|]. intros i. apply jump_le_mono. lia.
    + constructor; [|constructor]. revert Hx. apply jump_le_mono. lia.
Qed.

Lemma tops_emits (l : list Instr) (a b : Codegen) :
  tops a b -> Forall (jump_le (here b + 1)) l -> tops a (emits b l).
Proof.
  unfold emits. revert b.
  induction l as [|i l IH]; intros b K Hl; simpl; [exact K|].
  inversion Hl as [|? ? Hi Hl']; subst.
  apply IH.
  - apply tops_emit; [exact K|]. destruct i; exact Hi.
  - eapply Forall_impl; [exact Hl'|]. intros j. apply jump_le_mono.
    unfold here, emit. cbn [code set_code]. rewrite length_app. lia.
Qed.

Lemma tops_alloc_var (a b c : Codegen) (name : string) (x : Z) :
  alloc_var b name = (x, c) -> tops a b -> tops a c.
Proof.
  intros E K. unfold alloc_var in E.
  destruct (vars b !! name); [injection E as _ <-; exact K|].
  destruct (var_types _ !! name) as [ty|]; [destruct (String.eqb ty "long")|];
    injection E as _ <-; exact K.
Qed.

Lemma tops_alloc_buffer (a b c : Codegen) (words x : Z) :
  alloc_buffer b words = (x, c) -> tops a b -> tops a c.
Proof. intros [= _ <-] K. exact K. Qed.

Lemma tops_set_break_stack (a b : Codegen) (v : list (list Z)) :
  tops a b -> tops a (set_break_stack b v).
Proof. exact id. Qed.

Lemma tops_set_var_types (a b : Codegen) (v : gmap string string) :
  tops a b -> tops a (set_var_types b v).
Proof. exact id. Qed.

Lemma tops_set_array_bases (a b : Codegen) (v : gmap string Z) :
  tops a b -> tops a (set_array_bases b v).
Proof. exact id. Qed.

Lemma tops_set_string_bases (a b : Codegen) (v : gmap string Z) :
  tops a b -> tops a (set_string_bases b v).
Proof. exact id. Qed.

Lemma tops_set_labels (a b : Codegen) (v : gmap string Z) :
  tops a b -> tops a (set_labels b v).
Proof. exact id. Qed.

Lemma patch_length (b c : Codegen) (pos v : Z) :
  patch b pos v = Ok c -> length (code c) = length (code b).
Proof.
  intros E. unfold patch in E.
  destruct (py_index (code b) pos) as [i|]; cbn [rbind] in E; [|discriminate E].
  destruct (py_setitem (code b) pos _) as [l'|] eqn:Es; cbn [rbind] in E;
    [|discriminate E].
  injection E as <-. cbn [code set_code]. exact (py_setitem_length _ _ _ _ Es).
Qed.

Lemma tops_patch (a b c : Codegen) (pos v : Z) :
  patch b pos v = Ok c -> v <= here b -> tops a b -> tops a c.
Proof.
  intros E Hv (N & J). pose proof (patch_length _ _ _ _ E) as Hl.
  split; [lia|]. intros H. specialize (J H).
  unfold patch in E.
  destruct (py_index (code b) pos) as [i|]; cbn [rbind] in E; [|discriminate E].
  destruct (py_setitem (code b) pos _) as [l'|] eqn:Es; cbn [rbind] in E;
    [|discriminate E].
  injection E as <-. unfold jumps_in, here in *. cbn [code set_code] in *.
  rewrite Hl.
  eapply py_setitem_Forall; [exact Es| |exact J].
  intros _. exact Hv.
Qed.

Lemma register_break_code (b c : Codegen) (pos : Z) :
  register_break b pos = Ok c -> code c = code b.
Proof.
  unfold register_break. intros E.
  destruct (break_stack b); [discriminate E|]. injection E as <-. reflexivity.
Qed.

Lemma tops_register_break (a b c : Codegen) (pos : Z) :
  register_break b pos = Ok c -> tops a b -> tops a c.
Proof.
  unfold register_break. intros E K.
  destruct (break_stack b); [discriminate E|]. injection E as <-. exact K.
Qed.

Lemma patch_all_length (l : list Z) (b c : Codegen) (v : Z) :
  patch_all b l v = Ok c -> length (code c) = length (code b).
Proof.
  revert b. induction l as [|pos rest IH]; intros b E; simpl in E.
  - injection E as <-. reflexivity.
  - destruct (patch b pos v) as [b'|] eqn:Ep; cbn [rbind] in E; [|discriminate E].
    rewrite (IH _ E). exact (patch_length _ _ _ _ Ep).
Qed.

Lemma tops_patch_all (l : list Z) (a b c : Codegen) (v : Z) :
  patch_all b l v = Ok c -> v <= here b -> tops a b -> tops a c.
Proof.
  revert b. induction l as [|pos rest IH]; intros b E Hv K; simpl in E.
  - injection E as <-. exact K.
  - destruct (patch b pos v) as [b'|] eqn:Ep; cbn [rbind] in E; [|discriminate E].
    eapply IH; [exact E| |eapply tops_patch; eauto].
    unfold here. rewrite (patch_length _ _ _ _ Ep). exact Hv.
Qed.

Lemma alloc_var_code (b c : Codegen) (name : string) (x : Z) :
  alloc_var b name = (x, c) -> code c = code b.
Proof.
  intros E. unfold alloc_var in E.
  destruct (vars b !! name); [injection E as _ <-; reflexivity|].
  destruct (var_types _ !! name) as [ty|]; [destruct (String.eqb ty "long")|];
    injection E as _ <-; reflexivity.
Qed.

Lemma alloc_buffer_code (b c : Codegen) (words x : Z) :
  alloc_buffer b words = (x, c) -> code c = code b.
Proof. intros [= _ <-]. reflexivity. Qed.

Ltac gj_split H :=
  repeat (cbv beta iota zeta in H; unfold rbind in H;
          match type of H with
          | Raise _ = Ok _ => discriminate H
          | context [match ?x with _ => _ end] => destruct x eqn:?
          end);
  cbv beta iota zeta in H.

Lemma here_emit (c : Codegen) (op : Opcode) (x : Z) :
  here (emit c op x) = here c + 1.
Proof. unfold here, emit. cbn [code set_code]. rewrite length_app. cbn [length]. lia. Qed.

Lemma here_emits (l : list Instr) (c : Codegen) :
  here (emits c l) = here c + Z.of_nat (length l).
Proof.
  unfold emits. revert c. induction l as [|i l IH]; intros c; simpl fold_left.
  - cbn [length]. lia.
  - rewrite IH, here_emit. cbn [length]. lia.
Qed.

Lemma here_set_break_stack (c : Codegen) (v : list (list Z)) :
  here (set_break_stack c v) = here c.
Proof. reflexivity. Qed.

Lemma here_set_var_types (c : Codegen) (v : gmap string string) :
  here (set_var_types c v) = here c.
Proof. reflexivity. Qed.

Lemma here_set_array_bases (c : Codegen) (v : gmap string Z) :
  here (set_array_bases c v) = here c.
Proof. reflexivity. Qed.

Lemma here_set_string_bases (c : Codegen) (v : gmap string Z) :
  here (set_string_bases c v) = here c.
Proof. reflexivity. Qed.

Lemma here_set_labels (c : Codegen) (v : gmap string Z) :
  here (set_labels c v) = here c.
Proof. reflexivity. Qed.

Lemma tops_here (a b : Codegen) : tops a b -> here a <= here b.
Proof. intros K. unfold here. pose proof (tops_length a b K). lia. Qed.

Lemma patch_here (b c : Codegen) (pos v : Z) :
  patch b pos v = Ok c -> here c = here b.
Proof. intros E. unfold here. rewrite (patch_length _ _ _ _ E). reflexivity. Qed.

Lemma patch_all_here (l : list Z) (b c : Codegen) (v : Z) :
  patch_all b l v = Ok c -> here c = here b.
Proof. intros E. unfold here. rewrite (patch_all_length _ _ _ _ E). reflexivity. Qed.

Lemma register_break_here (b c : Codegen) (pos : Z) :
  register_break b pos = Ok c -> here c = here b.
Proof. intros E. unfold here. rewrite (register_break_code _ _ _ E). reflexivity. Qed.

Lemma alloc_var_here (b c : Codegen) (name : string) (x : Z) :
  alloc_var b name = (x, c) -> here c = here b.
Proof. intros E. unfold here. rewrite (alloc_var_code _ _ _ _ E). reflexivity. Qed.

Lemma alloc_buffer_here (b c : Codegen) (words x : Z) :
  alloc_buffer b words = (x, c) -> here c = here b.
Proof. intros E. unfold here. rewrite (alloc_buffer_code _ _ _ _ E). reflexivity. Qed.

Ltac note H :=
  let T := type of H in
  lazymatch goal with
  | _ : T |- _ => fail
  | _ => pose proof H
  end.

(** Collects what the context says about code lengths, then compares. *)
Ltac here_side :=
  unfold jump_le; cbn [opcode arg is_jump]; intros;
  first
    [ discriminate
    | repeat match goal with
             | K : tops ?a ?b |- _ => note (tops_here a b K)
             | E : patch ?b ?p ?v = Ok ?c |- _ => note (patch_here b c p v E)
             | E : patch_all ?b ?l ?v = Ok ?c |- _ => note (patch_all_here l b c v E)
             | E : register_break ?b ?p = Ok ?c |- _ =>
                 note (register_break_here b c p E)
             | E : alloc_var ?b ?n = (?x, ?c) |- _ => note (alloc_var_here b c n x E)
             | E : alloc_buffer ?b ?w = (?x, ?c) |- _ =>
                 note (alloc_buffer_here b c w x E)
             end;
      repeat match goal with
             | E : _ = Ok _ |- _ => clear E
             | E : _ = (_, _) |- _ => clear E
             end;
      repeat match goal with
             | Hf : context [here (emits _ _)] |- _ => rewrite here_emits in Hf
             | Hf : context [here (emit _ _ _)] |- _ => rewrite here_emit in Hf
             | Hf : context [here (set_break_stack _ _)] |- _ =>
                 rewrite here_set_break_stack in Hf
             | Hf : context [here (set_array_bases _ _)] |- _ =>
                 rewrite here_set_array_bases in Hf
             | Hf : context [here (set_var_types _ _)] |- _ =>
                 rewrite here_set_var_types in Hf
             | Hf : context [here (set_string_bases _ _)] |- _ =>
                 rewrite here_set_string_bases in Hf
             end;
      rewrite ?here_emits, ?here_emit, ?here_set_break_stack, ?here_set_array_bases,
        ?here_set_var_types, ?here_set_string_bases;
      cbn [length] in *;
      pose proof here_nonneg;
      repeat match goal with
             | |- context [here ?c] => note (here_nonneg c)
             end;
      lia ].

Ltac jump_sides :=
  repeat (apply List.Forall_cons; [here_side|]); apply List.Forall_nil.

Ltac tops_solve :=
  first
    [ apply tops_refl
    | assumption
    | apply tops_emits; [tops_solve|jump_sides]
    | apply tops_emit; [tops_solve|here_side]
    | apply tops_set_break_stack; tops_solve
    | apply tops_set_var_types; tops_solve
    | apply tops_set_array_bases; tops_solve
    | apply tops_set_string_bases; tops_solve
    | apply tops_set_labels; tops_solve
    | match goal with
      | E : alloc_var _ _ = (_, ?c) |- tops _ ?c =>
          eapply tops_alloc_var; [exact E|tops_solve]
      | E : alloc_buffer _ _ = (_, ?c) |- tops _ ?c =>
          eapply tops_alloc_buffer; [exact E|tops_solve]
      | E : patch _ _ _ = Ok ?c |- tops _ ?c =>
          eapply tops_patch; [exact E|here_side|tops_solve]
      | E : register_break _ _ = Ok ?c |- tops _ ?c =>
          eapply tops_register_break; [exact E|tops_solve]
      | E : patch_all _ _ _ = Ok ?c |- tops _ ?c =>
          eapply tops_patch_all; [exact E|here_side|tops_solve]
      | K : tops ?b ?c |- tops _ ?c =>
          apply (fun X => tops_trans _ _ _ X K); tops_solve
      end ].

Ltac gj_done H := gj_split H; try (injection H as <-); tops_solve.

Lemma emit_print_cstr_tops (cg cg' : Codegen) (addr : Z) :
  _emit_print_cstr cg addr = Ok cg' -> tops cg cg'.
Proof. unfold _emit_print_cstr. intros H. gj_done H. Qed.

Lemma gen_readInt_tops (cg cg' : Codegen) : gen_readInt cg = Ok cg' -> tops cg cg'.
Proof. unfold gen_readInt. intros H. gj_done H. Qed.

Lemma ensure_array_tops (a b : Codegen) (name : string) :
  tops a b -> tops a (ensure_array_initialized b name).
Proof.
  intros K. unfold ensure_array_initialized.
  destruct (array_bases b !! name); [exact K|].
  destruct (alloc_buffer b 128) as [base c1] eqn:E1.
  destruct (alloc_var _ name) as [va c2] eqn:E2. tops_solve.
Qed.

Lemma emit_chars_tops (text : list Ascii.ascii) (a b : Codegen) (base i : Z) :
  tops a b -> tops a (emit_chars b base i text).
Proof.
  revert b i. induction text as [|ch rest IH]; intros b i K; simpl; [exact K|].
  apply IH. tops_solve.
Qed.

Lemma ensure_cstr_tops (a b c : Codegen) (text : string) (x : Z) :
  tops a b -> _ensure_cstr_literal b text = (x, c) -> tops a c.
Proof.
  intros K E. unfold _ensure_cstr_literal in E.
  destruct (string_bases b !! text); [injection E as _ <-; exact K|].
  destruct (alloc_buffer b _) as [base c1] eqn:E1.
  destruct (alloc_var _ _) as [va c2] eqn:E2.
  injection E as _ <-.
  assert (tops a (emit_chars c1 base 0 (String.list_ascii_of_string text)))
    by (apply emit_chars_tops; tops_solve).
  tops_solve.
Qed.

Lemma gen_expr_tops (e : Expr) :
  forall cg cg', gen_expr e cg = Ok cg' -> tops cg cg'.
Proof.
  induction e as [v|n|op a b IHa IHb|name args IHargs] using Expr_nested_ind;
    intros cg cg' H; simpl in H.
  - gj_done H.
  - gj_done H.
  - gj_split H; try discriminate H;
      repeat match goal with
             | E : gen_expr a _ = Ok _ |- _ => apply IHa in E
             | E : gen_expr b _ = Ok _ |- _ => apply IHb in E
             end;
      try (injection H as <-); tops_solve.
  - destruct (String.eqb name "readInt"); [apply gen_readInt_tops, H|].
    destruct (String.eqb name "readChar"); [gj_done H|].
    destruct (String.eqb name "get"); [|discriminate H].
    destruct args as [|[v|arr|op a b|f l] [|idx [|x rest]]]; try discriminate H.
    inversion IHargs as [|? ? _ Hrest]; subst.
    inversion Hrest as [|? ? Hidx _]; subst.
    pose proof (ensure_array_tops cg cg arr (tops_refl cg)) as K0.
    gj_split H; try discriminate H.
    match goal with E : gen_expr idx _ = Ok _ |- _ => apply Hidx in E end.
    injection H as <-. tops_solve.
Qed.

Ltac expr_tops :=
  repeat match goal with
         | E : gen_expr _ _ = Ok _ |- _ => apply gen_expr_tops in E
         | E : _emit_print_cstr _ _ = Ok _ |- _ => apply emit_print_cstr_tops in E
         end.

Lemma gen_readString_tops (cg cg' : Codegen) (name : string) :
  gen_readString cg name = Ok cg' -> tops cg cg'.
Proof. unfold gen_readString. intros H. gj_done H. Qed.

Lemma gen_load_long_tops (a b : Codegen) (var : string) :
  tops a b -> tops a (gen_load_long b var).
Proof.
  intros K. unfold gen_load_long.
  destruct (alloc_var b var) as [addr c] eqn:E. tops_solve.
Qed.

Lemma gen_long_add_tops (cg cg' : Codegen) (base : Z) (va vb : string) :
  gen_long_add cg base va vb = Ok cg' -> tops cg cg'.
Proof.
  unfold gen_long_add. intros H.
  pose proof (gen_load_long_tops cg _ vb
                (gen_load_long_tops cg cg va (tops_refl cg))) as K0.
  gj_done H.
Qed.

Lemma gen_assign_tops (cg cg' : Codegen) (name : string) (expr : Expr) :
  gen_assign cg name expr = Ok cg' -> tops cg cg'.
Proof.
  unfold gen_assign. intros H.
  gj_split H; try discriminate H;
    repeat match goal with
           | E : gen_readString _ _ = Ok _ |- _ => apply gen_readString_tops in E
           | E : gen_long_add _ _ _ _ = Ok _ |- _ => apply gen_long_add_tops in E
           end;
    expr_tops; try (injection H as <-); tops_solve.
Qed.

Lemma gen_call_stmt_tops (cg cg' : Codegen) (name : string) (args : list Expr) :
  gen_call_stmt cg name args = Ok cg' -> tops cg cg'.
Proof.
  unfold gen_call_stmt. intros H.
  destruct args as [|e1 [|e2 [|e3 [|e4 rest]]]].
  - gj_done H.
  - gj_split H; try discriminate H; expr_tops; try (injection H as <-); tops_solve.
  - destruct e1; discriminate H.
  - destruct e1 as [v|arr|op a b|f l]; try discriminate H.
    destruct (String.eqb name "set"); [|discriminate H].
    pose proof (ensure_array_tops cg cg arr (tops_refl cg)) as K0.
    gj_split H; try discriminate H; expr_tops; injection H as <-; tops_solve.
  - destruct e1; discriminate H.
Qed.

Lemma gen_var_decl_tops (cg : Codegen) (vtype name : string) :
  tops cg (gen_var_decl cg vtype name).
Proof.
  unfold gen_var_decl.
  destruct (alloc_var cg name) as [x c1] eqn:E1.
  destruct (String.eqb vtype "string"); [|tops_solve].
  destruct (alloc_buffer _ 64) as [base c2] eqn:E2.
  destruct (alloc_var c2 name) as [va c3] eqn:E3. tops_solve.
Qed.

Lemma stmts_with_tops (l : list Stmt) :
  Forall stmt_tops l ->
  forall cg cg', stmts_with gen_stmt l cg = Ok cg' -> tops cg cg'.
Proof.
  induction 1 as [|st rest Hst _ IH]; intros cg cg' H; simpl in H.
  - injection H as <-. apply tops_refl.
  - destruct (gen_stmt st cg) as [c1|] eqn:E; cbn [rbind] in H; [|discriminate H].
    eapply tops_trans; [apply Hst, E|apply IH, H].
Qed.

Lemma while_body_tops (l : list Stmt) :
  Forall stmt_tops l ->
  forall cg cg', while_body gen_stmt l cg = Ok cg' -> tops cg cg'.
Proof.
  induction 1 as [|st rest Hst _ IH]; intros cg cg' H; simpl in H.
  - injection H as <-. apply tops_refl.
  - match type of H with
    | rbind ?m _ = _ => destruct m as [c1|] eqn:E; cbn [rbind] in H; [|discriminate H]
    end.
    eapply tops_trans; [|apply IH, H].
    destruct st; try (apply Hst, E). tops_solve.
Qed.

Lemma gen_stmt_tops (s : Stmt) : stmt_tops s.
Proof.
  induction s as [vt n|n e|c body IHb|e|txt|e| |c tb eb IHt IHe|n args]
    using Stmt_nested_ind; intros cg cg' H; simpl in H.
  - injection H as <-. apply gen_var_decl_tops.
  - apply gen_assign_tops in H. exact H.
  - gj_split H; try discriminate H; expr_tops.
    match goal with
    | E : while_body _ _ _ = Ok _ |- _ => apply (while_body_tops _ IHb) in E
    end.
    tops_solve.
  - gj_split H; try discriminate H; expr_tops; injection H as <-; tops_solve.
  - destruct (_ensure_cstr_literal cg txt) as [va c1] eqn:E1.
    apply emit_print_cstr_tops in H.
    eapply tops_trans; [|exact H].
    eapply ensure_cstr_tops; [apply tops_refl|exact E1].
  - gj_split H; try discriminate H; expr_tops; try (injection H as <-); tops_solve.
  - gj_split H; try discriminate H; tops_solve.
  - destruct eb as [l0|].
    + specialize (IHe l0 eq_refl).
      gj_split H; try discriminate H; expr_tops;
        repeat match goal with
               | E : stmts_with _ tb _ = Ok _ |- _ => apply (stmts_with_tops _ IHt) in E
               | E : stmts_with _ l0 _ = Ok _ |- _ => apply (stmts_with_tops _ IHe) in E
               end;
        tops_solve.
    + gj_split H; try discriminate H; expr_tops;
        repeat match goal with
               | E : stmts_with _ tb _ = Ok _ |- _ => apply (stmts_with_tops _ IHt) in E
               end;
        tops_solve.
  - apply gen_call_stmt_tops in H. exact H.
Qed.

Lemma gen_stmts_tops (l : list Stmt) (cg cg' : Codegen) :
  gen_stmts l cg = Ok cg' -> tops cg cg'.
Proof.
  apply stmts_with_tops. apply Forall_forall. intros s _. apply gen_stmt_tops.
Qed.

Lemma gen_func_jumps (f : Func) (cg cg' : Codegen) :
  gen_func f cg = Ok cg' ->
  Forall (jump_le (here cg - 1)) (code cg) ->
  Forall (jump_le (here cg' - 1)) (code cg').
Proof.
  unfold gen_func. intros H Hlt.
  destruct (gen_stmts (fbody f) _) as [c1|] eqn:E; cbn [rbind] in H; [|discriminate H].
  apply gen_stmts_tops in E. destruct E as (_ & J).
  assert (J1 : jumps_in c1).
  { apply J. unfold jumps_in. eapply Forall_impl; [exact Hlt|].
    intros i. apply jump_le_mono. change (here (set_labels cg _)) with (here cg). lia. }
  assert (X : exists op, cg' = emit c1 op 0 /\ is_jump op = false).
  { destruct (String.eqb (fname f) "main"); [injection H as <-; eexists; split; reflexivity|].
    destruct (_is_irq_func (fname f)); injection H as <-; eexists; split; reflexivity. }
  destruct X as (op & -> & Hop). rewrite here_emit.
  unfold emit. cbn [code set_code]. apply Forall_app. split.
  - eapply Forall_impl; [exact J1|]. intros i. apply jump_le_mono. lia.
  - constructor; [|constructor]. unfold jump_le. cbn [opcode]. congruence.
Qed.

Lemma gen_funcs_jumps (l : list Func) :
  forall cg cg',
    gen_funcs l cg = Ok cg' ->
    Forall (jump_le (here cg - 1)) (code cg) ->
    Forall (jump_le (here cg' - 1)) (code cg').
Proof.
  induction l as [|f rest IH]; intros cg cg' H Hlt; simpl in H.
  - injection H as <-. exact Hlt.
  - destruct (gen_func f cg) as [c1|] eqn:E; cbn [rbind] in H; [|discriminate H].
    eapply IH; [exact H|]. eapply gen_func_jumps; eassumption.
Qed.

End CodegenJumps.

(** X26.  Every jump of a translated program lands inside the program:
    in the image returned by [gen], the argument of each [JMP], [JZ] and
    [CALL], in the vector table as in the code, is the index of an
    instruction of the image. *)
Theorem image_jumps_stay_inside (prog : Ast.Program) (image : list Isa.Instr) :
  Codegen.gen prog = Ok image ->
  Forall (fun ins =>
            Codegen.is_jump (Isa.opcode ins) = true ->
            0 <= Isa.arg ins < Z.of_nat (length image))
         image.
Proof.
  unfold Codegen.gen, Codegen.gen_from. intros H.
  destruct (Codegen.gen_funcs (Ast.functions prog) Codegen.init) as [cg0|] eqn:E;
    cbn [rbind] in H; [|discriminate H].
  injection H as <-. cbn [fst Codegen.labels Codegen.code Codegen.set_code].
  change Isa.DEFAULT_NUM_VECTORS with 8.
  destruct (gen_funcs_spec _ _ _ E) as (_ & J & LC & _ & _).
  assert (J0 : Forall (jump_arg_ok 0) (Codegen.code cg0)) by (apply J; constructor).
  assert (LC0 : labels_in_code cg0) by (apply LC; intros name off Hl; discriminate Hl).
  assert (J1 : Forall (jump_le (Codegen.here cg0 - 1)) (Codegen.code cg0))
    by (apply (gen_funcs_jumps _ _ _ E); constructor).
  cbn [length]. rewrite length_map.
  assert (Hvec : forall key : string,
             0 <= Isa.arg (match Codegen.labels cg0 !! key with
                           | Some off => Isa.mkInstr Isa.JMP (8 + off)
                           | None => Isa.mkInstr Isa.JMP 0
                           end)
             < Z.of_nat (8 + length (Codegen.code cg0))).
  { intros key.
    destruct (Codegen.labels cg0 !! key) as [off|] eqn:Hk; cbn [Isa.arg]; [|lia].
    apply LC0 in Hk. lia. }
  repeat (apply List.Forall_cons;
          [intros _; unfold Codegen.irq_vector; apply Hvec|]).
  apply Forall_map. rewrite Forall_forall in J0, J1. apply Forall_forall.
  intros i Hi Hj. rewrite relocate_opcode in Hj.
  rewrite relocate_jump by exact Hj. cbn [Isa.arg].
  specialize (J0 i Hi Hj). specialize (J1 i Hi Hj).
  unfold Codegen.here in J1. lia.
Qed.

Lemma image_jumps_stay_inside_witness :
  Forall (fun ins =>
            Codegen.is_jump (Isa.opcode ins) = true ->
            0 <= Isa.arg ins < Z.of_nat (length (fst vector_demo_result)))
         (fst vector_demo_result).
Proof.
  apply (image_jumps_stay_inside vector_demo_program (fst vector_demo_result)).
  vm_compute. reflexivity.
Defined.
